(** * Schematics: transform loops, roles, compound types, flatten/expand

    A shallow embedding of [schematics/transforms.py] and
    [schematics/types/compound.py].  Python values are an inductive type,
    dictionaries are association lists in insertion order (the order Python
    keeps), sets of field names are [gset string], exceptions are the
    [Raise] side of a result type. *)

From Stdlib Require Import ZArith List String Ascii Lia.
From Stdlib Require Import DecimalString DecimalNat DecimalPos DecimalZ.
From Stdlib Require Import Sorting.Mergesort Sorting.Sorted Sorting.Permutation Orders.
From stdpp Require Import gmap strings list.

Open Scope string_scope.
Open Scope Z_scope.
Open Scope list_scope.

(** ** Results of calls that may raise *)

Inductive result (E A : Type) : Type :=
| Ok (a : A)
| Raise (e : E).
Arguments Ok {E A} a.
Arguments Raise {E A} e.

Definition bind {E A B} (r : result E A) (k : A -> result E B) : result E B :=
  match r with
  | Ok a => k a
  | Raise e => Raise e
  end.

Notation "'do' x <- r ; k" := (bind r (fun x => k))
  (at level 10, x pattern, r at level 100, k at level 200).

(** ** Python values *)

(** Dictionary keys: text, or the integers that [enumerate] and
    [list.index] traffic in. *)
Inductive key : Type :=
| KInt (z : Z)
| KStr (s : string).

#[export] Instance key_eq_dec : EqDecision key.
Proof. solve_decision. Defined.

#[warnings="-register-all"]
Inductive value : Type :=
| Undefined
| VNone
| VInt (z : Z)
| VStr (s : string)
| VList (l : list value)
| VDict (d : list (key * value)).

Abbreviation dict := (list (key * value)).

(** Induction over values that reaches inside lists and dictionaries. *)
Section value_ind.
Variable P : value -> Prop.
Hypothesis HUndefined : P Undefined.
Hypothesis HNone : P VNone.
Hypothesis HInt : forall z, P (VInt z).
Hypothesis HStr : forall s, P (VStr s).
Hypothesis HList : forall l, Forall P l -> P (VList l).
Hypothesis HDict : forall d, Forall (fun kv => P (snd kv)) d -> P (VDict d).

Fixpoint value_ind' (v : value) : P v :=
  match v with
  | Undefined => HUndefined
  | VNone => HNone
  | VInt z => HInt z
  | VStr s => HStr s
  | VList l =>
      HList l ((fix go (l : list value) : Forall P l :=
                  match l with
                  | [] => @List.Forall_nil _ _
                  | x :: r => @List.Forall_cons _ _ x r (value_ind' x) (go r)
                  end) l)
  | VDict d =>
      HDict d ((fix go (d : dict) : Forall (fun kv => P (snd kv)) d :=
                  match d with
                  | [] => @List.Forall_nil _ _
                  | kv :: r => @List.Forall_cons _ _ kv r (value_ind' (snd kv)) (go r)
                  end) d)
  end.
End value_ind.

(** ** Dictionaries in insertion order *)

Fixpoint dict_get {A} (d : list (key * A)) (k : key) : option A :=
  match d with
  | [] => None
  | (k', v) :: r => if decide (k' = k) then Some v else dict_get r k
  end.

Definition dict_has {A} (d : list (key * A)) (k : key) : bool :=
  match dict_get d k with Some _ => true | None => false end.

(** [d[k] = v]: an existing key keeps its position, a new key goes last. *)
Fixpoint dict_set {A} (d : list (key * A)) (k : key) (v : A) : list (key * A) :=
  match d with
  | [] => [(k, v)]
  | (k', v') :: r =>
      if decide (k' = k) then (k', v) :: r else (k', v') :: dict_set r k v
  end.

(** [d.update(other)] *)
Definition dict_update {A} (d other : list (key * A)) : list (key * A) :=
  fold_left (fun acc kv => dict_set acc (fst kv) (snd kv)) other d.

Definition dict_keys {A} (d : list (key * A)) : list key := map fst d.

(** [str(k)] of a key: text is itself, an integer is its decimal numeral. *)
Definition unicode (k : key) : string :=
  match k with
  | KStr s => s
  | KInt z => NilZero.string_of_int (Z.to_int z)
  end.

(** Truth value of a key ([if prefix:], [if key and ...]). *)
Definition key_truthy (k : key) : bool :=
  match k with
  | KStr s => negb (String.eqb s "")
  | KInt z => negb (Z.eqb z 0)
  end.

(** ** Roles *)

Module Role.

(** The three static filter functions of the class. *)
Inductive filter : Type := f_wholelist | f_whitelist | f_blacklist.

#[export] Instance filter_eq_dec : EqDecision filter.
Proof. solve_decision. Defined.

Definition __name__ (f : filter) : string :=
  match f with
  | f_wholelist => "wholelist"
  | f_whitelist => "whitelist"
  | f_blacklist => "blacklist"
  end.

Record t : Type := Role { function : filter; fields : gset string }.

(** [Role.wholelist(name, value, seq)] *)
Definition wholelist_fn (name : string) (v : value) (seq : option (gset string)) : bool :=
  false.

(** [Role.whitelist(name, value, seq)] *)
Definition whitelist_fn (name : string) (v : value) (seq : option (gset string)) : bool :=
  match seq with
  | Some s => if bool_decide (0 < size s)%nat then negb (bool_decide (name ∈ s)) else true
  | None => true
  end.

(** [Role.blacklist(name, value, seq)] *)
Definition blacklist_fn (name : string) (v : value) (seq : option (gset string)) : bool :=
  match seq with
  | Some s => if bool_decide (0 < size s)%nat then bool_decide (name ∈ s) else false
  | None => false
  end.

Definition apply_filter (f : filter) : string -> value -> option (gset string) -> bool :=
  match f with
  | f_wholelist => wholelist_fn
  | f_whitelist => whitelist_fn
  | f_blacklist => blacklist_fn
  end.

(** [__call__]: true means the field is to be skipped. *)
Definition call (r : t) (name : string) (v : value) : bool :=
  apply_filter (function r) name v (Some (fields r)).

(** [__init__] takes any iterable of names and copies it into a set. *)
Definition init (f : filter) (names : list string) : t :=
  Role f (list_to_set names).

Definition _from_iterable (self : t) (iterable : list string) : t :=
  init (function self) iterable.

Definition __contains__ (self : t) (name : string) : bool :=
  bool_decide (name ∈ fields self).

Definition __iter__ (self : t) : list string := elements (fields self).

Definition __len__ (self : t) : nat := size (fields self).

Definition __eq__ (self other : t) : bool :=
  bool_decide (__name__ (function self) = __name__ (function other))
  && bool_decide (fields self = fields other).

(** Module-level constructors. *)
Definition wholelist (field_list : list string) : t := init f_wholelist field_list.
Definition whitelist (field_list : list string) : t := init f_whitelist field_list.
Definition blacklist (field_list : list string) : t := init f_blacklist field_list.

(** Iterating a text yields its one-character substrings; this is what
    [set.union] and [set.difference] see when handed a bare name. *)
Fixpoint iter_str (s : string) : list string :=
  match s with
  | EmptyString => []
  | String c r => String c EmptyString :: iter_str r
  end.

(** Roles are objects; the store maps an object's address to its state. *)
Abbreviation store := (list t).

Definition alloc (st : store) (r : t) : store * nat := (st ++ [r], length st).

(** [__add__]: [self.fields.union(other)] builds a fresh set, and
    [_from_iterable] a fresh Role around a copy of it. *)
Definition __add__ (st : store) (self : nat) (other : list string) : option (store * nat) :=
  match st !! self with
  | Some r =>
      let fields' := elements (fields r ∪ list_to_set other) in
      Some (alloc st (_from_iterable r fields'))
  | None => None
  end.

(** [__sub__] *)
Definition __sub__ (st : store) (self : nat) (other : list string) : option (store * nat) :=
  match st !! self with
  | Some r =>
      let fields' := elements (fields r ∖ list_to_set other) in
      Some (alloc st (_from_iterable r fields'))
  | None => None
  end.

End Role.

(** ** Exceptions *)

(** The exception classes the two files raise and catch.  [ConversionError]
    and [ValidationError] are [FieldError]s; [DataError] is a
    [CompoundError] that also carries partial data; both families derive
    from [BaseError].  An error mapping holds exceptions, or the text
    ['Rogue field']. *)
#[warnings="-register-all"]
Inductive exn : Type :=
| ConversionError (msg : string)
| ValidationError (msg : string)
| CompoundError (errors : list (key * errval))
| DataError (errors : list (key * errval)) (partial_data : value)
| ValueError (msg : string)
| TypeError (msg : string)
| AttributeError (msg : string)
| IndexError (msg : string)
| NotImplementedError
| RuntimeError (msg : string)
| Exception_ (msg : string)
with errval : Type :=
| ErrText (s : string)
| ErrExc (e : exn).

Definition is_FieldError (e : exn) : bool :=
  match e with ConversionError _ | ValidationError _ => true | _ => false end.

Definition is_DataError (e : exn) : bool :=
  match e with DataError _ _ => true | _ => false end.

Definition is_CompoundError (e : exn) : bool :=
  match e with CompoundError _ | DataError _ _ => true | _ => false end.

Definition is_BaseError (e : exn) : bool := is_FieldError e || is_CompoundError e.

Abbreviation res := (result exn).

(** ** Context, fields and model classes *)

(** The per-field alias table of a context, with the sub-tables kept under
    ['model_mapping'].  Alias entries are stored as the list [listify]
    makes of them. *)
#[warnings="-register-all"]
Inductive mapping_t : Type :=
| Mapping (aliases : list (string * list key))
          (model_mapping : option (list (string * mapping_t))).

Definition aliases (m : mapping_t) : list (string * list key) :=
  match m with Mapping a _ => a end.

Definition model_mapping (m : mapping_t) : option (list (string * mapping_t)) :=
  match m with Mapping _ mm => mm end.

Fixpoint assoc {A} (l : list (string * A)) (k : string) : option A :=
  match l with
  | [] => None
  | (k', v) :: r => if String.eqb k' k then Some v else assoc r k
  end.

(** An initialised context.  The active field converter, which the source
    keeps as [context.field_converter], is passed to the loops beside it. *)
Record Context : Type := {
  mapping : mapping_t;
  partial : bool;
  strict : bool;
  init_values : bool;
  apply_defaults : bool;
  role : option string;
  raise_error_on_role : bool;
  export_level : option Z
}.

(** Modelled from the spec: [Context._branch] (datastructures.py), a child
    context that overrides only the mapping, when there is one to override
    it with. *)
Definition _branch (ctx : Context) (submap : option mapping_t) : Context :=
  match submap with
  | Some m =>
      {| mapping := m; partial := partial ctx; strict := strict ctx;
         init_values := init_values ctx; apply_defaults := apply_defaults ctx;
         role := role ctx; raise_error_on_role := raise_error_on_role ctx;
         export_level := export_level ctx |}
  | None => ctx
  end.

(** A field descriptor, with the methods of [BaseType] the loops call:
    they are attributes of the descriptor because types/base.py is not
    among the sources.  [deserialize_from] is the list [listify] makes of
    the attribute, [typeclass_mro] the names of the field's class and of
    its ancestors. *)
Module Field.
Record t : Type := {
  serialized_name : option string;
  deserialize_from : list key;
  is_compound : bool;
  default : value;
  typeclass_mro : list string;
  get_export_level : Context -> Z;
  export : value -> Z -> Context -> res value;
  check_required : value -> Context -> res unit;
  convert : value -> Context -> res value;
  validate : value -> Context -> res value
}.
End Field.

Abbreviation field := Field.t.

Abbreviation converter := (field -> value -> Context -> res value).

Record options : Type := {
  roles : gmap string Role.t;
  fields_order : option (list key)
}.

Record model_class : Type := {
  __name__ : string;
  _fields : list (string * field);
  _serializables : list (string * field);
  _options : option options
}.

(** The export levels and formats of common.py, which is not among the
    sources: their numeric values are parameters of the development. *)
Record constants : Type := {
  DROP : Z; DEFAULT : Z; NOT_NONE : Z; NONEMPTY : Z;
  NATIVE : Z; PRIMITIVE : Z
}.

(** ** Small Python operations *)

Definition is_Undefined (v : value) : bool :=
  match v with Undefined => true | _ => false end.

Definition is_None (v : value) : bool :=
  match v with VNone => true | _ => false end.

(** [value in (None, Undefined)] *)
Definition in_None_Undefined (v : value) : bool := is_None v || is_Undefined v.

(** [len(value)] *)
Definition len (v : value) : res nat :=
  match v with
  | VList l => Ok (length l)
  | VDict d => Ok (length d)
  | VStr s => Ok (String.length s)
  | _ => Raise (TypeError "object has no len()")
  end.

(** Truth value of an optional text ([if field.serialized_name:]). *)
Definition name_truthy (o : option string) : bool :=
  match o with
  | Some s => negb (String.eqb s "")
  | None => false
  end.

(** [a or b] on an optional text and a text. *)
Definition name_or (o : option string) (dflt : string) : string :=
  match o with
  | Some s => if String.eqb s "" then dflt else s
  | None => dflt
  end.

(** [sep.join(l)] *)
Fixpoint join (sep : string) (l : list string) : string :=
  match l with
  | [] => ""
  | [x] => x
  | x :: r => x +:+ sep +:+ join sep r
  end.

(** [l.index(x)] *)
Fixpoint index (l : list key) (x : key) : res nat :=
  match l with
  | [] => Raise (ValueError "is not in list")
  | y :: r => if decide (y = x) then Ok 0%nat else do i <- index r x; Ok (S i)
  end.

Definition key_in (x : key) (l : list key) : bool := bool_decide (x ∈ l).

(** [sorted(items, key=...)] on items already paired with their sort key:
    stable, smallest key first. *)
Fixpoint insert_sorted {A} (lt : A -> A -> bool) (x : A) (l : list A) : list A :=
  match l with
  | [] => [x]
  | y :: r => if lt x y then x :: l else y :: insert_sorted lt x r
  end.

Definition sorted {A} (lt : A -> A -> bool) (l : list A) : list A :=
  fold_left (fun acc x => insert_sorted lt x acc) l [].

Definition sorted_by {A} (l : list (nat * A)) : list (nat * A) :=
  sorted (fun x y => (fst x <? fst y)%nat) l.

Fixpoint mapM {A B} (f : A -> res B) (l : list A) : res (list B) :=
  match l with
  | [] => Ok []
  | x :: r => do y <- f x; do ys <- mapM f r; Ok (y :: ys)
  end.

(** ** transforms.py: the export loop *)

(** The sort key of [sort_dict]'s lambda. *)
Definition sort_dict_key (based_on : list key) (el : key * value) : res nat :=
  index based_on (if key_in (fst el) based_on then fst el else KInt (-1)).

Definition sort_dict (dct : dict) (based_on : list key) : res dict :=
  do decorated <- mapM (fun el => do i <- sort_dict_key based_on el; Ok (i, el)) dct;
  Ok (map snd (sorted_by decorated)).

Definition atoms (cls : model_class) (instance_or_dict : dict)
  : list (string * field * value) :=
  map (fun nf => (fst nf, snd nf,
                  match dict_get instance_or_dict (KStr (fst nf)) with
                  | Some v => v
                  | None => Undefined
                  end))
      (_fields cls ++ _serializables cls).

(** Translation of the requested role into the [gottago] predicate. *)
Definition resolve_role (cls : model_class) (ctx : Context) : res Role.t :=
  let gottago := Role.wholelist [] in
  let requested :=
    match _options cls, role ctx with
    | Some o, Some r => roles o !! r
    | _, _ => None
    end in
  match requested with
  | Some g => Ok g
  | None =>
      if name_truthy (role ctx) && raise_error_on_role ctx
      then Raise (ValueError "Model has no role")
      else match _options cls with
           | Some o => Ok (match roles o !! "default" with Some g => g | None => gottago end)
           | None => Raise (AttributeError "_options")
           end
  end.

(** One turn of the loop over [atoms]; returning [data] unchanged is
    [continue]. *)
Definition export_atom (K : constants) (conv : converter) (ctx : Context)
    (gottago : Role.t) (data : dict) (atom : string * field * value) : res dict :=
  let '(field_name, fld, v) := atom in
  let sname := name_or (Field.serialized_name fld) field_name in
  if Role.call gottago field_name v then Ok data
  else
    let _export_level := Field.get_export_level fld ctx in
    if _export_level =? DROP K then Ok data
    else
      do v <- (if in_None_Undefined v then Ok v else conv fld v ctx);
      do skip <-
        match v with
        | Undefined => Ok (_export_level <=? DEFAULT K)
        | VNone => Ok (_export_level <=? NOT_NONE K)
        | _ =>
            if Field.is_compound fld
            then do n <- len v;
                 Ok (if (n =? 0)%nat then _export_level <=? NONEMPTY K else false)
            else Ok false
        end;
      if skip then Ok data
      else Ok (dict_set data (KStr sname) (if is_Undefined v then VNone else v)).

Fixpoint foldM {A S} (f : S -> A -> res S) (l : list A) (s : S) : res S :=
  match l with
  | [] => Ok s
  | x :: r => do s' <- f s x; foldM f r s'
  end.

Definition export_loop (K : constants) (cls : model_class) (instance_or_dict : dict)
    (conv : converter) (ctx : Context) : res dict :=
  do gottago <- resolve_role cls ctx;
  let fields_order := match _options cls with Some o => fields_order o | None => None end in
  do data <- foldM (export_atom K conv ctx gottago) (atoms cls instance_or_dict) [];
  match fields_order with
  | Some (k :: order) => sort_dict data (k :: order)
  | _ => Ok data
  end.

(** ** transforms.py: the import loop *)

Abbreviation errors_t := (list (key * errval)).

(** The keys tried for a field, in the order the loop builds them. *)
Definition trial_keys (ctx : Context) (field_name : string) (fld : field) : list key :=
  Field.deserialize_from fld
  ++ match assoc (aliases (mapping ctx)) field_name with Some l => l | None => [] end
  ++ (if name_truthy (Field.serialized_name fld)
      then match Field.serialized_name fld with Some s => [KStr s] | None => [] end
      else [])
  ++ [KStr field_name].

(** [for key in trial_keys: if key and key in input: value = input[key]] *)
Definition scan_keys (keys : list key) (input : dict) (v0 : value) : value :=
  fold_left (fun v k =>
               if key_truthy k
               then match dict_get input k with Some x => x | None => v end
               else v)
            keys v0.

(** All acceptable input names, for the rogue-field check. *)
Definition all_fields (cls : model_class) (ctx : Context) : list key :=
  let names := map fst (_fields cls) in
  let sers := map fst (_serializables cls) in
  map KStr (filter (fun n => negb (bool_decide (n ∈ sers))) names
            ++ filter (fun n => negb (bool_decide (n ∈ names))) sers)
  ++ flat_map (fun nf =>
       (if name_truthy (Field.serialized_name (snd nf))
        then match Field.serialized_name (snd nf) with Some s => [KStr s] | None => [] end
        else [])
       ++ Field.deserialize_from (snd nf)
       ++ match assoc (aliases (mapping ctx)) (fst nf) with Some l => l | None => [] end)
     (_fields cls).

(** The rogue keys of the input, in input order. *)
Definition rogue_fields (cls : model_class) (ctx : Context) (input : dict) : list key :=
  filter (fun k => negb (key_in k (all_fields cls ctx))) (dict_keys input).

(** One turn of the loop over the declared fields, on the pair of the
    trusted data and the errors gathered so far. *)
Definition import_field (conv : converter) (ctx : Context) (input : option dict)
    (st : dict * errors_t) (nf : string * field) : res (dict * errors_t) :=
  let '(data, errors) := st in
  let '(field_name, fld) := nf in
  let value :=
    match input with
    | Some d => scan_keys (trial_keys ctx field_name fld) d Undefined
    | None => Undefined
    end in
  let serialized_field_name :=
    match input with
    | Some _ => name_or (Field.serialized_name fld) field_name
    | None => field_name
    end in
  if is_Undefined value && dict_has data (KStr field_name) then Ok st
  else
    let value := if is_Undefined value && apply_defaults ctx then Field.default fld else value in
    let value := if is_Undefined value && init_values ctx then VNone else value in
    match input with
    | Some _ =>
        let field_context :=
          if Field.is_compound fld
          then match model_mapping (mapping ctx) with
               | Some (e :: mm) => _branch ctx (assoc (e :: mm) field_name)
               | _ => _branch ctx (Some (Mapping [] None))
               end
          else ctx in
        match conv fld value field_context with
        | Ok v => Ok (dict_set data (KStr field_name) v, errors)
        | Raise exc =>
            if is_FieldError exc || is_CompoundError exc
            then
              let errors := dict_set errors (KStr serialized_field_name) (ErrExc exc) in
              match exc with
              | DataError _ partial_data =>
                  Ok (dict_set data (KStr field_name) partial_data, errors)
              | _ => Ok (data, errors)
              end
            else Raise exc
        end
    | None => Ok (dict_set data (KStr field_name) value, errors)
    end.

Definition import_loop (cls : model_class) (instance_or_dict : value) (conv : converter)
    (trusted_data : option dict) (ctx : Context) : res dict :=
  do input <-
    match instance_or_dict with
    | VNone => Ok None
    | VDict d => Ok (Some d)
    | _ => Raise (ConversionError "Model conversion requires a model or dict")
    end;
  let data := match trusted_data with Some t => t | None => [] end in
  let errors : errors_t :=
    match input with
    | Some d =>
        if strict ctx
        then fold_left (fun e k => dict_set e k (ErrText "Rogue field"))
                       (rogue_fields cls ctx d) []
        else []
    | None => []
    end in
  do st <- foldM (import_field conv ctx input) (_fields cls) (data, errors);
  let '(data, errors) := st in
  match errors with
  | _ :: _ =>
      let partial_data := filter (fun kv => negb (is_Undefined (snd kv))) data in
      Raise (DataError errors (VDict partial_data))
  | [] => Ok data
  end.

(** ** transforms.py: the standard converters *)

Module ExportConverter.

Record t : Type := {
  primary : Z;
  secondary : Z;
  exceptions : option (list string)
}.

(** [__init__]: [not format] is the boolean, which counts as 1 or 0. *)
Definition init (format : Z) (exceptions : list string) : t :=
  {| primary := format;
     secondary := if format =? 0 then 1 else 0;
     exceptions := match exceptions with [] => None | _ => Some exceptions end |}.

Definition call (self : t) (fld : field) (v : value) (ctx : Context) : res value :=
  let format :=
    match exceptions self with
    | Some (e :: es) =>
        if existsb (fun cls => bool_decide (cls ∈ Field.typeclass_mro fld)) (e :: es)
        then secondary self
        else primary self
    | _ => primary self
    end in
  Field.export fld v format ctx.

End ExportConverter.

Definition _to_native_converter (K : constants) : ExportConverter.t :=
  ExportConverter.init (NATIVE K) [].

Definition _to_dict_converter (K : constants) : ExportConverter.t :=
  ExportConverter.init (NATIVE K) ["ModelType"].

Definition _to_primitive_converter (K : constants) : ExportConverter.t :=
  ExportConverter.init (PRIMITIVE K) [].

Module ImportConverter.

Inductive action : Type := a_convert | a_validate.

Definition method (a : action) (fld : field) : value -> Context -> res value :=
  match a with
  | a_convert => Field.convert fld
  | a_validate => Field.validate fld
  end.

Definition call (self : action) (fld : field) (v : value) (ctx : Context) : res value :=
  do _ <- Field.check_required fld v ctx;
  if in_None_Undefined v then Ok v
  else method self fld v ctx.

End ImportConverter.

Definition import_converter : converter := ImportConverter.call ImportConverter.a_convert.
Definition validation_converter : converter := ImportConverter.call ImportConverter.a_validate.

Definition convert (cls : model_class) (instance_or_dict : value)
    (trusted_data : option dict) (ctx : Context) : res dict :=
  import_loop cls instance_or_dict import_converter trusted_data ctx.

Definition to_native (K : constants) (cls : model_class) (instance_or_dict : dict)
    (ctx : Context) : res dict :=
  export_loop K cls instance_or_dict (ExportConverter.call (_to_native_converter K)) ctx.

Definition to_dict (K : constants) (cls : model_class) (instance_or_dict : dict)
    (ctx : Context) : res dict :=
  export_loop K cls instance_or_dict (ExportConverter.call (_to_dict_converter K)) ctx.

Definition to_primitive (K : constants) (cls : model_class) (instance_or_dict : dict)
    (ctx : Context) : res dict :=
  export_loop K cls instance_or_dict (ExportConverter.call (_to_primitive_converter K)) ctx.

(** ** types/compound.py *)

(** A raw input as the [isinstance] tests of the compound types see it.
    [RMapping] records whether the mapping is a [dict] and whether it has
    [__reversed__]; [RObject] is an instance of any other class, with the
    names of its class and of its ancestors, and what iterating it yields
    when it is iterable (a set, a generator, ...). *)
Inductive raw : Type :=
| RNone
| RList (l : list value)
| RSequence (l : list value)
| RText (s : string)
| RMapping (is_dict has_reversed : bool) (m : dict)
| RObject (cls : string) (bases : list string) (iter : option (list value))
| ROther (v : value).

Definition isinstance_list (r : raw) : bool :=
  match r with RList _ => true | _ => false end.

Definition isinstance_Sequence (r : raw) : bool :=
  match r with RList _ | RSequence _ | RText _ => true | _ => false end.

Definition isinstance_Mapping (r : raw) : bool :=
  match r with RMapping _ _ _ => true | _ => false end.

Definition isinstance_basestring (r : raw) : bool :=
  match r with RText _ => true | _ => false end.

Definition isinstance_Iterable (r : raw) : bool :=
  match r with
  | RList _ | RSequence _ | RText _ | RMapping _ _ _ => true
  | RObject _ _ (Some _) => true
  | _ => false
  end.

Definition isinstance_dict (r : raw) : bool :=
  match r with RMapping true _ _ => true | _ => false end.

(** Order of keys under [sorted]: integers by value, texts by code point;
    an integer and a text do not compare. *)
Definition key_lt (a b : key) : bool :=
  match a, b with
  | KInt x, KInt y => x <? y
  | KStr x, KStr y => String.ltb x y
  | _, _ => false
  end.

Definition same_kind (a b : key) : bool :=
  match a, b with
  | KInt _, KInt _ | KStr _, KStr _ => true
  | _, _ => false
  end.

(** [sorted(keys)]: a [TypeError] when the keys do not all compare. *)
Definition sorted_keys (ks : list key) : res (list key) :=
  match ks with
  | [] => Ok []
  | k :: r =>
      if forallb (same_kind k) r then Ok (sorted key_lt ks)
      else Raise (TypeError "'<' not supported")
  end.

(** What a [for] loop over a raw input yields. *)
Definition iterate (r : raw) : res (list value) :=
  match r with
  | RList l | RSequence l => Ok l
  | RText s => Ok (map VStr (Role.iter_str s))
  | RMapping _ _ m =>
      Ok (map (fun k => match k with KStr s => VStr s | KInt z => VInt z end) (dict_keys m))
  | RObject _ _ (Some l) => Ok l
  | _ => Raise (TypeError "object is not iterable")
  end.

Module ListType.

Record t : Type := {
  field : field;
  min_size : option Z;
  max_size : option Z
}.

(** [_coerce]: the input itself, or the list of a mapping's values. *)
Definition _coerce (val : raw) : res raw :=
  if isinstance_list val then Ok val
  else if isinstance_Sequence val && negb (isinstance_basestring val) then Ok val
  else if isinstance_Mapping val then
    match val with
    | RMapping _ has_reversed m =>
        if has_reversed
        then Ok (RObject "values" [] (Some (map snd m)))
        else do ks <- sorted_keys (dict_keys m);
             Ok (RList (map (fun k => match dict_get m k with
                                      | Some v => v
                                      | None => Undefined
                                      end) ks))
    | _ => Ok val
    end
  else if isinstance_basestring val then
    Raise (ConversionError "Could not interpret the value as a list")
  else if isinstance_Iterable val then Ok val
  else Raise (ConversionError "Could not interpret the value as a list").

(** The loop of [convert] over [enumerate(value)]. *)
Fixpoint convert_items (conv : converter) (self : t) (ctx : Context)
    (items : list value) (index : Z) (data : list value) (errors : errors_t)
  : res (list value * errors_t) :=
  match items with
  | [] => Ok (data, errors)
  | item :: rest =>
      match conv (field self) item ctx with
      | Ok v => convert_items conv self ctx rest (index + 1) (data ++ [v]) errors
      | Raise exc =>
          if is_BaseError exc
          then convert_items conv self ctx rest (index + 1) data
                 (dict_set errors (KInt index) (ErrExc exc))
          else Raise exc
      end
  end.

Definition convert (conv : converter) (self : t) (val : raw) (ctx : Context)
  : res (list value) :=
  do val <- _coerce val;
  do items <- iterate val;
  do r <- convert_items conv self ctx items 0 [] [];
  match snd r with
  | _ :: _ => Raise (CompoundError (snd r))
  | [] => Ok (fst r)
  end.

Definition plural (n : Z) (one many : string) : string :=
  if n =? 1 then one else many.

(** [check_length]: [None] stands for a normal return. *)
Definition check_length (self : t) (val : list value) : res unit :=
  let list_length := Z.of_nat (length val) in
  do _ <-
    match min_size self with
    | Some mn =>
        if list_length <? mn
        then Raise (ValidationError
                      ("Please provide at least " +:+ unicode (KInt mn)
                       +:+ plural mn " item." " items."))
        else Ok tt
    | None => Ok tt
    end;
  match max_size self with
  | Some mx =>
      if mx <? list_length
      then Raise (ValidationError
                    ("Please provide no more than " +:+ unicode (KInt mx)
                     +:+ plural mx " item." " items."))
      else Ok tt
  | None => Ok tt
  end.

(** The loop of [export]. *)
Fixpoint export_items (K : constants) (self : t) (format : Z) (ctx : Context)
    (level : Z) (items : list value) (data : list value) : res (list value) :=
  match items with
  | [] => Ok data
  | v :: rest =>
      do shaped <- Field.export (field self) v format ctx;
      do skip <-
        match shaped with
        | VNone => Ok (level <=? NOT_NONE K)
        | _ =>
            if Field.is_compound (field self)
            then do n <- len shaped;
                 Ok (if (n =? 0)%nat then level <=? NONEMPTY K else false)
            else Ok false
        end;
      export_items K self format ctx level rest (if skip then data else data ++ [shaped])
  end.

Definition export (K : constants) (self : t) (list_instance : list value)
    (format : Z) (ctx : Context) : res (list value) :=
  let _export_level := Field.get_export_level (field self) ctx in
  if _export_level =? DROP K then Ok []
  else export_items K self format ctx _export_level list_instance [].

End ListType.

Module DictType.

Record t : Type := {
  field : field;
  coerce_key : key -> key
}.

(** The loop of [convert] over the items of the input. *)
Fixpoint convert_items (conv : converter) (self : t) (ctx : Context)
    (items : dict) (data : dict) (errors : errors_t) : res (dict * errors_t) :=
  match items with
  | [] => Ok (data, errors)
  | (k, v) :: rest =>
      match conv (field self) v ctx with
      | Ok v' => convert_items conv self ctx rest (dict_set data (coerce_key self k) v') errors
      | Raise exc =>
          if is_BaseError exc
          then convert_items conv self ctx rest data (dict_set errors k (ErrExc exc))
          else Raise exc
      end
  end.

Definition convert (conv : converter) (self : t) (val : raw) (ctx : Context) : res dict :=
  match val with
  | RMapping true _ m =>
      do r <- convert_items conv self ctx m [] [];
      match snd r with
      | _ :: _ => Raise (CompoundError (snd r))
      | [] => Ok (fst r)
      end
  | _ => Raise (ConversionError "Only dictionaries may be used in a DictType")
  end.

Fixpoint export_items (K : constants) (self : t) (format : Z) (ctx : Context)
    (level : Z) (items : dict) (data : dict) : res dict :=
  match items with
  | [] => Ok data
  | (k, v) :: rest =>
      do shaped <- Field.export (field self) v format ctx;
      do skip <-
        match shaped with
        | VNone => Ok (level <=? NOT_NONE K)
        | _ =>
            if Field.is_compound (field self)
            then do n <- len shaped;
                 Ok (if (n =? 0)%nat then level <=? NONEMPTY K else false)
            else Ok false
        end;
      export_items K self format ctx level rest (if skip then data else dict_set data k shaped)
  end.

Definition export (K : constants) (self : t) (dict_instance : dict)
    (format : Z) (ctx : Context) : res dict :=
  let _export_level := Field.get_export_level (field self) ctx in
  if _export_level =? DROP K then Ok []
  else export_items K self format ctx _export_level dict_instance [].

End DictType.

Module PolyModelType.

(** A model class as the selection sees it: its name, its own
    [_claim_polymorphic] hook when its [__dict__] has one, and its
    registered [_subclasses]. *)
#[warnings="-register-all"]
Inductive klass : Type :=
| Klass (name : string) (hook : option (dict -> bool)) (subclasses : list klass).

Definition name (c : klass) : string := match c with Klass n _ _ => n end.
Definition hook (c : klass) : option (dict -> bool) := match c with Klass _ h _ => h end.
Definition _subclasses (c : klass) : list klass := match c with Klass _ _ s => s end.

Record t : Type := {
  model_classes : list klass;
  claim_function : option (dict -> option klass);
  allow_subclasses : bool
}.

(** The outcome of [convert]: [None], the input itself, or the call
    [model_class(value, context=context)] of the chosen class. *)
Inductive converted : Type :=
| CNone
| CSame (val : raw)
| CNew (model_class : klass) (data : dict).

Definition is_allowed_model (self : t) (model_instance : raw) : bool :=
  match model_instance with
  | RObject cls bases _ =>
      let names := map name (model_classes self) in
      if allow_subclasses self
      then existsb (fun c => bool_decide (c ∈ names)) (cls :: bases)
      else bool_decide (cls ∈ names)
  | _ => false
  end.

(** The loop of [find_model] over the candidates, on the pair of the
    fallback and the matching classes. *)
Definition scan_candidate (data : dict) (st : option klass * list klass) (cls : klass)
  : option klass * list klass :=
  let '(fallback, matching_classes) := st in
  match hook cls with
  | Some claim =>
      (fallback, if claim data then matching_classes ++ [cls] else matching_classes)
  | None =>
      (match fallback with Some f => Some f | None => Some cls end, matching_classes)
  end.

Definition candidates (self : t) : list klass :=
  if allow_subclasses self
  then flat_map (fun m => m :: _subclasses m) (model_classes self)
  else model_classes self.

Definition find_model (self : t) (data : dict) : res klass :=
  do chosen_class <-
    match claim_function self with
    | Some claim => Ok (claim data)
    | None =>
        let '(fallback, matching_classes) :=
          fold_left (scan_candidate data) (candidates self) (None, []) in
        match matching_classes, fallback with
        | [], Some f => Ok (Some f)
        | [c], _ => Ok (Some c)
        | _, _ => Raise (Exception_ "Got ambiguous input for polymorphic field")
        end
    end;
  match chosen_class with
  | Some c => Ok c
  | None => Raise (Exception_ "Input for polymorphic field did not match any model")
  end.

Definition convert (self : t) (val : raw) : res converted :=
  match val with
  | RNone => Ok CNone
  | _ =>
      if is_allowed_model self val then Ok (CSame val)
      else
        match val with
        | RMapping true _ d =>
            do model_class <- find_model self d;
            Ok (CNew model_class d)
        | _ =>
            do instanceof_msg <-
              match model_classes self with
              | _ :: _ :: _ => Ok ("one of: " +:+ join ", " (map name (model_classes self)))
              | [c] => Ok (name c)
              | [] => Raise (IndexError "tuple index out of range")
              end;
            Raise (ConversionError
                     ("Please use a mapping for this field or an instance of "
                      +:+ instanceof_msg))
        end
  end.

(** [export] hands an allowed instance to its own [export] method, which
    is the argument [instance_export]. *)
Definition export (self : t) (model_instance : raw) (instance_export : res value)
  : res value :=
  if is_allowed_model self model_instance then instance_export
  else Raise (Exception_ "Cannot export: not an allowed type").

End PolyModelType.

(** ** transforms.py: flatten and expand *)

Definition EMPTY_LIST : string := "[]".
Definition EMPTY_DICT : string := "{}".

(** [key.split(".", 1)] unpacked into two names: [None] is the
    [ValueError] of a key without a dot. *)
Fixpoint split_dot (s : string) : option (string * string) :=
  match s with
  | EmptyString => None
  | String c r =>
      if Ascii.eqb c "."%char then Some (EmptyString, r)
      else match split_dot r with
           | Some (h, t) => Some (String c h, t)
           | None => None
           end
  end.

(** [".".join(map(unicode, (prefix, key)))] *)
Definition join_prefix (prefix k : key) : key :=
  KStr (unicode prefix +:+ "." +:+ unicode k).

(** One turn of the loop of [flatten_to_dict]; [recur] is the recursive
    call on the value of this turn. *)
Definition flatten_step (prefix : option key) (ignore_none : bool)
    (recur : option key -> bool -> res dict)
    (flat_dict : dict) (k : key) (v : value) : res dict :=
  let k :=
    match prefix with
    | Some p => if key_truthy p then join_prefix p k else k
    | None => k
    end in
  let v :=
    match v with
    | VList [] => VStr EMPTY_LIST
    | VDict [] => VStr EMPTY_DICT
    | _ => v
    end in
  match v with
  | VDict _ | VList _ => do sub <- recur (Some k) true; Ok (dict_update flat_dict sub)
  | VNone => if ignore_none then Ok flat_dict else Ok (dict_set flat_dict k VNone)
  | _ => Ok (dict_set flat_dict k v)
  end.

Fixpoint flatten_to_dict (instance_or_dict : value) (prefix : option key)
    (ignore_none : bool) {struct instance_or_dict} : res dict :=
  match instance_or_dict with
  | VDict d =>
      (fix loop (items : dict) (flat_dict : dict) {struct items} : res dict :=
         match items with
         | [] => Ok flat_dict
         | (k, v) :: rest =>
             do flat_dict <- flatten_step prefix ignore_none (flatten_to_dict v) flat_dict k v;
             loop rest flat_dict
         end) d []
  | VList l =>
      (fix loop (items : list value) (i : Z) (flat_dict : dict) {struct items} : res dict :=
         match items with
         | [] => Ok flat_dict
         | v :: rest =>
             do flat_dict <-
               flatten_step prefix ignore_none (flatten_to_dict v) flat_dict (KInt i) v;
             loop rest (i + 1) flat_dict
         end) l 0 []
  | VStr s =>
      (fix loop (items : list string) (i : Z) (flat_dict : dict) {struct items} : res dict :=
         match items with
         | [] => Ok flat_dict
         | c :: rest =>
             do flat_dict <-
               flatten_step prefix ignore_none (fun _ _ => Ok []) flat_dict (KInt i) (VStr c);
             loop rest (i + 1) flat_dict
         end) (Role.iter_str s) 0 []
  | _ => Raise (TypeError "object is not iterable")
  end.

(** [context.setdefault(key, {})]: the dictionary afterwards and the value
    returned. *)
Definition setdefault (c : dict) (k : key) (dflt : value) : dict * value :=
  match dict_get c k with
  | Some v => (c, v)
  | None => (dict_set c k dflt, dflt)
  end.

(** One turn of the loop of [expand], on the pair of [expanded_dict] and of
    [context] when that is another object ([None] when [context] is
    [expanded_dict] itself); [recur] is the recursive call, which returns
    its [expanded_dict] and the state of the [expanded_data] it was given. *)
Definition expand_step (recur : dict -> option dict -> res (dict * option dict))
    (st : dict * option dict) (kv : key * value) : res (dict * option dict) :=
  let '(expanded_dict, context) := st in
  let '(k, v) := kv in
  match k with
  | KInt _ => Raise (AttributeError "'int' object has no attribute 'split'")
  | KStr s =>
      match split_dot s with
      | None =>
          let store v := Ok (dict_set expanded_dict k v, context) in
          match v with
          | VStr tok =>
              if String.eqb tok EMPTY_DICT
              then if dict_has expanded_dict k then Ok st else store (VDict [])
              else if String.eqb tok EMPTY_LIST
              then if dict_has expanded_dict k then Ok st else store (VList [])
              else store v
          | _ => store v
          end
      | Some (k, remaining) =>
          let k := KStr k in
          let c := match context with Some c => c | None => expanded_dict end in
          let '(c, current_context) := setdefault c k (VDict []) in
          let '(c, current_context) :=
            match current_context with
            | VList [] => (dict_set c k (VDict []), VDict [])
            | _ => (c, current_context)
            end in
          match current_context with
          | VDict cc =>
              do r <- recur [(KStr remaining, v)] (Some cc);
              let cc := match snd r with Some cc' => cc' | None => cc end in
              let c := dict_set c k (VDict (dict_update cc (fst r))) in
              match context with
              | Some _ => Ok (expanded_dict, Some c)
              | None => Ok (c, None)
              end
          | _ => Raise (AttributeError "object has no attribute 'update'")
          end
      end
  end.

(** [expand], with the state of the objects it mutates made explicit: the
    call returns [expanded_dict] and the state of [expanded_data]
    afterwards.  The recursion is on what is left of the key, so a [fuel]
    larger than the longest key is never used up. *)
Fixpoint expand_aux (fuel : nat) (data : dict) (expanded_data : option dict)
  : res (dict * option dict) :=
  match fuel with
  | O => Raise (RuntimeError "maximum recursion depth exceeded")
  | S fuel =>
      let context :=
        match expanded_data with
        | Some (e :: c) => Some (e :: c)
        | _ => None
        end in
      do st <- foldM (expand_step (expand_aux fuel)) data ([], context);
      Ok (fst st, match snd st with Some c => Some c | None => expanded_data end)
  end.

Definition key_size (k : key) : nat :=
  match k with KStr s => String.length s | KInt _ => 0%nat end.

Definition expand (data : dict) (expanded_data : option dict) : res dict :=
  do r <- expand_aux (S (list_max (map (fun kv => key_size (fst kv)) data))) data expanded_data;
  Ok (fst r).

(** [flatten]: [to_primitive], then [flatten_to_dict].  A context handed in
    is used as it is; otherwise one is set up from the keyword arguments,
    with the export level [DEFAULT]. *)
Definition flatten (K : constants) (cls : model_class) (instance_or_dict : dict)
    (role : option string) (raise_error_on_role : bool) (ignore_none : bool)
    (prefix : option key) (context : option Context) : res dict :=
  let ctx :=
    match context with
    | Some c => c
    | None =>
        {| mapping := Mapping [] None; partial := false; strict := false;
           init_values := false; apply_defaults := false;
           role := role; raise_error_on_role := raise_error_on_role;
           export_level := Some (DEFAULT K) |}
    end in
  do data <- to_primitive K cls instance_or_dict ctx;
  flatten_to_dict (VDict data) prefix ignore_none.

(** ** Sample schemas *)

Definition sample_constants : constants :=
  {| DROP := 0; DEFAULT := 10; NOT_NONE := 2; NONEMPTY := 1; NATIVE := 0; PRIMITIVE := 1 |}.

Definition sample_context : Context :=
  {| mapping := Mapping [] None; partial := false; strict := false;
     init_values := false; apply_defaults := false;
     role := None; raise_error_on_role := true; export_level := None |}.

(** A text field: it converts texts and exports them as they are. *)
Definition text_field (level : Z) : field :=
  {| Field.serialized_name := None;
     Field.deserialize_from := [];
     Field.is_compound := false;
     Field.default := Undefined;
     Field.typeclass_mro := ["StringType"; "BaseType"];
     Field.get_export_level := fun _ => level;
     Field.export := fun v _ _ => Ok v;
     Field.check_required := fun _ _ => Ok tt;
     Field.convert := fun v _ =>
       match v with
       | VStr _ => Ok v
       | _ => Raise (ConversionError "Couldn't interpret value as string.")
       end;
     Field.validate := fun v _ => Ok v |}.

Definition sample_model (level : Z) (rs : gmap string Role.t) (order : option (list key))
  : model_class :=
  {| __name__ := "Sample";
     _fields := [("a", text_field level); ("b", text_field level)];
     _serializables := [];
     _options := Some {| roles := rs; fields_order := order |} |}.

(** ** Vocabulary of the statements *)

(** The output key of an atom. *)
Definition atom_key (nf : string * field) : key :=
  KStr (name_or (Field.serialized_name (snd nf)) (fst nf)).

(** A key that the scan can take: true, and present in the input. *)
Definition matches (input : dict) (k : key) : bool :=
  key_truthy k && dict_has input k.

(** The context's aliases of a field. *)
Definition context_aliases (ctx : Context) (field_name : string) : list key :=
  match assoc (aliases (mapping ctx)) field_name with Some l => l | None => [] end.

(** The serialized name as a candidate key, when the field has one. *)
Definition serialized_key (fld : field) : list key :=
  match Field.serialized_name fld with
  | Some s => if String.eqb s "" then [] else [KStr s]
  | None => []
  end.

(** A field that lists the empty text among its input names. *)
Definition aliased_field : field :=
  {| Field.serialized_name := None;
     Field.deserialize_from := [KStr "x"; KStr ""];
     Field.is_compound := false;
     Field.default := Undefined;
     Field.typeclass_mro := ["IntType"; "BaseType"];
     Field.get_export_level := fun _ => 10;
     Field.export := fun v _ _ => Ok v;
     Field.check_required := fun _ _ => Ok tt;
     Field.convert := fun v _ => Ok v;
     Field.validate := fun v _ => Ok v |}.

Definition aliased_model : model_class :=
  {| __name__ := "Aliased";
     _fields := [("a", aliased_field)];
     _serializables := [];
     _options := None |}.

(** What one field of the schema yields on the input [d], given the trusted
    data [T]: nothing when the field is passed over, or the result of the
    converter on the resolved value. *)
Definition field_outcome (conv : converter) (ctx : Context) (d T : dict)
    (nf : string * field) : option (res value) :=
  let '(n, f) := nf in
  let v := scan_keys (trial_keys ctx n f) d Undefined in
  if is_Undefined v && dict_has T (KStr n) then None
  else
    let v := if is_Undefined v && apply_defaults ctx then Field.default f else v in
    let v := if is_Undefined v && init_values ctx then VNone else v in
    let field_context :=
      if Field.is_compound f
      then match model_mapping (mapping ctx) with
           | Some (e :: mm) => _branch ctx (assoc (e :: mm) n)
           | _ => _branch ctx (Some (Mapping [] None))
           end
      else ctx in
    Some (conv f v field_context).

(** The exceptions the import loop catches. *)
Definition caught (e : exn) : bool := is_FieldError e || is_CompoundError e.

(** The entry of a field in the trusted data after its turn. *)
Definition data_after (o : option (res value)) (before : option value) : option value :=
  match o with
  | Some (Ok v) => Some v
  | Some (Raise (DataError _ p)) => Some p
  | _ => before
  end.

(** A nested schema with two text fields, and a schema with a text field
    and a field holding the nested schema, whose conversion runs the
    import loop of the nested schema. *)
Definition inner_model : model_class :=
  {| __name__ := "Inner";
     _fields := [("x", text_field 10); ("y", text_field 10)];
     _serializables := [];
     _options := None |}.

Definition nested_field : field :=
  {| Field.serialized_name := None;
     Field.deserialize_from := [];
     Field.is_compound := true;
     Field.default := Undefined;
     Field.typeclass_mro := ["ModelType"; "MultiType"; "BaseType"];
     Field.get_export_level := fun _ => 10;
     Field.export := fun v _ _ => Ok v;
     Field.check_required := fun _ _ => Ok tt;
     Field.convert := fun v ctx =>
       do d <- import_loop inner_model v import_converter None ctx; Ok (VDict d);
     Field.validate := fun v _ => Ok v |}.

Definition outer_model : model_class :=
  {| __name__ := "Outer";
     _fields := [("a", text_field 10); ("b", nested_field)];
     _serializables := [];
     _options := None |}.

(** A candidate without a hook of its own. *)
Definition no_hook (c : PolyModelType.klass) : bool :=
  match PolyModelType.hook c with Some _ => false | None => true end.

(** A candidate whose hook claims the input. *)
Definition claims (data : dict) (c : PolyModelType.klass) : bool :=
  match PolyModelType.hook c with Some claim => claim data | None => false end.

Definition Cat : PolyModelType.klass :=
  PolyModelType.Klass "Cat" (Some (fun d => dict_has d (KStr "meow"))) [].

Definition Dog : PolyModelType.klass :=
  PolyModelType.Klass "Dog" (Some (fun d => dict_has d (KStr "bark"))) [].

Definition Animal : PolyModelType.klass :=
  PolyModelType.Klass "Animal" None [Cat; Dog].

Definition pets : PolyModelType.t :=
  {| PolyModelType.model_classes := [Cat; Dog];
     PolyModelType.claim_function := None;
     PolyModelType.allow_subclasses := false |}.

(** The stable sort puts the keys in ascending order. *)
Definition key_le (a b : key) : Prop := key_lt b a = false.

(** A name that can stand as one segment of a flattened key: not empty,
    and without a dot. *)
Definition good_segment (s : string) : bool :=
  negb (String.eqb s "")
  && match split_dot s with None => true | Some _ => false end.

Definition good_key (k : key) : bool :=
  match k with KStr s => good_segment s | KInt _ => false end.

(** The structures the round trip is stated for: no [None], no text equal
    to one of the two reserved tokens, and in every mapping distinct keys
    that are good segments. *)
Fixpoint well_formed (x : value) : bool :=
  match x with
  | VNone => false
  | Undefined | VInt _ => true
  | VStr s => negb (String.eqb s EMPTY_LIST) && negb (String.eqb s EMPTY_DICT)
  | VList l => forallb well_formed l
  | VDict d =>
      bool_decide (NoDup (dict_keys d))
      && forallb (fun kv => good_key (fst kv) && well_formed (snd kv)) d
  end.

(** [enumerate(l)], counting from [i]. *)
Fixpoint enumerate {A} (i : Z) (l : list A) : list (key * A) :=
  match l with
  | [] => []
  | x :: r => (KInt i, x) :: enumerate (i + 1) r
  end.

(** The structure with every list that is not empty read as the mapping
    from the decimal numerals of the positions to the items: what [expand]
    makes of the keys that [flatten_to_dict] builds for a list. *)
Fixpoint index_mapping (x : value) : value :=
  match x with
  | VList l =>
      match l with
      | [] => VList []
      | _ =>
          VDict ((fix go (l : list value) (i : Z) : dict :=
                    match l with
                    | [] => []
                    | y :: r => (KStr (unicode (KInt i)), index_mapping y) :: go r (i + 1)
                    end) l 0)
      end
  | VDict d =>
      VDict ((fix go (d : dict) : dict :=
                match d with
                | [] => []
                | (k, y) :: r => (KStr (unicode k), index_mapping y) :: go r
                end) d)
  | _ => x
  end.

(** No list of the structure has an item. *)
Fixpoint no_items (x : value) : bool :=
  match x with
  | VList l => match l with [] => true | _ => false end
  | VDict d => forallb (fun kv => no_items (snd kv)) d
  | _ => true
  end.

(** [expand(flatten_to_dict(X))] *)
Definition expand_flatten (X : value) : res value :=
  do flat <- flatten_to_dict X None true;
  do e <- expand flat None;
  Ok (VDict e).

(** What [expand] makes of a flattened value. *)
Definition decode (v : value) : value :=
  match v with
  | VStr tok =>
      if String.eqb tok EMPTY_DICT then VDict []
      else if String.eqb tok EMPTY_LIST then VList []
      else v
  | _ => v
  end.

(** The dictionary under a key, as the descent of [expand] sees it. *)
Definition sub_dict (c : dict) (k : string) : res dict :=
  match dict_get c (KStr k) with
  | None | Some (VList []) => Ok []
  | Some (VDict cc) => Ok cc
  | Some _ => Raise (AttributeError "object has no attribute 'update'")
  end.

(** Storing a flattened value at a path of segments. *)
Fixpoint put_path (q : list string) (v : value) (c : dict) : res dict :=
  match q with
  | [] => Ok c
  | [last] => Ok (dict_set c (KStr last) (decode v))
  | k :: rest =>
      do cc <- sub_dict c k;
      do cc' <- put_path rest v cc;
      Ok (dict_set c (KStr k) (VDict cc'))
  end.

Definition build (items : list (list string * value)) (c : dict) : res dict :=
  foldM (fun c qv => put_path (fst qv) (snd qv) c) items c.

Definition below (s : string) (qv : list string * value) : list string * value :=
  (s :: fst qv, snd qv).

(** The flattened entries of the children of a structure, each with the
    path of segments of its key. *)
Definition kids (rel : value -> list (list string * value)) (ch : list (key * value))
  : list (list string * value) :=
  flat_map (fun kv => map (below (unicode (fst kv))) (rel (snd kv))) ch.

Fixpoint rel (x : value) : list (list string * value) :=
  match x with
  | VNone => []
  | VList l =>
      match l with
      | [] => [([], VStr EMPTY_LIST)]
      | _ =>
          (fix go (l : list value) (i : Z) : list (list string * value) :=
             match l with
             | [] => []
             | y :: r => map (below (unicode (KInt i))) (rel y) ++ go r (i + 1)
             end) l 0
      end
  | VDict d =>
      match d with
      | [] => [([], VStr EMPTY_DICT)]
      | _ =>
          (fix go (d : dict) : list (list string * value) :=
             match d with
             | [] => []
             | (k, y) :: r => map (below (unicode k)) (rel y) ++ go r
             end) d
      end
  | _ => [([], x)]
  end.

Definition children (x : value) : list (key * value) :=
  match x with
  | VDict d => d
  | VList l => enumerate 0 l
  | _ => []
  end.

Definition is_compound_value (x : value) : bool :=
  match x with
  | VDict (_ :: _) | VList (_ :: _) => true
  | _ => false
  end.

(** The children of a structure under [index_mapping]. *)
Definition index_children (ch : list (key * value)) : dict :=
  map (fun kv => (KStr (unicode (fst kv)), index_mapping (snd kv))) ch.

(** The conditions on the children of a well-formed structure. *)
Definition segment_of (kv : key * value) : string := unicode (fst kv).

Definition children_ok (ch : list (key * value)) : Prop :=
  NoDup (map segment_of ch)
  /\ Forall (fun kv => good_segment (segment_of kv) = true /\ well_formed (snd kv) = true) ch.

(** Storing the entries of a well-formed structure below a fresh key adds
    the structure, with its lists read as mappings, under that key. *)
Definition stores_as_child (y : value) : Prop :=
  well_formed y = true ->
  forall c s, dict_get c (KStr s) = None ->
    build (map (below s) (rel y)) c = Ok (c ++ [(KStr s, index_mapping y)]).

(** The flattened entry of a path. *)
Definition enc (qv : list string * value) : key * value :=
  (KStr (join "." (fst qv)), snd qv).

Definition no_dot (s : string) : Prop := split_dot s = None.

Definition good_path (q : list string) : Prop := Forall (fun s => good_segment s = true) q.

(** The entry of a path below the path [q]. *)
Definition enc_under (q : list string) (qv : list string * value) : key * value :=
  (KStr (join "." (q ++ fst qv)), snd qv).

(** The loop of [flatten_to_dict] over the children of a structure. *)
Definition flatten_children (prefix : option key) (ignore_none : bool)
    (ch : list (key * value)) (flat_dict : dict) : res dict :=
  foldM (fun flat_dict kv =>
           flatten_step prefix ignore_none (flatten_to_dict (snd kv)) flat_dict
             (fst kv) (snd kv))
        ch flat_dict.

(** The prefix that stands for a path. *)
Definition prefix_of (q : list string) : option key :=
  match q with
  | [] => None
  | _ => Some (KStr (join "." q))
  end.

Definition flattens_under (y : value) : Prop :=
  well_formed y = true -> is_compound_value y = true ->
  forall q ignore_none, q <> [] -> good_path q ->
    flatten_to_dict y (prefix_of q) ignore_none = Ok (map (enc_under q) (rel y)).

(** The position of a key in an ordering (0 when it is not there). *)
Definition position (based_on : list key) (k : key) : nat :=
  match index based_on k with Ok i => i | Raise _ => 0%nat end.

(** The value a field takes when the input does not supply one. *)
Definition absent_value (ctx : Context) (f : field) : value :=
  let v := if apply_defaults ctx then Field.default f else Undefined in
  if is_Undefined v && init_values ctx then VNone else v.

(** The items of a list that the converter accepts, converted. *)
Fixpoint converted_items (conv : converter) (fld : field) (ctx : Context)
    (items : list value) : list value :=
  match items with
  | [] => []
  | x :: r =>
      match conv fld x ctx with
      | Ok v => v :: converted_items conv fld ctx r
      | Raise _ => converted_items conv fld ctx r
      end
  end.

(** The entry of an item in the error mapping of a compound conversion. *)
Definition item_error (conv : converter) (fld : field) (ctx : Context) (item : value)
  : option errval :=
  match conv fld item ctx with
  | Ok _ => None
  | Raise e => Some (ErrExc e)
  end.

(** Whether the export of a compound type keeps a shaped item, at the
    export level [level] of an inner field that is compound or not. *)
Definition kept_on_export (K : constants) (level : Z) (compound : bool) (shaped : value)
  : bool :=
  match shaped with
  | VNone => negb (level <=? NOT_NONE K)
  | _ =>
      if compound
      then match len shaped with
           | Ok O => negb (level <=? NONEMPTY K)
           | _ => true
           end
      else true
  end.

(** A shaped item whose length can be taken. *)
Definition sized (shaped : value) : Prop :=
  shaped = VNone \/ exists n, len shaped = Ok n.

(** A value that is neither a list nor a dictionary. *)
Definition scalar (v : value) : Prop :=
  match v with VList _ | VDict _ => False | _ => True end.

(** What [flatten_to_dict] keeps of [None]: nothing when [ignore_none]. *)
Definition none_allowed (ignore_none : bool) (v : value) : Prop :=
  ignore_none = true -> v <> VNone.

(** What the loop of [flatten_to_dict] keeps true of the flat dictionary. *)
Definition flat_ok (ignore_none : bool) (flat : dict) : Prop :=
  NoDup (dict_keys flat)
  /\ Forall (fun kv => scalar (snd kv) /\ none_allowed ignore_none (snd kv)) flat.

(** A key that [expand] stores at the top level: a text without a dot. *)
Definition undotted (k : key) : Prop :=
  exists s, k = KStr s /\ no_dot s.

(** A key that is a text. *)
Definition is_text (k : key) : Prop :=
  exists s, k = KStr s.

(** * Properties *)

(** ** Generic facts about the loops *)

Lemma foldM_app {A S} (f : S -> A -> res S) (l1 l2 : list A) (s : S) :
  foldM f (l1 ++ l2) s = bind (foldM f l1 s) (foldM f l2).
Proof.
  revert s. induction l1 as [|x l1 IH]; intros s; simpl; [reflexivity|].
  destruct (f s x); simpl; [apply IH | reflexivity].
Qed.

Lemma foldM_const {A S} (f : S -> A -> res S) (l : list A) (s : S) :
  (forall x, In x l -> f s x = Ok s) -> foldM f l s = Ok s.
Proof.
  induction l as [|x l IH]; intros H; simpl; [reflexivity|].
  rewrite (H x (or_introl eq_refl)). simpl. apply IH.
  intros y Hy. apply H. right. exact Hy.
Qed.

Lemma bind_Ok_inv {A B} (r : res A) (k : A -> res B) (b : B) :
  bind r k = Ok b -> exists a, r = Ok a /\ k a = Ok b.
Proof. destruct r as [a|e]; simpl; intros H; [eauto | discriminate H]. Qed.

(** ** Dictionaries *)

Section dict_facts.
Context {A : Type}.
Implicit Types (d : list (key * A)) (k : key) (v : A).

Lemma dict_get_set_eq d k v : dict_get (dict_set d k v) k = Some v.
Proof.
  induction d as [|[k' v'] d IH]; simpl.
  - destruct (decide (k = k)); congruence.
  - destruct (decide (k' = k)) as [->|Hne]; simpl.
    + destruct (decide (k = k)); congruence.
    + destruct (decide (k' = k)); [contradiction | exact IH].
Qed.

Lemma dict_get_set_ne d k k' v : k <> k' -> dict_get (dict_set d k v) k' = dict_get d k'.
Proof.
  intros Hne. induction d as [|[k0 v0] d IH]; simpl.
  - destruct (decide (k = k')); [contradiction | reflexivity].
  - destruct (decide (k0 = k)) as [->|Hne0]; simpl.
    + destruct (decide (k = k')); [contradiction | reflexivity].
    + destruct (decide (k0 = k')); [reflexivity | exact IH].
Qed.

Lemma dict_get_None d k : dict_get d k = None <-> ~ In k (dict_keys d).
Proof.
  induction d as [|[k' v'] d IH]; simpl; [tauto|].
  destruct (decide (k' = k)) as [->|Hne].
  - split; [discriminate | intros H; exfalso; apply H; left; reflexivity].
  - rewrite IH. tauto.
Qed.

Lemma dict_get_Some_In d k v : dict_get d k = Some v -> In (k, v) d.
Proof.
  induction d as [|[k' v'] d IH]; simpl; [discriminate|].
  destruct (decide (k' = k)) as [->|Hne].
  - intros [= ->]. left. reflexivity.
  - intros H. right. apply IH, H.
Qed.

Lemma dict_get_In d k v : NoDup (dict_keys d) -> In (k, v) d -> dict_get d k = Some v.
Proof.
  induction d as [|[k' v'] d IH]; simpl; [tauto|].
  intros Hnd [Heq|Hin].
  - injection Heq as -> ->. destruct (decide (k = k)); congruence.
  - apply NoDup_cons in Hnd as [Hk Hnd].
    destruct (decide (k' = k)) as [->|Hne].
    + exfalso. apply Hk. apply list_elem_of_In. apply (in_map fst) in Hin. exact Hin.
    + apply IH; assumption.
Qed.

Lemma dict_set_fresh d k v : dict_get d k = None -> dict_set d k v = d ++ [(k, v)].
Proof.
  induction d as [|[k' v'] d IH]; simpl; [reflexivity|].
  destruct (decide (k' = k)); [discriminate|].
  intros H. rewrite IH by exact H. reflexivity.
Qed.

Lemma dict_keys_set_In d k v k' :
  In k' (dict_keys (dict_set d k v)) <-> k' = k \/ In k' (dict_keys d).
Proof.
  induction d as [|[k0 v0] d IH]; simpl.
  - intuition congruence.
  - destruct (decide (k0 = k)) as [->|Hne]; simpl.
    + intuition congruence.
    + rewrite IH. intuition congruence.
Qed.

Lemma dict_set_NoDup d k v : NoDup (dict_keys d) -> NoDup (dict_keys (dict_set d k v)).
Proof.
  induction d as [|[k0 v0] d IH]; simpl; intros Hnd.
  - apply NoDup_cons. split; [apply not_elem_of_nil | apply NoDup_nil; exact I].
  - apply NoDup_cons in Hnd as [Hk Hnd].
    destruct (decide (k0 = k)) as [->|Hne]; simpl.
    + apply NoDup_cons. split; assumption.
    + apply NoDup_cons. split; [|apply IH, Hnd].
      rewrite list_elem_of_In. rewrite list_elem_of_In in Hk.
      fold (dict_keys (dict_set d k v)). rewrite dict_keys_set_In.
      intros [->|Hin]; [congruence | exact (Hk Hin)].
Qed.

Lemma dict_get_app d1 d2 k :
  dict_get (d1 ++ d2) k
  = match dict_get d1 k with Some v => Some v | None => dict_get d2 k end.
Proof.
  induction d1 as [|[k' v'] d1 IH]; simpl; [reflexivity|].
  destruct (decide (k' = k)); [reflexivity | exact IH].
Qed.

Lemma dict_get_perm d d' k :
  NoDup (dict_keys d) -> Permutation d d' -> dict_get d' k = dict_get d k.
Proof.
  intros Hnd Hp.
  assert (Hnd' : NoDup (dict_keys d')).
  { unfold dict_keys. rewrite <- Hp. exact Hnd. }
  destruct (dict_get d k) as [v|] eqn:E.
  - apply dict_get_In; [exact Hnd'|].
    apply dict_get_Some_In in E. apply list_elem_of_In. rewrite <- Hp.
    apply list_elem_of_In. exact E.
  - apply dict_get_None. apply dict_get_None in E. intros Hin. apply E.
    apply list_elem_of_In. apply list_elem_of_In in Hin. unfold dict_keys.
    rewrite Hp. exact Hin.
Qed.

End dict_facts.

(** The stable sort returns a rearrangement of its input. *)
Lemma insert_sorted_perm {A} (lt : A -> A -> bool) (x : A) (l : list A) :
  Permutation (insert_sorted lt x l) (x :: l).
Proof.
  induction l as [|y l IH]; simpl; [reflexivity|].
  destruct (lt x y); [reflexivity|].
  rewrite IH. apply perm_swap.
Qed.

Lemma sorted_perm {A} (lt : A -> A -> bool) (l : list A) : Permutation (sorted lt l) l.
Proof.
  unfold sorted.
  enough (H : forall acc, Permutation (fold_left (fun acc x => insert_sorted lt x acc) l acc)
                            (acc ++ l)) by apply (H []).
  induction l as [|x l IH]; intros acc; simpl.
  - rewrite app_nil_r. reflexivity.
  - rewrite IH, insert_sorted_perm. apply Permutation_middle.
Qed.

Lemma mapM_Ok_map {A B} (f : A -> res B) (g : B -> A) (l : list A) (l' : list B) :
  (forall x y, f x = Ok y -> g y = x) -> mapM f l = Ok l' -> map g l' = l.
Proof.
  intros Hfg. revert l'. induction l as [|x l IH]; intros l'; simpl.
  - intros [= <-]. reflexivity.
  - intros H. apply bind_Ok_inv in H as (y & Hy & H).
    apply bind_Ok_inv in H as (ys & Hys & H). injection H as <-.
    simpl. rewrite (Hfg _ _ Hy), (IH _ Hys). reflexivity.
Qed.

Lemma sort_dict_perm (dct : dict) (based_on : list key) (out : dict) :
  sort_dict dct based_on = Ok out -> Permutation out dct.
Proof.
  unfold sort_dict. intros H. apply bind_Ok_inv in H as (dec & Hdec & H).
  injection H as <-.
  unfold sorted_by. rewrite (Permutation_map snd (sorted_perm _ dec)).
  erewrite mapM_Ok_map; [reflexivity| |exact Hdec].
  intros x y Hy. apply bind_Ok_inv in Hy as (i & _ & Hy). injection Hy as <-. reflexivity.
Qed.

(** ** Facts about roles *)

Lemma Role_init_fields (f : Role.filter) (s : gset string) :
  Role.init f (elements s) = Role.Role f s.
Proof. unfold Role.init. f_equal. apply list_to_set_elements_L. Qed.

Lemma Role_whitelist_empty_skips (name : string) (v : value) :
  Role.call (Role.whitelist []) name v = true.
Proof. reflexivity. Qed.

Lemma Role_blacklist_empty_keeps (name : string) (v : value) :
  Role.call (Role.blacklist []) name v = false.
Proof. reflexivity. Qed.

Lemma Role_name_inj (f g : Role.filter) : Role.__name__ f = Role.__name__ g -> f = g.
Proof. destruct f, g; simpl; intros H; try reflexivity; discriminate H. Qed.

Lemma Role_eq_spec (r1 r2 : Role.t) :
  Role.__eq__ r1 r2 = true
  <-> Role.function r1 = Role.function r2 /\ Role.fields r1 = Role.fields r2.
Proof.
  unfold Role.__eq__. rewrite andb_true_iff, !bool_decide_eq_true.
  split; intros [H1 H2]; split; auto.
  - apply Role_name_inj, H1.
  - rewrite H1. reflexivity.
Qed.

Lemma Role_alloc_spec (st : Role.store) (r : Role.t) (st' : Role.store) (new : nat) :
  Role.alloc st r = (st', new) ->
  st' !! new = Some r
  /\ st !! new = None
  /\ forall l r0, st !! l = Some r0 -> st' !! l = Some r0.
Proof.
  unfold Role.alloc. intros H. injection H as <- <-. repeat split.
  - rewrite lookup_app_r by lia. rewrite Nat.sub_diag. reflexivity.
  - apply lookup_ge_None. lia.
  - intros l r0 Hl. rewrite lookup_app_l; [exact Hl|].
    apply lookup_lt_Some in Hl. exact Hl.
Qed.

(** C1 (counterexample).  The claim says that a whitelist built from no
    name reports, for any field, that it is not to be skipped.  On the
    field ["a"] it reports that the field is to be skipped, and the export
    of a record under that role is empty. *)
Lemma C1_counterexample :
  Role.call (Role.whitelist []) "a" (VStr "Ada") <> false
  /\ export_loop sample_constants
       (sample_model 10 {[ "public" := Role.whitelist [] ]} None)
       [(KStr "a", VStr "Ada"); (KStr "b", VStr "Lovelace")]
       (ExportConverter.call (_to_primitive_converter sample_constants))
       {| mapping := Mapping [] None; partial := false; strict := false;
          init_values := false; apply_defaults := false;
          role := Some "public"; raise_error_on_role := true; export_level := None |}
     = Ok [].
Proof. split; [discriminate | vm_compute; reflexivity]. Qed.

(** C1 (amended).  A whitelist role built from no name skips every field:
    applied to any name and value it answers true, so the export of any
    schema under such a role has no entry. *)
Theorem C1_empty_whitelist_skips_every_field :
  (forall name v, Role.call (Role.whitelist []) name v = true)
  /\ (forall K cls inst conv ctx o r,
        _options cls = Some o ->
        role ctx = Some r ->
        roles o !! r = Some (Role.whitelist []) ->
        export_loop K cls inst conv ctx = Ok []).
Proof.
  split; [exact Role_whitelist_empty_skips|].
  intros K cls inst conv ctx o r Ho Hr Hrole.
  unfold export_loop, resolve_role. rewrite Ho, Hr, Hrole. simpl.
  rewrite foldM_const.
  - simpl. destruct (fields_order o) as [[|k order]|]; reflexivity.
  - intros [[n f] v] _. unfold export_atom.
    rewrite Role_whitelist_empty_skips. reflexivity.
Qed.

Lemma C1_empty_whitelist_witness :
  export_loop sample_constants
    (sample_model 10 {[ "public" := Role.whitelist [] ]} (Some [KStr "b"; KStr "a"]))
    [(KStr "a", VStr "Ada")]
    (ExportConverter.call (_to_primitive_converter sample_constants))
    {| mapping := Mapping [] None; partial := false; strict := false;
       init_values := false; apply_defaults := false;
       role := Some "public"; raise_error_on_role := true; export_level := None |}
  = Ok [].
Proof.
  apply (proj2 C1_empty_whitelist_skips_every_field) with
    (o := {| roles := {[ "public" := Role.whitelist [] ]};
             fields_order := Some [KStr "b"; KStr "a"] |}) (r := "public").
  - reflexivity.
  - reflexivity.
  - vm_compute. reflexivity.
Defined.

(** C9.  Union and difference allocate a new Role that has the filter of
    the original and the updated set of names, and leave every Role of the
    store, the original among them, as it was; two Roles are equal exactly
    when their filters and their sets of names are; so
    [whitelist("a","b") + "c" == whitelist("a","b","c")] and
    [blacklist("a") - "a" == blacklist()]. *)
Theorem C9_role_algebra :
  (forall st self other r,
     st !! self = Some r ->
     exists st' new,
       Role.__add__ st self other = Some (st', new)
       /\ new <> self
       /\ (forall l r0, st !! l = Some r0 -> st' !! l = Some r0)
       /\ st' !! new
          = Some (Role.Role (Role.function r) (Role.fields r ∪ list_to_set other)))
  /\ (forall st self other r,
        st !! self = Some r ->
        exists st' new,
          Role.__sub__ st self other = Some (st', new)
          /\ new <> self
          /\ (forall l r0, st !! l = Some r0 -> st' !! l = Some r0)
          /\ st' !! new
             = Some (Role.Role (Role.function r) (Role.fields r ∖ list_to_set other)))
  /\ (forall r1 r2,
        Role.__eq__ r1 r2 = true
        <-> Role.function r1 = Role.function r2 /\ Role.fields r1 = Role.fields r2)
  /\ (exists st' new r',
        Role.__add__ [Role.whitelist ["a"; "b"]] 0 (Role.iter_str "c") = Some (st', new)
        /\ st' !! new = Some r'
        /\ Role.__eq__ r' (Role.whitelist ["a"; "b"; "c"]) = true)
  /\ (exists st' new r',
        Role.__sub__ [Role.blacklist ["a"]] 0 (Role.iter_str "a") = Some (st', new)
        /\ st' !! new = Some r'
        /\ Role.__eq__ r' (Role.blacklist []) = true).
Proof.
  split; [|split; [|split; [exact Role_eq_spec|split]]].
  - intros st self other r Hr. unfold Role.__add__. rewrite Hr.
    unfold Role._from_iterable. rewrite Role_init_fields.
    destruct (Role.alloc st _) as [st' new] eqn:Ha.
    apply Role_alloc_spec in Ha as (Hnew & Hfresh & Hkeep).
    exists st', new. repeat split; auto. intros ->. congruence.
  - intros st self other r Hr. unfold Role.__sub__. rewrite Hr.
    unfold Role._from_iterable. rewrite Role_init_fields.
    destruct (Role.alloc st _) as [st' new] eqn:Ha.
    apply Role_alloc_spec in Ha as (Hnew & Hfresh & Hkeep).
    exists st', new. repeat split; auto. intros ->. congruence.
  - eexists _, _, _. split; [reflexivity|]. split; [reflexivity|].
    apply Role_eq_spec. split; [reflexivity|].
    unfold Role._from_iterable. rewrite Role_init_fields. simpl. set_solver.
  - eexists _, _, _. split; [reflexivity|]. split; [reflexivity|].
    apply Role_eq_spec. split; [reflexivity|].
    unfold Role._from_iterable. rewrite Role_init_fields. simpl. set_solver.
Qed.

Lemma C9_role_algebra_witness :
  exists st' new,
    Role.__add__ [Role.whitelist ["a"; "b"]] 0 ["c"] = Some (st', new)
    /\ new <> 0%nat
    /\ (forall l r0, [Role.whitelist ["a"; "b"]] !! l = Some r0 -> st' !! l = Some r0)
    /\ st' !! new
       = Some (Role.Role (Role.function (Role.whitelist ["a"; "b"]))
                 (Role.fields (Role.whitelist ["a"; "b"]) ∪ list_to_set ["c"])).
Proof.
  apply (proj1 C9_role_algebra [Role.whitelist ["a"; "b"]] 0%nat ["c"]
           (Role.whitelist ["a"; "b"])).
  reflexivity.
Defined.

(** ** The export loop *)

Lemma export_atom_cases K conv ctx g data n f v data' :
  export_atom K conv ctx g data (n, f, v) = Ok data' ->
  data' = data \/ exists v', data' = dict_set data (atom_key (n, f)) v'.
Proof.
  unfold export_atom, atom_key. simpl.
  destruct (Role.call g n v); [intros [= <-]; left; reflexivity|].
  destruct (_ =? DROP K); [intros [= <-]; left; reflexivity|].
  intros H. apply bind_Ok_inv in H as (v1 & _ & H).
  apply bind_Ok_inv in H as (skip & _ & H).
  destruct skip; injection H as <-; [left; reflexivity | right; eauto].
Qed.

Lemma export_fold_inv K conv ctx g (l : list (string * field * value)) data out :
  foldM (export_atom K conv ctx g) l data = Ok out ->
  (NoDup (dict_keys data) -> NoDup (dict_keys out))
  /\ forall k, Forall (fun a => atom_key (fst a) <> k) l -> dict_get out k = dict_get data k.
Proof.
  revert data. induction l as [|[[n f] v] l IH]; intros data; simpl.
  - intros [= <-]. split; [tauto | reflexivity].
  - intros H. apply bind_Ok_inv in H as (data1 & H1 & H).
    apply IH in H as [Hnd Hget]. apply export_atom_cases in H1.
    split.
    + intros Hd. apply Hnd. destruct H1 as [->|[v' ->]]; [exact Hd|].
      apply dict_set_NoDup, Hd.
    + intros k Hk. apply Forall_cons in Hk as [Hk Hl]. simpl in Hk.
      rewrite (Hget k Hl). destruct H1 as [->|[v' ->]]; [reflexivity|].
      apply dict_get_set_ne. exact Hk.
Qed.

Lemma export_loop_get K cls inst conv ctx out g data k :
  resolve_role cls ctx = Ok g ->
  foldM (export_atom K conv ctx g) (atoms cls inst) [] = Ok data ->
  export_loop K cls inst conv ctx = Ok out ->
  dict_get out k = dict_get data k.
Proof.
  intros Hg Hfold. unfold export_loop. rewrite Hg. simpl. rewrite Hfold. simpl.
  assert (Hnd : NoDup (dict_keys data)).
  { apply (proj1 (export_fold_inv _ _ _ _ _ _ _ Hfold)). apply NoDup_nil. exact I. }
  destruct (match _options cls with Some o => fields_order o | None => None end)
    as [[|k0 order]|].
  - intros [= <-]. reflexivity.
  - intros H. apply sort_dict_perm in H. apply dict_get_perm; [exact Hnd|].
    symmetry. exact H.
  - intros [= <-]. reflexivity.
Qed.

(** The entry of one field in the output, when no other atom shares its
    output key. *)
Lemma export_loop_field K cls inst conv ctx out g l1 l2 n f :
  _fields cls ++ _serializables cls = l1 ++ (n, f) :: l2 ->
  Forall (fun nf => atom_key nf <> atom_key (n, f)) (l1 ++ l2) ->
  resolve_role cls ctx = Ok g ->
  export_loop K cls inst conv ctx = Ok out ->
  exists data1,
    export_atom K conv ctx g []
      (n, f, match dict_get inst (KStr n) with Some v => v | None => Undefined end)
    = Ok data1
    /\ dict_get out (atom_key (n, f)) = dict_get data1 (atom_key (n, f)).
Proof.
  intros Hsplit Huniq Hg Hout.
  assert (Hout' := Hout). unfold export_loop in Hout'. rewrite Hg in Hout'. simpl in Hout'.
  apply bind_Ok_inv in Hout' as (data & Hfold & _).
  rewrite (export_loop_get _ _ _ _ _ _ _ _ _ Hg Hfold Hout).
  unfold atoms in Hfold. rewrite Hsplit, map_app in Hfold. simpl in Hfold.
  rewrite foldM_app in Hfold. apply bind_Ok_inv in Hfold as (d1 & H1 & Hfold).
  simpl in Hfold. apply bind_Ok_inv in Hfold as (d2 & H2 & H3).
  apply Forall_app in Huniq as [Hu1 Hu2].
  apply export_fold_inv in H1 as [_ H1]. apply export_fold_inv in H3 as [_ H3].
  set (k := atom_key (n, f)) in *.
  assert (Hd1 : dict_get d1 k = None).
  { rewrite H1; [reflexivity|]. apply Forall_map. simpl.
    eapply Forall_impl; [exact Hu1|]. intros a Ha. exact Ha. }
  rewrite H3.
  2:{ apply Forall_map. simpl. eapply Forall_impl; [exact Hu2|]. intros a Ha. exact Ha. }
  set (v := match dict_get inst (KStr n) with Some v => v | None => Undefined end) in *.
  unfold export_atom in H2 |- *. simpl in H2 |- *. fold k in H2 |- *.
  destruct (Role.call g n v).
  { injection H2 as <-. eexists. split; [reflexivity|]. rewrite Hd1. reflexivity. }
  destruct (_ =? DROP K).
  { injection H2 as <-. eexists. split; [reflexivity|]. rewrite Hd1. reflexivity. }
  apply bind_Ok_inv in H2 as (v1 & Hv1 & H2). rewrite Hv1. simpl.
  apply bind_Ok_inv in H2 as (skip & Hskip & H2). rewrite Hskip. simpl.
  destruct skip; injection H2 as <-; eexists; (split; [reflexivity|]).
  - rewrite Hd1. reflexivity.
  - unfold k, atom_key. simpl. rewrite dict_get_set_eq.
    destruct (decide _); congruence.
Qed.

(** C2.  After the converter has run, a turn of the export loop drops an
    [Undefined] result at a level not above [DEFAULT], a null result at a
    level not above [NOT_NONE] and an empty result of a compound field at
    a level not above [NONEMPTY], and writes an [Undefined] that is kept
    as null.  For a field at level [NOT_NONE] the output of [to_primitive]
    has no entry when the value is [None], and has the entry when the
    value is the empty text. *)
Theorem C2_export_level_filtering :
  (forall K conv ctx g data n f v v',
     Role.call g n v = false ->
     Field.get_export_level f ctx <> DROP K ->
     (if in_None_Undefined v then Ok v else conv f v ctx) = Ok v' ->
     let level := Field.get_export_level f ctx in
     let turn := export_atom K conv ctx g data (n, f, v) in
     (v' = Undefined -> level <= DEFAULT K -> turn = Ok data)
     /\ (v' = VNone -> level <= NOT_NONE K -> turn = Ok data)
     /\ (Field.is_compound f = true -> v' = VList [] \/ v' = VDict [] ->
         level <= NONEMPTY K -> turn = Ok data)
     /\ (v' = Undefined -> DEFAULT K < level ->
         turn = Ok (dict_set data (atom_key (n, f)) VNone)))
  /\ (forall K cls inst ctx l1 l2 n f out,
        _fields cls ++ _serializables cls = l1 ++ (n, f) :: l2 ->
        Forall (fun nf => atom_key nf <> atom_key (n, f)) (l1 ++ l2) ->
        Field.get_export_level f ctx = NOT_NONE K ->
        dict_get inst (KStr n) = Some VNone ->
        to_primitive K cls inst ctx = Ok out ->
        dict_get out (atom_key (n, f)) = None)
  /\ (forall K cls inst ctx l1 l2 n f g out,
        _fields cls ++ _serializables cls = l1 ++ (n, f) :: l2 ->
        Forall (fun nf => atom_key nf <> atom_key (n, f)) (l1 ++ l2) ->
        Field.get_export_level f ctx = NOT_NONE K ->
        NOT_NONE K <> DROP K ->
        resolve_role cls ctx = Ok g ->
        Role.call g n (VStr "") = false ->
        Field.is_compound f = false ->
        Field.export f (VStr "") (PRIMITIVE K) ctx = Ok (VStr "") ->
        dict_get inst (KStr n) = Some (VStr "") ->
        to_primitive K cls inst ctx = Ok out ->
        dict_get out (atom_key (n, f)) = Some (VStr "")).
Proof.
  split; [|split].
  - intros K conv ctx g data n f v v' Hg Hdrop Hv level turn.
    subst level turn. unfold export_atom. simpl. rewrite Hg.
    apply Z.eqb_neq in Hdrop. rewrite Hdrop, Hv. simpl.
    repeat split.
    + intros -> Hle. simpl. apply Z.leb_le in Hle. rewrite Hle. reflexivity.
    + intros -> Hle. simpl. apply Z.leb_le in Hle. rewrite Hle. reflexivity.
    + intros Hc [-> | ->] Hle; simpl; rewrite Hc; simpl;
        apply Z.leb_le in Hle; rewrite Hle; reflexivity.
    + intros -> Hlt. simpl. apply Z.leb_gt in Hlt. rewrite Hlt. reflexivity.
  - intros K cls inst ctx l1 l2 n f out Hsplit Huniq Hlevel Hv Hout.
    unfold to_primitive in Hout. assert (Hout' := Hout).
    unfold export_loop in Hout'. apply bind_Ok_inv in Hout' as (g & Hg & _).
    destruct (export_loop_field _ _ _ _ _ _ _ _ _ _ _ Hsplit Huniq Hg Hout)
      as (data1 & Hturn & ->).
    rewrite Hv in Hturn. unfold export_atom in Hturn. simpl in Hturn.
    destruct (Role.call g n VNone); [injection Hturn as <-; reflexivity|].
    destruct (_ =? DROP K); [injection Hturn as <-; reflexivity|].
    simpl in Hturn. rewrite Hlevel, Z.leb_refl in Hturn.
    injection Hturn as <-. reflexivity.
  - intros K cls inst ctx l1 l2 n f g out Hsplit Huniq Hlevel Hnd Hg Hcall Hc Hexp Hv Hout.
    unfold to_primitive in Hout.
    destruct (export_loop_field _ _ _ _ _ _ _ _ _ _ _ Hsplit Huniq Hg Hout)
      as (data1 & Hturn & ->).
    rewrite Hv in Hturn. unfold export_atom in Hturn. simpl in Hturn.
    rewrite Hcall, Hlevel in Hturn. apply Z.eqb_neq in Hnd. rewrite Hnd in Hturn.
    unfold ExportConverter.call in Hturn. simpl in Hturn.
    rewrite Hexp in Hturn. simpl in Hturn. rewrite Hc in Hturn. simpl in Hturn.
    injection Hturn as <-. apply (dict_get_set_eq []).
Qed.

Lemma C2_export_level_filtering_witness :
  dict_get [(KStr "b", VStr "")] (atom_key ("a", text_field 2)) = None.
Proof.
  apply (proj1 (proj2 C2_export_level_filtering) sample_constants
           (sample_model 2 ∅ None)
           [(KStr "a", VNone); (KStr "b", VStr "")]
           sample_context [] [("b", text_field 2)] "a" (text_field 2)).
  - reflexivity.
  - repeat constructor. discriminate.
  - reflexivity.
  - reflexivity.
  - vm_compute. reflexivity.
Defined.

(** C7.  With an output key that the ordering does not list, [sort_dict]
    looks up [-1] in the ordering, which raises [ValueError]: the export
    fails instead of placing the key in a bucket of its own. *)
Theorem C7_unlisted_key_raises :
  sort_dict [(KStr "a", VStr "Ada"); (KStr "b", VStr "Lovelace")] [KStr "a"]
  = Raise (ValueError "is not in list")
  /\ export_loop sample_constants (sample_model 10 ∅ (Some [KStr "a"]))
       [(KStr "a", VStr "Ada"); (KStr "b", VStr "Lovelace")]
       (ExportConverter.call (_to_primitive_converter sample_constants))
       sample_context
     = Raise (ValueError "is not in list").
Proof. split; vm_compute; reflexivity. Qed.

(** ** The import loop *)

Lemma scan_keys_app keys1 keys2 input v0 :
  scan_keys (keys1 ++ keys2) input v0 = scan_keys keys2 input (scan_keys keys1 input v0).
Proof. unfold scan_keys. apply fold_left_app. Qed.

Lemma scan_keys_no_match keys input v0 :
  Forall (fun k => matches input k = false) keys -> scan_keys keys input v0 = v0.
Proof.
  revert v0. induction keys as [|k keys IH]; intros v0 H; [reflexivity|].
  apply Forall_cons in H as [Hk H]. unfold scan_keys. simpl. fold (scan_keys keys input).
  unfold matches, dict_has in Hk.
  destruct (key_truthy k); [|apply IH, H].
  destruct (dict_get input k); [discriminate Hk | apply IH, H].
Qed.

Lemma scan_keys_last_match keys1 k keys2 input v0 x :
  key_truthy k = true ->
  dict_get input k = Some x ->
  Forall (fun k' => matches input k' = false) keys2 ->
  scan_keys (keys1 ++ k :: keys2) input v0 = x.
Proof.
  intros Hk Hx H2. rewrite scan_keys_app.
  change (k :: keys2) with ([k] ++ keys2). rewrite scan_keys_app.
  rewrite (scan_keys_no_match keys2) by exact H2.
  unfold scan_keys. simpl. rewrite Hk, Hx. reflexivity.
Qed.

Lemma trial_keys_order ctx n f :
  trial_keys ctx n f
  = Field.deserialize_from f ++ context_aliases ctx n ++ serialized_key f ++ [KStr n].
Proof.
  unfold trial_keys, context_aliases, serialized_key, name_truthy.
  destruct (Field.serialized_name f) as [s|]; [|reflexivity].
  destruct (String.eqb s ""); reflexivity.
Qed.

(** C3 (counterexample).  The candidate keys of the field are ["x"], [""]
    and ["a"], in this order; the input has ["x"] and [""], so the last
    candidate present in the input is [""], with value 2.  The loop
    resolves the value 1 of ["x"]: the empty key is passed over. *)
Lemma C3_counterexample :
  trial_keys sample_context "a" aliased_field = [KStr "x"; KStr ""; KStr "a"]
  /\ dict_get [(KStr "x", VInt 1); (KStr "", VInt 2)] (KStr "") = Some (VInt 2)
  /\ dict_get [(KStr "x", VInt 1); (KStr "", VInt 2)] (KStr "a") = (None : option value)
  /\ import_loop aliased_model (VDict [(KStr "x", VInt 1); (KStr "", VInt 2)])
       import_converter None sample_context
     = Ok [(KStr "a", VInt 1)].
Proof. repeat split; vm_compute; reflexivity. Qed.

(** C3 (amended).  The candidate keys of a field are its
    [deserialize_from] names in listed order, then the context's aliases,
    then the serialized name, then the field name; every candidate that is
    true (not the empty text, not 0) and present in the input overwrites
    the value found before, so the last such candidate wins, and the value
    stays [Undefined] when there is none. *)
Theorem C3_last_matching_key_wins :
  forall ctx n f input,
    let candidates :=
      Field.deserialize_from f ++ context_aliases ctx n ++ serialized_key f ++ [KStr n] in
    trial_keys ctx n f = candidates
    /\ (forall keys1 k keys2 x,
          candidates = keys1 ++ k :: keys2 ->
          key_truthy k = true ->
          dict_get input k = Some x ->
          Forall (fun k' => matches input k' = false) keys2 ->
          scan_keys (trial_keys ctx n f) input Undefined = x)
    /\ (Forall (fun k' => matches input k' = false) candidates ->
        scan_keys (trial_keys ctx n f) input Undefined = Undefined)
    /\ (forall cls x,
          _fields cls = [(n, f)] ->
          strict ctx = false ->
          scan_keys (trial_keys ctx n f) input Undefined = x ->
          x <> Undefined ->
          import_loop cls (VDict input) (fun _ v _ => Ok v) None ctx
          = Ok [(KStr n, x)]).
Proof.
  intros ctx n f input candidates. subst candidates.
  rewrite trial_keys_order. split; [reflexivity|]. split; [|split].
  - intros keys1 k keys2 x -> Hk Hx H2. apply scan_keys_last_match; assumption.
  - intros H. apply scan_keys_no_match, H.
  - intros cls x Hf Hs Hx Hne. unfold import_loop. simpl. rewrite Hf, Hs. simpl.
    rewrite trial_keys_order, Hx.
    assert (Hu : is_Undefined x = false) by (destruct x; simpl; congruence).
    rewrite Hu. simpl. rewrite Hu. reflexivity.
Qed.

Lemma C3_last_matching_key_wins_witness :
  scan_keys (trial_keys sample_context "a" aliased_field)
    [(KStr "x", VInt 1); (KStr "a", VInt 3)] Undefined = VInt 3.
Proof.
  apply (proj1 (proj2 (C3_last_matching_key_wins sample_context "a" aliased_field
                         [(KStr "x", VInt 1); (KStr "a", VInt 3)]))
           [KStr "x"; KStr ""] (KStr "a") [] (VInt 3)).
  - reflexivity.
  - reflexivity.
  - reflexivity.
  - constructor.
Defined.

Lemma import_field_outcome conv ctx d T data errors n f :
  dict_get data (KStr n) = dict_get T (KStr n) ->
  import_field conv ctx (Some d) (data, errors) (n, f)
  = match field_outcome conv ctx d T (n, f) with
    | None => Ok (data, errors)
    | Some (Ok v) => Ok (dict_set data (KStr n) v, errors)
    | Some (Raise e) =>
        if caught e
        then Ok (match e with
                 | DataError _ p => dict_set data (KStr n) p
                 | _ => data
                 end,
                 dict_set errors (atom_key (n, f)) (ErrExc e))
        else Raise e
    end.
Proof.
  intros Hd. unfold import_field, field_outcome, dict_has, caught, atom_key.
  rewrite Hd. simpl.
  destruct (is_Undefined _ && _); [reflexivity|].
  destruct (conv f _ _) as [v|e]; [reflexivity|].
  destruct (is_FieldError e || is_CompoundError e); [|reflexivity].
  destruct e; reflexivity.
Qed.

Lemma import_fold_spec conv ctx d T (F : list (string * field)) :
  NoDup (map fst F) ->
  (forall nf e, In nf F -> field_outcome conv ctx d T nf = Some (Raise e) -> caught e = true) ->
  forall data errors,
    (forall nf, In nf F -> dict_get data (KStr (fst nf)) = dict_get T (KStr (fst nf))) ->
    exists data' errors',
      foldM (import_field conv ctx (Some d)) F (data, errors) = Ok (data', errors')
      /\ (forall nf, In nf F ->
            dict_get data' (KStr (fst nf))
            = data_after (field_outcome conv ctx d T nf) (dict_get T (KStr (fst nf))))
      /\ (forall k, ~ In k (map (fun nf => KStr (fst nf)) F) ->
            dict_get data' k = dict_get data k)
      /\ (forall nf e, In nf F -> field_outcome conv ctx d T nf = Some (Raise e) ->
            dict_get errors' (atom_key nf) <> None)
      /\ (forall k, dict_get errors k <> None -> dict_get errors' k <> None)
      /\ (forall k x, dict_get errors' k = Some x ->
            dict_get errors k = Some x
            \/ exists nf e, In nf F /\ field_outcome conv ctx d T nf = Some (Raise e)
                            /\ k = atom_key nf /\ x = ErrExc e).
Proof.
  induction F as [|[n f] F IH]; intros Hnd Hcaught data errors Hdata.
  - exists data, errors. simpl. repeat split; intros; tauto.
  - apply NoDup_cons in Hnd as [Hn Hnd]. rewrite list_elem_of_In in Hn.
    cbn [foldM]. rewrite (import_field_outcome _ _ _ T) by (apply (Hdata (n, f)); left; reflexivity).
    assert (Hfresh : forall nf, In nf F -> KStr n <> KStr (fst nf)).
    { intros nf Hin [= Heq]. apply Hn. rewrite Heq. exact (in_map fst F nf Hin). }
    assert (Hrest : forall data1 : dict,
               (forall k, k <> KStr n -> dict_get data1 k = dict_get data k) ->
               forall nf, In nf F ->
                 dict_get data1 (KStr (fst nf)) = dict_get T (KStr (fst nf))).
    { intros data1 H1 nf Hin. rewrite H1.
      - apply Hdata. right. exact Hin.
      - intros Heq. apply (Hfresh nf Hin). symmetry. exact Heq. }
    assert (Hc : forall nf e, In nf F ->
               field_outcome conv ctx d T nf = Some (Raise e) -> caught e = true).
    { intros nf e Hin. apply Hcaught. right. exact Hin. }
    destruct (field_outcome conv ctx d T (n, f)) as [[v|e]|] eqn:Ho.
    + (* converted *)
      destruct (IH Hnd Hc (dict_set data (KStr n) v) errors)
        as (data' & errors' & Hfold & Hget & Hother & Herr & Hmono & Horigin).
      { apply Hrest. intros k Hk. apply dict_get_set_ne. congruence. }
      exists data', errors'. simpl. split; [exact Hfold|].
      split; [|split; [|split; [|split]]].
      * intros nf [<-|Hin]; [|apply Hget, Hin]. cbn [fst]. rewrite Ho. cbn [data_after].
        rewrite Hother; [apply dict_get_set_eq|].
        intros Hin. apply in_map_iff in Hin as (nf & Heq & Hin).
        apply (Hfresh nf Hin). symmetry. exact Heq.
      * intros k Hk. rewrite Hother by tauto. apply dict_get_set_ne. tauto.
      * intros nf e [<-|Hin]; [rewrite Ho; discriminate | apply Herr, Hin].
      * exact Hmono.
      * intros k x H. destruct (Horigin k x H) as [?|(nf & e & Hin & ?)]; [tauto|].
        right. exists nf, e. tauto.
    + (* failed *)
      rewrite (Hcaught (n, f) e (or_introl eq_refl) Ho).
      destruct (IH Hnd Hc
                  (match e with DataError _ p => dict_set data (KStr n) p | _ => data end)
                  (dict_set errors (atom_key (n, f)) (ErrExc e)))
        as (data' & errors' & Hfold & Hget & Hother & Herr & Hmono & Horigin).
      { apply Hrest. intros k Hk. destruct e; try reflexivity.
        apply dict_get_set_ne. congruence. }
      exists data', errors'. simpl. split; [exact Hfold|].
      split; [|split; [|split; [|split]]].
      * intros nf [<-|Hin]; [|apply Hget, Hin]. cbn [fst]. rewrite Ho.
        rewrite Hother.
        2:{ intros Hin. apply in_map_iff in Hin as (nf & Heq & Hin).
            apply (Hfresh nf Hin). symmetry. exact Heq. }
        destruct e; simpl; try (apply (Hdata (n, f)); left; reflexivity).
        apply dict_get_set_eq.
      * intros k Hk. rewrite Hother by tauto. destruct e; try reflexivity.
        apply dict_get_set_ne. tauto.
      * intros nf e' [<-|Hin]; [|apply Herr, Hin]. intros _.
        apply Hmono. rewrite dict_get_set_eq. discriminate.
      * intros k Hk. apply Hmono.
        destruct (decide (atom_key (n, f) = k)) as [<-|Hne].
        -- rewrite dict_get_set_eq. discriminate.
        -- rewrite dict_get_set_ne by exact Hne. exact Hk.
      * intros k x H. destruct (Horigin k x H) as [H0|(nf & e' & Hin & ?)].
        -- destruct (decide (atom_key (n, f) = k)) as [<-|Hne].
           ++ rewrite dict_get_set_eq in H0. injection H0 as <-.
              right. exists (n, f), e. tauto.
           ++ rewrite dict_get_set_ne in H0 by exact Hne. left. exact H0.
        -- right. exists nf, e'. tauto.
    + (* passed over *)
      destruct (IH Hnd Hc data errors)
        as (data' & errors' & Hfold & Hget & Hother & Herr & Hmono & Horigin).
      { apply Hrest. reflexivity. }
      exists data', errors'. simpl. split; [exact Hfold|].
      split; [|split; [|split; [|split]]].
      * intros nf [<-|Hin]; [|apply Hget, Hin]. cbn [fst]. rewrite Ho. cbn [data_after].
        rewrite Hother; [apply (Hdata (n, f)); left; reflexivity|].
        intros Hin. apply in_map_iff in Hin as (nf & Heq & Hin).
        apply (Hfresh nf Hin). symmetry. exact Heq.
      * intros k Hk. apply Hother. tauto.
      * intros nf e [<-|Hin]; [rewrite Ho; discriminate | apply Herr, Hin].
      * exact Hmono.
      * intros k x H. destruct (Horigin k x H) as [?|(nf & e & Hin & ?)]; [tauto|].
        right. exists nf, e. tauto.
Qed.

Lemma rogue_errors_get (ks : list key) (acc : errors_t) k x :
  dict_get (fold_left (fun e k => dict_set e k (ErrText "Rogue field")) ks acc) k = Some x ->
  dict_get acc k = Some x \/ (In k ks /\ x = ErrText "Rogue field").
Proof.
  revert acc. induction ks as [|k0 ks IH]; intros acc; simpl; [tauto|].
  intros H. apply IH in H as [H|[H ->]]; [|tauto].
  destruct (decide (k0 = k)) as [->|Hne].
  - rewrite dict_get_set_eq in H. injection H as <-. tauto.
  - rewrite dict_get_set_ne in H by exact Hne. tauto.
Qed.

(** C4 (counterexample).  The field ["b"] fails, with a [DataError] of the
    nested schema; its entry is in the error mapping, and the partial data
    of the call has an entry for ["b"] all the same, beside the one of the
    field ["a"] that was converted. *)
Lemma C4_counterexample :
  import_loop outer_model
    (VDict [(KStr "a", VStr "ok");
            (KStr "b", VDict [(KStr "x", VInt 5); (KStr "y", VStr "fine")])])
    import_converter None sample_context
  = Raise (DataError
             [(KStr "b",
               ErrExc (DataError
                         [(KStr "x",
                           ErrExc (ConversionError "Couldn't interpret value as string."))]
                         (VDict [(KStr "y", VStr "fine")])))]
             (VDict [(KStr "a", VStr "ok");
                     (KStr "b", VDict [(KStr "y", VStr "fine")])])).
Proof. vm_compute. reflexivity. Qed.

(** C4 (amended).  When at least one field fails conversion, and every
    failure is one the loop catches, the call fails with a [DataError].
    Its error mapping has an entry under the serialized name of every
    failed field, and nothing but these and the rogue keys of strict mode.
    Its partial data are the entries of the trusted data that are not
    [Undefined], where the trusted data hold, for every field, the value it
    was converted to, or the partial data of its own [DataError] when it
    failed with one, or else what was handed in as trusted; so a failure
    never keeps another field from being converted.  Importing
    [{"a": "ok", "b": 5}] against two text fields gives the partial data
    [{"a": "ok"}] and an error under ["b"] only. *)
Theorem C4_import_failure_aggregates :
  (forall cls d conv trusted ctx,
     let T := match trusted with Some t => t | None => [] end in
     let outcome := field_outcome conv ctx d T in
     NoDup (map fst (_fields cls)) ->
     (forall nf e, In nf (_fields cls) -> outcome nf = Some (Raise e) -> caught e = true) ->
     (exists nf e, In nf (_fields cls) /\ outcome nf = Some (Raise e)) ->
     exists errors data,
       import_loop cls (VDict d) conv trusted ctx
       = Raise (DataError errors
                  (VDict (filter (fun kv => negb (is_Undefined (snd kv))) data)))
       /\ (forall nf e, In nf (_fields cls) -> outcome nf = Some (Raise e) ->
             dict_get errors (atom_key nf) <> None)
       /\ (forall k x, dict_get errors k = Some x ->
             (strict ctx = true /\ In k (rogue_fields cls ctx d) /\ x = ErrText "Rogue field")
             \/ exists nf e, In nf (_fields cls) /\ outcome nf = Some (Raise e)
                             /\ k = atom_key nf /\ x = ErrExc e)
       /\ (forall nf, In nf (_fields cls) ->
             dict_get data (KStr (fst nf))
             = data_after (outcome nf) (dict_get T (KStr (fst nf))))
       /\ (forall k, ~ In k (map (fun nf => KStr (fst nf)) (_fields cls)) ->
             dict_get data k = dict_get T k))
  /\ import_loop (sample_model 10 ∅ None)
       (VDict [(KStr "a", VStr "ok"); (KStr "b", VInt 5)])
       import_converter None sample_context
     = Raise (DataError
                [(KStr "b", ErrExc (ConversionError "Couldn't interpret value as string."))]
                (VDict [(KStr "a", VStr "ok")])).
Proof.
  split; [|vm_compute; reflexivity].
  intros cls d conv trusted ctx T outcome Hnd Hcaught (nf0 & e0 & Hin0 & Ho0).
  unfold import_loop. cbn [bind].
  fold T.
  set (errors0 := if strict ctx
                  then fold_left (fun e k => dict_set e k (ErrText "Rogue field"))
                                 (rogue_fields cls ctx d) []
                  else [] : errors_t).
  destruct (import_fold_spec conv ctx d T (_fields cls) Hnd Hcaught T errors0)
    as (data & errors & Hfold & Hget & Hother & Herr & Hmono & Horigin);
    [reflexivity|].
  rewrite Hfold. cbn [bind].
  destruct errors as [|e errors'] eqn:Herrors.
  { exfalso. apply (Herr nf0 e0 Hin0 Ho0). reflexivity. }
  rewrite <- Herrors in *. clear Herrors e errors'.
  exists errors, data. split; [reflexivity|].
  split; [exact Herr|]. split; [|split; assumption].
  intros k x H. destruct (Horigin k x H) as [H0|H0]; [left | right; exact H0].
  subst errors0. destruct (strict ctx); [|discriminate H0].
  apply rogue_errors_get in H0 as [H0|[H0 ->]]; [discriminate H0 | tauto].
Qed.

Lemma C4_import_failure_aggregates_witness :
  exists errors data,
    import_loop (sample_model 10 ∅ None)
      (VDict [(KStr "a", VStr "ok"); (KStr "b", VInt 5)])
      import_converter (Some [(KStr "c", VInt 0)]) sample_context
    = Raise (DataError errors
               (VDict (filter (fun kv => negb (is_Undefined (snd kv))) data)))
    /\ dict_get errors (KStr "b") <> None
    /\ dict_get data (KStr "a") = Some (VStr "ok")
    /\ dict_get data (KStr "c") = Some (VInt 0).
Proof.
  destruct (proj1 C4_import_failure_aggregates (sample_model 10 ∅ None)
              [(KStr "a", VStr "ok"); (KStr "b", VInt 5)]
              import_converter (Some [(KStr "c", VInt 0)]) sample_context)
    as (errors & data & Hloop & Herr & _ & Hdata & Hother).
  - apply (bool_decide_unpack _). vm_compute. exact I.
  - intros nf e [<-|[<-|[]]]; vm_compute; intros [= Heq]; rewrite <- Heq; reflexivity.
  - exists ("b", text_field 10), (ConversionError "Couldn't interpret value as string.").
    split; [right; left; reflexivity | vm_compute; reflexivity].
  - exists errors, data. split; [exact Hloop|]. split; [|split].
    + apply (Herr ("b", text_field 10)
               (ConversionError "Couldn't interpret value as string."));
        [right; left; reflexivity | vm_compute; reflexivity].
    + apply (Hdata ("a", text_field 10)). left. reflexivity.
    + apply Hother. simpl. intros [H|[H|[]]]; discriminate H.
Defined.

(** ** Compound types *)

Lemma scan_candidates data (cands : list PolyModelType.klass) fallback matching :
  fold_left (PolyModelType.scan_candidate data) cands (fallback, matching)
  = (match fallback with Some f => Some f | None => List.find no_hook cands end,
     matching ++ List.filter (claims data) cands).
Proof.
  revert fallback matching. induction cands as [|c cands IH]; intros fallback matching.
  - simpl. rewrite app_nil_r. destruct fallback; reflexivity.
  - cbn [fold_left List.find List.filter].
    destruct (PolyModelType.scan_candidate data (fallback, matching) c) as [fb m] eqn:E.
    rewrite IH. unfold PolyModelType.scan_candidate in E. unfold no_hook, claims.
    destruct (PolyModelType.hook c) as [claim|]; injection E as <- <-.
    + destruct (claim data); [|reflexivity].
      rewrite <- app_assoc. reflexivity.
    + destruct fallback; reflexivity.
Qed.

(** C5.  Without a claim function, the fallback is the first candidate, in
    enumeration order, that has no hook; the class chosen is the only
    candidate whose hook matches when there is exactly one, the fallback
    when no hook matches and there is a fallback; the selection fails when
    no hook matches and there is no fallback, and when more than one hook
    matches. *)
Theorem C5_find_model :
  forall self data,
    PolyModelType.claim_function self = None ->
    let fallback := List.find no_hook (PolyModelType.candidates self) in
    let matching := List.filter (claims data) (PolyModelType.candidates self) in
    (forall c, matching = [c] -> PolyModelType.find_model self data = Ok c)
    /\ (forall f, matching = [] -> fallback = Some f ->
        PolyModelType.find_model self data = Ok f)
    /\ (matching = [] -> fallback = None ->
        exists msg, PolyModelType.find_model self data = Raise (Exception_ msg))
    /\ ((2 <= length matching)%nat ->
        exists msg, PolyModelType.find_model self data = Raise (Exception_ msg)).
Proof.
  intros self data Hclaim fallback matching. subst fallback matching.
  unfold PolyModelType.find_model. rewrite Hclaim, scan_candidates. simpl.
  repeat split.
  - intros c ->. reflexivity.
  - intros f -> ->. reflexivity.
  - intros -> ->. eexists. reflexivity.
  - intros Hlen.
    destruct (List.filter _ _) as [|c1 [|c2 l]]; simpl in Hlen; try lia.
    eexists. reflexivity.
Qed.

Lemma C5_find_model_witness :
  PolyModelType.find_model pets [(KStr "bark", VStr "woof")] = Ok Dog.
Proof.
  apply (proj1 (C5_find_model pets [(KStr "bark", VStr "woof")] eq_refl)).
  reflexivity.
Defined.

Lemma key_lt_asym a b : key_lt a b = true -> key_lt b a = false.
Proof.
  destruct a as [x|x], b as [y|y]; simpl; try discriminate.
  - intros H. apply Z.ltb_lt in H. apply Z.ltb_ge. lia.
  - unfold String.ltb. rewrite (String.compare_antisym y x).
    destruct (String.compare x y); simpl; congruence.
Qed.

Section stable_sort.
Context {A : Type} (lt : A -> A -> bool).
Hypothesis lt_asym : forall x y, lt x y = true -> lt y x = false.

Lemma insert_sorted_Sorted (x : A) (l : list A) :
  Sorted (fun a b => lt b a = false) l ->
  Sorted (fun a b => lt b a = false) (insert_sorted lt x l).
Proof.
  induction l as [|y l IH]; intros Hs; simpl.
  - repeat constructor.
  - destruct (lt x y) eqn:E.
    + constructor; [exact Hs|]. constructor. apply lt_asym, E.
    + apply Sorted_inv in Hs as [Hs Hhd]. constructor; [apply IH, Hs|].
      destruct l as [|z l]; simpl.
      * constructor. exact E.
      * destruct (lt x z); constructor; [exact E|].
        apply HdRel_inv in Hhd. exact Hhd.
Qed.

Lemma sorted_Sorted (l : list A) : Sorted (fun a b => lt b a = false) (sorted lt l).
Proof.
  unfold sorted.
  enough (H : forall acc, Sorted (fun a b => lt b a = false) acc ->
                Sorted (fun a b => lt b a = false)
                  (fold_left (fun acc x => insert_sorted lt x acc) l acc))
    by (apply H; constructor).
  induction l as [|x l IH]; intros acc Hacc; simpl; [exact Hacc|].
  apply IH, insert_sorted_Sorted, Hacc.
Qed.

End stable_sort.

(** C8.  [_coerce] returns a sequence that is not a text as it is; for a
    mapping with [__reversed__], its values in insertion order; for a
    mapping without, its values in ascending order of the keys; an
    iterable that is none of these and not a text as it is; and fails with
    a conversion error on a text and on anything else. *)
Theorem C8_list_coercion :
  (forall v, isinstance_Sequence v = true -> isinstance_basestring v = false ->
             ListType._coerce v = Ok v)
  /\ (forall is_dict m,
        exists r, ListType._coerce (RMapping is_dict true m) = Ok r
                  /\ iterate r = Ok (map snd m))
  /\ (forall is_dict m ks,
        sorted_keys (dict_keys m) = Ok ks ->
        ListType._coerce (RMapping is_dict false m)
        = Ok (RList (map (fun k => match dict_get m k with
                                   | Some x => x
                                   | None => Undefined
                                   end) ks))
        /\ Permutation ks (dict_keys m)
        /\ Sorted key_le ks)
  /\ (forall v, isinstance_Sequence v = false -> isinstance_Mapping v = false ->
                isinstance_Iterable v = true -> ListType._coerce v = Ok v)
  /\ (forall v, isinstance_basestring v = true
                \/ (isinstance_Sequence v = false /\ isinstance_Mapping v = false
                    /\ isinstance_Iterable v = false) ->
                exists msg, ListType._coerce v = Raise (ConversionError msg)).
Proof.
  split; [|split; [|split; [|split]]].
  - intros v Hs Ht. destruct v; try discriminate; reflexivity.
  - intros is_dict m. eexists. split; reflexivity.
  - intros is_dict m ks Hks. unfold ListType._coerce. simpl. rewrite Hks. simpl.
    split; [reflexivity|].
    unfold sorted_keys in Hks. destruct (dict_keys m) as [|k r].
    + injection Hks as <-. split; [reflexivity | constructor].
    + destruct (forallb _ _); [|discriminate]. injection Hks as <-.
      split; [apply sorted_perm | apply (sorted_Sorted key_lt key_lt_asym)].
  - intros v Hs Hm Hi. destruct v as [| | | | | cls bases [l|] |]; try discriminate.
    reflexivity.
  - intros v [Ht|(Hs & Hm & Hi)].
    + destruct v; try discriminate. eexists. reflexivity.
    + destruct v as [| | | | | cls bases [l|] |]; try discriminate;
        eexists; reflexivity.
Qed.

Lemma C8_list_coercion_witness :
  ListType._coerce (RMapping true false [(KStr "b", VInt 2); (KStr "a", VInt 1)])
  = Ok (RList [VInt 1; VInt 2]).
Proof.
  apply (proj1 (proj1 (proj2 (proj2 C8_list_coercion)) true
                  [(KStr "b", VInt 2); (KStr "a", VInt 1)] [KStr "a"; KStr "b"]
                  eq_refl)).
Defined.

(** C10.  [PolyModelType.convert] returns [None] for the input [None],
    whatever the candidate classes and the claim function: the selection
    of a model is not consulted. *)
Theorem C10_poly_convert_none :
  forall self, PolyModelType.convert self RNone = Ok PolyModelType.CNone.
Proof. intros self. reflexivity. Qed.

(** ** Flatten and expand *)

(** A few runs. *)
Example flatten_example :
  flatten_to_dict
    (VDict [(KStr "s", VStr "jms was hrrr");
            (KStr "l", VList [VStr "jms was here"; VStr "here"; VStr "and here"])])
    None true
  = Ok [(KStr "s", VStr "jms was hrrr"); (KStr "l.0", VStr "jms was here");
        (KStr "l.1", VStr "here"); (KStr "l.2", VStr "and here")].
Proof. vm_compute. reflexivity. Qed.

Example expand_example :
  expand [(KStr "a.b.c", VInt 1); (KStr "a.b.d", VInt 2); (KStr "a.e", VStr "{}");
          (KStr "f", VStr "[]")] None
  = Ok [(KStr "a", VDict [(KStr "b", VDict [(KStr "c", VInt 1); (KStr "d", VInt 2)]);
                          (KStr "e", VDict [])]);
        (KStr "f", VList [])].
Proof. vm_compute. reflexivity. Qed.

(** *** Texts *)

Lemma split_dot_append (k r : string) :
  split_dot k = None -> split_dot (k +:+ "." +:+ r) = Some (k, r).
Proof.
  induction k as [|c k IH]; simpl; intros H; [reflexivity|].
  destruct (Ascii.eqb c "."); [discriminate H|].
  destruct (split_dot k) as [[h t]|]; [discriminate H|].
  rewrite IH by reflexivity. reflexivity.
Qed.

Lemma split_dot_length (s h t : string) :
  split_dot s = Some (h, t) -> (String.length t < String.length s)%nat.
Proof.
  revert h. induction s as [|c s IH]; simpl; intros h; [discriminate|].
  destruct (Ascii.eqb c ".").
  - intros [= _ <-]. lia.
  - destruct (split_dot s) as [[h' t']|]; [|discriminate].
    intros [= _ <-]. specialize (IH h' eq_refl). lia.
Qed.

Lemma digits_no_dot (d : Decimal.uint) : split_dot (NilEmpty.string_of_uint d) = None.
Proof. induction d; simpl; try rewrite IHd; reflexivity. Qed.

Lemma digits_not_empty (d : Decimal.uint) :
  d <> Decimal.Nil -> NilEmpty.string_of_uint d <> "".
Proof. destruct d; simpl; intros H; congruence. Qed.

Lemma to_int_not_nil (z : Z) :
  Z.to_int z <> Decimal.Pos Decimal.Nil /\ Z.to_int z <> Decimal.Neg Decimal.Nil.
Proof.
  destruct z as [|p|p]; simpl; split; try discriminate;
    intros [= H]; exact (DecimalPos.Unsigned.to_uint_nonnil p H).
Qed.

Lemma unicode_int_good (z : Z) : good_segment (unicode (KInt z)) = true.
Proof.
  unfold good_segment, unicode.
  assert (H : forall d, d <> Decimal.Nil ->
            NilZero.string_of_uint d = NilEmpty.string_of_uint d).
  { intros d Hd. destruct d; try reflexivity. congruence. }
  destruct z as [|p|p]; simpl; try reflexivity.
  - rewrite H by apply DecimalPos.Unsigned.to_uint_nonnil.
    rewrite digits_no_dot.
    destruct (NilEmpty.string_of_uint (Pos.to_uint p)) eqn:E; [|reflexivity].
    exfalso. revert E. apply digits_not_empty, DecimalPos.Unsigned.to_uint_nonnil.
  - rewrite H by apply DecimalPos.Unsigned.to_uint_nonnil.
    rewrite digits_no_dot. reflexivity.
Qed.

Lemma unicode_int_inj (a b : Z) : unicode (KInt a) = unicode (KInt b) -> a = b.
Proof.
  unfold unicode. intros H. apply DecimalZ.to_int_inj.
  apply (f_equal NilZero.int_of_string) in H.
  destruct (to_int_not_nil a) as [Ha1 Ha2], (to_int_not_nil b) as [Hb1 Hb2].
  rewrite !NilZero.isi in H by assumption. congruence.
Qed.

Lemma good_segment_spec (s : string) :
  good_segment s = true <-> s <> "" /\ split_dot s = None.
Proof.
  unfold good_segment. rewrite andb_true_iff, negb_true_iff, String.eqb_neq.
  destruct (split_dot s) as [[h t]|]; intuition congruence.
Qed.

(** *** The entries of a structure *)

Lemma rel_dict_go (d : dict) :
  (fix go (d : dict) : list (list string * value) :=
     match d with
     | [] => []
     | (k, y) :: r => map (below (unicode k)) (rel y) ++ go r
     end) d = kids rel d.
Proof. induction d as [|[k y] d IH]; simpl; [reflexivity|]. rewrite IH. reflexivity. Qed.

Lemma rel_list_go (l : list value) (i : Z) :
  (fix go (l : list value) (i : Z) : list (list string * value) :=
     match l with
     | [] => []
     | y :: r => map (below (unicode (KInt i))) (rel y) ++ go r (i + 1)
     end) l i = kids rel (enumerate i l).
Proof.
  revert i. induction l as [|y l IH]; intros i; simpl; [reflexivity|].
  rewrite IH. reflexivity.
Qed.

Lemma rel_compound (x : value) :
  is_compound_value x = true -> rel x = kids rel (children x).
Proof.
  destruct x as [| | | |[|y l]|[|kv d]]; try discriminate; intros _.
  - change (rel (VList (y :: l))) with
      ((fix go (l : list value) (i : Z) : list (list string * value) :=
          match l with
          | [] => []
          | y :: r => map (below (unicode (KInt i))) (rel y) ++ go r (i + 1)
          end) (y :: l) 0).
    apply rel_list_go.
  - change (rel (VDict (kv :: d))) with
      ((fix go (d : dict) : list (list string * value) :=
          match d with
          | [] => []
          | (k, y) :: r => map (below (unicode k)) (rel y) ++ go r
          end) (kv :: d)).
    apply rel_dict_go.
Qed.

Lemma index_mapping_dict (d : dict) : index_mapping (VDict d) = VDict (index_children d).
Proof.
  cbn [index_mapping]. f_equal.
  induction d as [|[k y] d IH]; simpl; [reflexivity|].
  rewrite IH. reflexivity.
Qed.

Lemma index_mapping_list_go (l : list value) (i : Z) :
  (fix go (l : list value) (i : Z) : dict :=
     match l with
     | [] => []
     | y :: r => (KStr (unicode (KInt i)), index_mapping y) :: go r (i + 1)
     end) l i = index_children (enumerate i l).
Proof.
  revert i. induction l as [|y l IH]; intros i; simpl; [reflexivity|].
  rewrite IH. reflexivity.
Qed.

Lemma index_mapping_compound (x : value) :
  is_compound_value x = true -> index_mapping x = VDict (index_children (children x)).
Proof.
  destruct x as [| | | |[|y l]|[|kv d]]; try discriminate; intros _.
  - cbn [index_mapping children]. f_equal. exact (index_mapping_list_go (y :: l) 0).
  - apply index_mapping_dict.
Qed.

Lemma rel_leaf (x : value) :
  is_compound_value x = false -> well_formed x = true ->
  exists v, rel x = [([], v)] /\ decode v = index_mapping x
            /\ match v with VDict _ | VList _ | VNone => False | _ => True end
            /\ (v = x \/ (x = VList [] /\ v = VStr EMPTY_LIST)
                \/ (x = VDict [] /\ v = VStr EMPTY_DICT)).
Proof.
  destruct x as [| |z|s|[|y l]|[|kv d]]; try discriminate; intros _ Hwf.
  - exists Undefined. repeat split; auto.
  - exists (VInt z). repeat split; auto.
  - exists (VStr s). cbn [well_formed] in Hwf.
    apply andb_true_iff in Hwf as [H1 H2]. apply negb_true_iff in H1, H2.
    repeat split; auto. cbn [decode index_mapping]. rewrite H2, H1. reflexivity.
  - exists (VStr EMPTY_LIST). repeat split; auto.
  - exists (VStr EMPTY_DICT). repeat split; auto.
Qed.

Lemma enumerate_segments_fresh {A} (l : list A) (i j : Z) :
  j < i -> ~ In (unicode (KInt j)) (map (fun kv => unicode (fst kv)) (enumerate i l)).
Proof.
  revert i. induction l as [|x l IH]; intros i Hij; simpl; [tauto|].
  intros [H|H].
  - apply unicode_int_inj in H. lia.
  - revert H. apply IH. lia.
Qed.

Lemma children_ok_of_wf (x : value) :
  well_formed x = true -> children_ok (children x).
Proof.
  destruct x as [| | | |l|d]; try (intros _; split; constructor).
  - cbn [well_formed children]. intros H. unfold children_ok.
    enough (G : forall i, NoDup (map segment_of (enumerate i l))
                /\ Forall (fun kv => good_segment (segment_of kv) = true
                                    /\ well_formed (snd kv) = true) (enumerate i l))
      by apply G.
    induction l as [|y l IH]; intros i; [split; constructor|].
    cbn [forallb] in H. apply andb_true_iff in H as [Hy Hl].
    destruct (IH Hl (i + 1)) as [IH1 IH2]. cbn [enumerate map]. split.
    + apply NoDup_cons. split; [|exact IH1]. rewrite list_elem_of_In.
      apply enumerate_segments_fresh. lia.
    + constructor; [|exact IH2]. split; [apply unicode_int_good | exact Hy].
  - cbn [well_formed children]. intros H. apply andb_true_iff in H as [Hnd Hall].
    apply bool_decide_eq_true in Hnd. unfold children_ok.
    assert (Hkeys : Forall (fun kv => good_key (fst kv) = true
                              /\ well_formed (snd kv) = true) d).
    { apply Forall_forall. intros kv Hin. apply list_elem_of_In in Hin.
      rewrite forallb_forall in Hall. apply andb_true_iff, Hall, Hin. }
    clear Hall. split.
    + induction d as [|[k y] d IH]; [constructor|].
      apply Forall_cons in Hkeys as [[Hk _] Hkeys].
      cbn [dict_keys map] in Hnd. apply NoDup_cons in Hnd as [Hfresh Hnd].
      cbn [map]. apply NoDup_cons. split; [|apply IH; assumption].
      intros Hin%list_elem_of_In. apply Hfresh. apply list_elem_of_In.
      apply in_map_iff in Hin as ([k' y'] & Heq & Hin).
      apply in_map_iff. exists (k', y'). split; [|exact Hin].
      rewrite Forall_forall in Hkeys. apply list_elem_of_In in Hin as Hin'.
      destruct (Hkeys _ Hin') as [Hk' _].
      unfold segment_of in Heq. cbn [fst] in *.
      destruct k as [|s], k' as [|s']; try discriminate. simpl in Heq. congruence.
    + eapply Forall_impl; [exact Hkeys|]. intros [k y] [Hk Hy]. split; [|exact Hy].
      destruct k as [|s]; [discriminate | exact Hk].
Qed.

Lemma rel_not_empty (x : value) : well_formed x = true -> rel x <> [].
Proof.
  induction x as [| | | |l IH|d IH] using value_ind'; try discriminate.
  - intros Hwf. destruct l as [|y l]; [discriminate|].
    rewrite rel_compound by reflexivity. cbn [children enumerate kids flat_map snd].
    apply Forall_cons in IH as [IHy _]. cbn [well_formed forallb] in Hwf.
    apply andb_true_iff in Hwf as [Hy _]. specialize (IHy Hy).
    destruct (rel y); [congruence | discriminate].
  - intros Hwf. destruct d as [|[k y] d]; [discriminate|].
    rewrite rel_compound by reflexivity. cbn [children kids flat_map snd].
    apply Forall_cons in IH as [IHy _]. cbn [well_formed forallb] in Hwf.
    apply andb_true_iff in Hwf as [_ Hwf]. apply andb_true_iff in Hwf as [Hy _].
    apply andb_true_iff in Hy as [_ Hy]. specialize (IHy Hy). cbn [snd] in IHy.
    destruct (rel y); [congruence | discriminate].
Qed.

(** *** Storing at paths *)

Lemma dict_set_set {A} (c : list (key * A)) k (a b : A) :
  dict_set (dict_set c k a) k b = dict_set c k b.
Proof.
  induction c as [|[k0 v0] c IH]; simpl.
  - destruct (decide (k = k)); congruence.
  - destruct (decide (k0 = k)) as [->|Hne]; simpl.
    + destruct (decide (k = k)); congruence.
    + destruct (decide (k0 = k)); [contradiction|]. rewrite IH. reflexivity.
Qed.

Lemma dict_set_same {A} (c : list (key * A)) k (a : A) :
  dict_get c k = Some a -> dict_set c k a = c.
Proof.
  induction c as [|[k0 v0] c IH]; simpl; [discriminate|].
  destruct (decide (k0 = k)) as [->|Hne].
  - intros [= ->]. reflexivity.
  - intros H. rewrite IH by exact H. reflexivity.
Qed.

Lemma build_app items1 items2 c :
  build (items1 ++ items2) c = bind (build items1 c) (build items2).
Proof. apply foldM_app. Qed.

Lemma put_path_descend k q v c :
  q <> [] ->
  put_path (k :: q) v c
  = (do cc <- sub_dict c k; do cc' <- put_path q v cc; Ok (dict_set c (KStr k) (VDict cc'))).
Proof. destruct q; [congruence | reflexivity]. Qed.

(** Storing below a key is storing in the dictionary under that key. *)
Lemma build_below k items : forall c cc,
  Forall (fun qv => fst qv <> []) items ->
  (items <> [] /\ sub_dict c k = Ok cc) \/ dict_get c (KStr k) = Some (VDict cc) ->
  build (map (below k) items) c
  = (do D <- build items cc; Ok (dict_set c (KStr k) (VDict D))).
Proof.
  induction items as [|[q v] items IH]; intros c cc Hq Hc.
  - destruct Hc as [[H _]|Hc]; [congruence|].
    simpl. rewrite dict_set_same by exact Hc. reflexivity.
  - apply Forall_cons in Hq as [Hq Hitems]. cbn [fst] in Hq.
    assert (Hsub : sub_dict c k = Ok cc).
    { destruct Hc as [[_ H]|Hc]; [exact H|]. unfold sub_dict. rewrite Hc. reflexivity. }
    unfold build. cbn [map foldM below fst snd].
    rewrite put_path_descend by exact Hq. rewrite Hsub. cbn [bind].
    destruct (put_path q v cc) as [cc'|e]; [|reflexivity]. cbn [bind].
    fold (build (map (below k) items) (dict_set c (KStr k) (VDict cc'))).
    fold (build items cc').
    rewrite (IH _ cc' Hitems) by (right; apply dict_get_set_eq).
    destruct (build items cc') as [D|e]; [|reflexivity]. cbn [bind].
    rewrite dict_set_set. reflexivity.
Qed.

Lemma kids_paths rel0 ch : Forall (fun qv => fst qv <> []) (kids rel0 ch).
Proof.
  apply Forall_forall. intros qv Hin. apply list_elem_of_In in Hin.
  unfold kids in Hin. apply in_flat_map in Hin as (kv & _ & Hin).
  apply in_map_iff in Hin as (qv' & <- & _). discriminate.
Qed.

Lemma build_children (ch : list (key * value)) :
  Forall (fun kv => stores_as_child (snd kv)) ch ->
  children_ok ch ->
  forall acc,
    (forall kv, In kv ch -> dict_get acc (KStr (segment_of kv)) = None) ->
    build (kids rel ch) acc = Ok (acc ++ index_children ch).
Proof.
  induction ch as [|[k y] ch IH]; intros HP [Hnd Hok] acc Hfresh.
  - simpl. rewrite app_nil_r. reflexivity.
  - apply Forall_cons in HP as [Hy HP]. apply Forall_cons in Hok as [[_ Hwf] Hok].
    cbn [map] in Hnd. apply NoDup_cons in Hnd as [Hk Hnd].
    cbn [kids flat_map fst snd]. fold (kids rel ch).
    rewrite build_app. cbn [snd] in Hy, Hwf.
    rewrite (Hy Hwf acc (unicode k)) by (apply (Hfresh (k, y)); left; reflexivity).
    cbn [bind]. rewrite IH; try assumption.
    + cbn [index_children map fst snd]. rewrite <- app_assoc. reflexivity.
    + split; assumption.
    + intros kv Hin. rewrite dict_get_app.
      rewrite (Hfresh kv) by (right; exact Hin). simpl.
      destruct (decide (KStr (unicode k) = KStr (segment_of kv))) as [Heq|]; [|reflexivity].
      exfalso. apply Hk. apply list_elem_of_In. injection Heq as Heq.
      unfold segment_of at 1. cbn [fst]. rewrite Heq. apply in_map, Hin.
Qed.

Lemma children_compound (x : value) (P : value -> Prop) :
  match x with
  | VList l => Forall P l
  | VDict d => Forall (fun kv => P (snd kv)) d
  | _ => True
  end ->
  Forall (fun kv => P (snd kv)) (children x).
Proof.
  destruct x as [| | | |l|d]; try (intros _; constructor); intros H; [|exact H].
  cbn [children]. generalize 0. induction H as [|y l Hy Hl IH]; intros i; constructor.
  - exact Hy.
  - apply IH.
Qed.

Lemma stores_compound (x : value) :
  is_compound_value x = true ->
  Forall (fun kv => stores_as_child (snd kv)) (children x) ->
  stores_as_child x.
Proof.
  intros Hc HP Hwf c s Hs.
  rewrite rel_compound, index_mapping_compound by exact Hc.
  assert (Hne : kids rel (children x) <> []).
  { rewrite <- rel_compound by exact Hc. apply rel_not_empty, Hwf. }
  rewrite (build_below s _ c []); [|apply kids_paths|].
  2:{ left. split; [exact Hne|]. unfold sub_dict. rewrite Hs. reflexivity. }
  rewrite (build_children _ HP (children_ok_of_wf x Hwf) []) by reflexivity.
  cbn [bind app]. rewrite dict_set_fresh by exact Hs. reflexivity.
Qed.

Lemma stores_well_formed (x : value) : stores_as_child x.
Proof.
  induction x as [| |z|t|l IH|d IH] using value_ind'.
  - intros _ c s Hs. unfold build. simpl. rewrite dict_set_fresh by exact Hs. reflexivity.
  - discriminate.
  - intros _ c s Hs. unfold build. simpl. rewrite dict_set_fresh by exact Hs. reflexivity.
  - intros Hwf c s Hs.
    destruct (rel_leaf (VStr t) eq_refl Hwf) as (v & Hrel & Hdec & _).
    rewrite Hrel. unfold build. cbn [map foldM below fst snd put_path bind].
    rewrite Hdec, dict_set_fresh by exact Hs. reflexivity.
  - destruct l as [|y l].
    + intros _ c s Hs. unfold build. simpl. rewrite dict_set_fresh by exact Hs. reflexivity.
    + apply stores_compound; [reflexivity|].
      apply (children_compound (VList (y :: l))). exact IH.
  - destruct d as [|kv d].
    + intros _ c s Hs. unfold build. simpl. rewrite dict_set_fresh by exact Hs. reflexivity.
    + apply stores_compound; [reflexivity|].
      apply (children_compound (VDict (kv :: d))). exact IH.
Qed.

(** *** What expand does with one key *)

Lemma join_cons (k : string) (q : list string) :
  q <> [] -> join "." (k :: q) = k +:+ "." +:+ join "." q.
Proof. destruct q; [congruence | reflexivity]. Qed.

Lemma split_join_cons (k : string) (q : list string) :
  no_dot k -> q <> [] -> split_dot (join "." (k :: q)) = Some (k, join "." q).
Proof. intros Hk Hq. rewrite join_cons by exact Hq. apply split_dot_append, Hk. Qed.

Lemma expand_step_leaf recur ed ctx s v :
  no_dot s ->
  dict_get ed (KStr s) = None ->
  expand_step recur (ed, ctx) (KStr s, v) = Ok (dict_set ed (KStr s) (decode v), ctx).
Proof.
  intros Hs Hfresh. unfold expand_step, dict_has, decode. rewrite Hs, Hfresh.
  destruct v as [| | |tok| |]; try reflexivity.
  destruct (String.eqb tok EMPTY_DICT); [reflexivity|].
  destruct (String.eqb tok EMPTY_LIST); reflexivity.
Qed.

Lemma expand_step_descend recur ed ctx s k rem v ccsub r :
  split_dot s = Some (k, rem) ->
  sub_dict (match ctx with Some c => c | None => ed end) k = Ok ccsub ->
  recur [(KStr rem, v)] (Some ccsub) = Ok r ->
  expand_step recur (ed, ctx) (KStr s, v)
  = let c2 :=
      dict_set (match ctx with Some c => c | None => ed end) (KStr k)
        (VDict (dict_update (match snd r with Some x => x | None => ccsub end) (fst r))) in
    match ctx with
    | Some _ => Ok (ed, Some c2)
    | None => Ok (c2, None)
    end.
Proof.
  intros Hs Hsub Hr. unfold expand_step. rewrite Hs.
  set (c := match ctx with Some c => c | None => ed end) in *.
  unfold sub_dict in Hsub. unfold setdefault.
  destruct (dict_get c (KStr k)) as [x|] eqn:E.
  - destruct x as [| | | |[|y l]|d0]; try discriminate Hsub; injection Hsub as <-.
    + rewrite Hr. cbn [bind]. rewrite dict_set_set. reflexivity.
    + rewrite Hr. reflexivity.
  - injection Hsub as <-. rewrite Hr. cbn [bind]. rewrite dict_set_set. reflexivity.
Qed.

Lemma expand_aux_single fuel kv expanded_data :
  expand_aux (S fuel) [kv] expanded_data
  = (do st <- expand_step (expand_aux fuel)
                ([], match expanded_data with Some (e :: c) => Some (e :: c) | _ => None end)
                kv;
     Ok (fst st, match snd st with Some c => Some c | None => expanded_data end)).
Proof.
  cbn [expand_aux foldM].
  destruct (expand_step _ _ kv) as [st|e]; reflexivity.
Qed.

Lemma expand_nested (q : list string) : forall v cc fuel c',
  q <> [] ->
  Forall no_dot q ->
  (length q <= fuel)%nat ->
  put_path q v cc = Ok c' ->
  exists r,
    expand_aux fuel [(KStr (join "." q), v)] (Some cc) = Ok r
    /\ dict_update (match snd r with Some x => x | None => cc end) (fst r) = c'.
Proof.
  induction q as [|k q IH]; intros v cc fuel c' Hne Hq Hfuel Hput; [congruence|].
  apply Forall_cons in Hq as [Hk Hq].
  destruct fuel as [|fuel]; [simpl in Hfuel; lia|].
  rewrite expand_aux_single.
  destruct q as [|k' q'].
  - (* the last segment *)
    cbn [put_path] in Hput. injection Hput as <-. cbn [join].
    rewrite expand_step_leaf by (exact Hk || reflexivity). cbn [bind fst snd].
    eexists. split; [reflexivity|]. cbn [fst snd].
    destruct cc; reflexivity.
  - (* a segment to descend into *)
    rewrite put_path_descend in Hput by discriminate.
    apply bind_Ok_inv in Hput as (ccsub & Hsub & Hput).
    apply bind_Ok_inv in Hput as (D & HD & Hput). injection Hput as <-.
    destruct (IH v ccsub fuel D) as (r & Hr & Hupd);
      [discriminate | exact Hq | simpl in Hfuel |- *; lia | exact HD |].
    assert (Hctx : match (match cc with e :: c => Some (e :: c) | [] => None end) with
                   | Some c => c
                   | None => []
                   end = cc) by (destruct cc; reflexivity).
    erewrite expand_step_descend;
      [| apply split_join_cons; [exact Hk | discriminate]
       | rewrite Hctx; exact Hsub
       | exact Hr].
    rewrite Hctx, Hupd. cbn zeta.
    destruct cc as [|e c]; cbn [bind fst snd]; eexists; (split; [reflexivity|]).
    + cbn [fst snd]. reflexivity.
    + cbn [fst snd]. reflexivity.
Qed.

(** At the top of [expand], where [context] is [expanded_dict], a key is
    stored at its path. *)
Lemma expand_top_item (q : list string) v ed fuel c' :
  q <> [] ->
  Forall no_dot q ->
  (length q <= S fuel)%nat ->
  (forall last, q = [last] -> dict_get ed (KStr last) = None) ->
  put_path q v ed = Ok c' ->
  expand_step (expand_aux fuel) (ed, None) (enc (q, v)) = Ok (c', None).
Proof.
  intros Hne Hq Hfuel Hfresh Hput. unfold enc. cbn [fst snd].
  destruct q as [|k [|k' q']]; [congruence| |].
  - apply Forall_cons in Hq as [Hk _]. cbn [put_path] in Hput. injection Hput as <-.
    cbn [join]. apply expand_step_leaf; [exact Hk | apply Hfresh; reflexivity].
  - apply Forall_cons in Hq as [Hk Hq].
    rewrite put_path_descend in Hput by discriminate.
    apply bind_Ok_inv in Hput as (ccsub & Hsub & Hput).
    apply bind_Ok_inv in Hput as (D & HD & Hput). injection Hput as <-.
    destruct (expand_nested (k' :: q') v ccsub fuel D) as (r & Hr & Hupd);
      [discriminate | exact Hq | simpl in Hfuel |- *; lia | exact HD |].
    erewrite expand_step_descend;
      [| apply split_join_cons; [exact Hk | discriminate] | exact Hsub | exact Hr].
    cbn zeta. rewrite Hupd. reflexivity.
Qed.

Lemma expand_top_deep fuel (items : list (list string * value)) : forall ed c',
  Forall (fun qv => (2 <= length (fst qv) <= S fuel)%nat /\ Forall no_dot (fst qv)) items ->
  build items ed = Ok c' ->
  foldM (expand_step (expand_aux fuel)) (map enc items) (ed, None) = Ok (c', None).
Proof.
  induction items as [|[q v] items IH]; intros ed c' Hitems Hbuild.
  - injection Hbuild as <-. reflexivity.
  - apply Forall_cons in Hitems as [[Hlen Hq] Hitems]. cbn [fst] in Hlen, Hq.
    unfold build in Hbuild. cbn [foldM fst snd] in Hbuild.
    apply bind_Ok_inv in Hbuild as (c1 & Hput & Hbuild).
    cbn [map foldM].
    rewrite (expand_top_item q v ed fuel c1); try assumption.
    + cbn [bind]. apply IH; assumption.
    + intros ->. simpl in Hlen. lia.
    + lia.
    + intros last ->. simpl in Hlen. lia.
Qed.

Lemma good_path_no_dot (q : list string) : good_path q -> Forall no_dot q.
Proof.
  unfold good_path. intros H. eapply Forall_impl; [exact H|]. intros s Hs.
  apply good_segment_spec in Hs as [_ Hs]. exact Hs.
Qed.

Lemma kids_good_paths (ch : list (key * value)) :
  Forall (fun kv => good_segment (segment_of kv) = true
                    /\ Forall (fun qv => good_path (fst qv)) (rel (snd kv))) ch ->
  Forall (fun qv => good_path (fst qv)) (kids rel ch).
Proof.
  intros H. apply Forall_forall. intros qv Hin. apply list_elem_of_In in Hin.
  unfold kids in Hin. apply in_flat_map in Hin as (kv & Hkv & Hin).
  apply in_map_iff in Hin as (qv' & <- & Hin).
  rewrite Forall_forall in H. apply list_elem_of_In in Hkv.
  destruct (H kv Hkv) as [Hseg Hrel].
  rewrite Forall_forall in Hrel. apply list_elem_of_In in Hin.
  cbn [below fst]. constructor; [exact Hseg | apply Hrel, Hin].
Qed.

Lemma rel_good_paths (x : value) :
  well_formed x = true -> Forall (fun qv => good_path (fst qv)) (rel x).
Proof.
  induction x as [| |z|t|l IH|d IH] using value_ind'; intros Hwf;
    try (repeat constructor; fail).
  - destruct l as [|y l]; [repeat constructor|].
    rewrite rel_compound by reflexivity. apply kids_good_paths.
    pose proof (children_ok_of_wf _ Hwf) as [_ Hok].
    pose proof (children_compound (VList (y :: l)) _ IH) as HIH.
    apply Forall_forall. intros kv Hin.
    rewrite Forall_forall in Hok, HIH. destruct (Hok kv Hin) as [Hseg Hw].
    split; [exact Hseg | apply (HIH kv Hin), Hw].
  - destruct d as [|kv0 d]; [repeat constructor|].
    rewrite rel_compound by reflexivity. apply kids_good_paths.
    pose proof (children_ok_of_wf _ Hwf) as [_ Hok].
    pose proof IH as HIH. cbn [children] in Hok.
    apply Forall_forall. intros kv Hin.
    rewrite Forall_forall in Hok, HIH. destruct (Hok kv Hin) as [Hseg Hw].
    split; [exact Hseg | apply (HIH kv Hin), Hw].
Qed.

(** At the top of [expand], the entries of the children of a well-formed
    structure are stored as the children, lists read as mappings. *)
Lemma expand_children fuel (ch : list (key * value)) :
  children_ok ch ->
  forall acc,
    (forall kv, In kv ch -> dict_get acc (KStr (segment_of kv)) = None) ->
    Forall (fun qv => (length (fst qv) <= S fuel)%nat) (kids rel ch) ->
    foldM (expand_step (expand_aux fuel)) (map enc (kids rel ch)) (acc, None)
    = Ok (acc ++ index_children ch, None).
Proof.
  induction ch as [|[k y] ch IH]; intros [Hnd Hok] acc Hfresh Hfuel.
  - simpl. rewrite app_nil_r. reflexivity.
  - apply Forall_cons in Hok as [[Hseg Hwf] Hok]. cbn [snd] in Hwf.
    unfold segment_of in Hseg. cbn [fst] in Hseg.
    cbn [map] in Hnd. apply NoDup_cons in Hnd as [Hk Hnd].
    cbn [kids flat_map fst snd] in Hfuel |- *. fold (kids rel ch) in Hfuel |- *.
    apply Forall_app in Hfuel as [Hfuel_y Hfuel].
    rewrite map_app, foldM_app.
    assert (Hacc : dict_get acc (KStr (unicode k)) = None)
      by (apply (Hfresh (k, y)); left; reflexivity).
    assert (Hstep : foldM (expand_step (expand_aux fuel))
                      (map enc (map (below (unicode k)) (rel y))) (acc, None)
                    = Ok (acc ++ [(KStr (unicode k), index_mapping y)], None)).
    { destruct (is_compound_value y) eqn:Hc.
      - apply expand_top_deep; [|apply stores_well_formed; assumption].
        pose proof (rel_good_paths y Hwf) as Hgood.
        rewrite rel_compound in Hfuel_y, Hgood |- * by exact Hc.
        pose proof (kids_paths rel (children y)) as Hne.
        apply Forall_forall. intros qv Hin. apply list_elem_of_In in Hin.
        apply in_map_iff in Hin as (qv' & <- & Hin). apply list_elem_of_In in Hin.
        rewrite Forall_forall in Hfuel_y, Hgood, Hne.
        specialize (Hfuel_y (below (unicode k) qv')).
        cbn [below fst length] in *. split; [split|].
        + specialize (Hne qv' Hin). destruct (fst qv'); [congruence | simpl; lia].
        + apply Hfuel_y. apply list_elem_of_In, in_map, list_elem_of_In, Hin.
        + apply good_path_no_dot. constructor; [exact Hseg | apply Hgood, Hin].
      - destruct (rel_leaf y Hc Hwf) as (v & Hrel & Hdec & _).
        rewrite Hrel.
        change (map enc (map (below (unicode k)) [([], v)])) with [enc ([unicode k], v)].
        cbn [foldM].
        rewrite (expand_top_item [unicode k] v acc fuel
                   (acc ++ [(KStr (unicode k), index_mapping y)])).
        + reflexivity.
        + discriminate.
        + apply good_path_no_dot. repeat constructor. exact Hseg.
        + simpl. lia.
        + intros last [= <-]. exact Hacc.
        + cbn [put_path]. rewrite Hdec, dict_set_fresh by exact Hacc. reflexivity. }
    rewrite Hstep. cbn [bind]. rewrite IH; try assumption.
    + cbn [index_children map fst snd]. rewrite <- app_assoc. reflexivity.
    + split; assumption.
    + intros kv Hin. rewrite dict_get_app.
      rewrite (Hfresh kv) by (right; exact Hin). simpl.
      destruct (decide (KStr (unicode k) = KStr (segment_of kv))) as [Heq|]; [|reflexivity].
      exfalso. apply Hk. apply list_elem_of_In. injection Heq as Heq.
      unfold segment_of at 1. cbn [fst]. rewrite Heq. apply in_map, Hin.
Qed.

(** *** Joined keys *)

Lemma str_app_assoc (a b c : string) : (a +:+ b) +:+ c = a +:+ (b +:+ c).
Proof.
  induction a as [|x a IH]; [reflexivity|].
  change (String x ((a +:+ b) +:+ c) = String x (a +:+ b +:+ c)). f_equal. exact IH.
Qed.

Lemma join_snoc (q : list string) (s : string) :
  q <> [] -> join "." (q ++ [s]) = join "." q +:+ "." +:+ s.
Proof.
  induction q as [|k q IH]; intros Hne; [congruence|].
  destruct q as [|k' q]; [reflexivity|].
  change ((k :: k' :: q) ++ [s]) with (k :: ((k' :: q) ++ [s])).
  rewrite join_cons by (simpl; discriminate).
  rewrite IH by discriminate. rewrite (join_cons k (k' :: q)) by discriminate.
  rewrite !str_app_assoc. reflexivity.
Qed.

Lemma join_not_empty (q : list string) : q <> [] -> good_path q -> join "." q <> "".
Proof.
  destruct q as [|k q]; [congruence|]. intros _ Hq.
  apply Forall_cons in Hq as [Hk _]. apply good_segment_spec in Hk as [Hk _].
  destruct q as [|k' q]; [exact Hk|].
  rewrite join_cons by discriminate. destruct k; [congruence | discriminate].
Qed.

Lemma join_inj (p1 : list string) : forall p2,
  good_path p1 -> good_path p2 -> join "." p1 = join "." p2 -> p1 = p2.
Proof.
  induction p1 as [|a p1 IH]; intros p2 H1 H2 Heq.
  - destruct p2 as [|b p2]; [reflexivity|]. symmetry in Heq.
    exfalso. revert Heq. apply join_not_empty; [discriminate | exact H2].
  - destruct p2 as [|b p2].
    { exfalso. revert Heq. apply join_not_empty; [discriminate | exact H1]. }
    apply Forall_cons in H1 as [Ha H1]. apply Forall_cons in H2 as [Hb H2].
    apply good_segment_spec in Ha as [_ Ha]. apply good_segment_spec in Hb as [_ Hb].
    destruct p1 as [|a' p1], p2 as [|b' p2].
    + simpl in Heq. congruence.
    + exfalso. apply (f_equal split_dot) in Heq.
      rewrite (split_join_cons b (b' :: p2)) in Heq by (exact Hb || discriminate).
      simpl in Heq. unfold no_dot in Ha. congruence.
    + exfalso. apply (f_equal split_dot) in Heq.
      rewrite (split_join_cons a (a' :: p1)) in Heq by (exact Ha || discriminate).
      simpl in Heq. unfold no_dot in Hb. congruence.
    + apply (f_equal split_dot) in Heq.
      rewrite (split_join_cons a (a' :: p1)) in Heq by (exact Ha || discriminate).
      rewrite (split_join_cons b (b' :: p2)) in Heq by (exact Hb || discriminate).
      injection Heq as -> Heq. f_equal. apply IH; assumption.
Qed.

Lemma kids_NoDup (ch : list (key * value)) :
  NoDup (map segment_of ch) ->
  Forall (fun kv => NoDup (map fst (rel (snd kv)))) ch ->
  NoDup (map fst (kids rel ch)).
Proof.
  induction ch as [|[k y] ch IH]; intros Hnd Hrel; [constructor|].
  cbn [map] in Hnd. apply NoDup_cons in Hnd as [Hk Hnd].
  apply Forall_cons in Hrel as [Hy Hrel]. cbn [snd] in Hy.
  cbn [kids flat_map fst snd]. fold (kids rel ch). rewrite map_app.
  apply NoDup_app. split; [|split].
  - rewrite map_map. cbn [below fst].
    rewrite <- (map_map fst (cons (unicode k))).
    apply (NoDup_fmap_2 (cons (unicode k))), Hy.
  - intros p Hp Hp'. apply list_elem_of_In in Hp, Hp'.
    apply in_map_iff in Hp as (qv & <- & Hqv).
    apply in_map_iff in Hqv as (qv0 & <- & _).
    apply in_map_iff in Hp' as (qv' & Heq & Hqv').
    unfold kids in Hqv'. apply in_flat_map in Hqv' as (kv & Hkv & Hqv').
    apply in_map_iff in Hqv' as (qv1 & <- & _). cbn [below fst] in Heq.
    injection Heq as Heq _. apply Hk. apply list_elem_of_In.
    unfold segment_of at 1. cbn [fst]. rewrite <- Heq.
    exact (in_map segment_of ch kv Hkv).
  - apply IH; assumption.
Qed.

Lemma rel_NoDup (x : value) : well_formed x = true -> NoDup (map fst (rel x)).
Proof.
  assert (Hone : forall v : value, NoDup (map fst [(@nil string, v)])).
  { intros v. apply NoDup_cons. split; [apply not_elem_of_nil | constructor]. }
  induction x as [| |z|t|l IH|d IH] using value_ind'; intros Hwf;
    try apply Hone; try constructor.
  - destruct l as [|y l]; [apply Hone|].
    rewrite rel_compound by reflexivity.
    pose proof (children_ok_of_wf _ Hwf) as [Hnd Hok].
    pose proof (children_compound (VList (y :: l)) _ IH) as HIH.
    apply kids_NoDup; [exact Hnd|].
    apply Forall_forall. intros kv Hin. rewrite Forall_forall in Hok, HIH.
    apply (HIH kv Hin). apply (Hok kv Hin).
  - destruct d as [|kv0 d]; [apply Hone|].
    rewrite rel_compound by reflexivity.
    pose proof (children_ok_of_wf _ Hwf) as [Hnd Hok]. cbn [children] in Hnd, Hok |- *.
    apply kids_NoDup; [exact Hnd|].
    apply Forall_forall. intros kv Hin. rewrite Forall_forall in Hok, IH.
    apply (IH kv Hin). apply (Hok kv Hin).
Qed.

Lemma enc_under_nil (items : list (list string * value)) :
  map (enc_under []) items = map enc items.
Proof. reflexivity. Qed.

Lemma enc_under_below (q : list string) (s : string) (items : list (list string * value)) :
  map (enc_under q) (map (below s) items) = map (enc_under (q ++ [s])) items.
Proof.
  rewrite map_map. apply map_ext. intros [p v]. unfold enc_under, below. cbn [fst snd].
  rewrite <- app_assoc. reflexivity.
Qed.

Lemma children_good_paths (ch : list (key * value)) :
  children_ok ch -> Forall (fun qv => good_path (fst qv)) (kids rel ch).
Proof.
  intros [_ Hok]. apply kids_good_paths.
  eapply Forall_impl; [exact Hok|]. intros kv [Hseg Hwf].
  split; [exact Hseg | apply rel_good_paths, Hwf].
Qed.

Lemma children_keys_NoDup (q : list string) (ch : list (key * value)) :
  good_path q -> children_ok ch ->
  NoDup (dict_keys (map (enc_under q) (kids rel ch))).
Proof.
  intros Hq Hch. unfold dict_keys.
  replace (map fst (map (enc_under q) (kids rel ch)))
    with (map (fun p => KStr (join "." (q ++ p))) (map fst (kids rel ch)))
    by (rewrite !map_map; reflexivity).
  pose proof (children_good_paths ch Hch) as Hgood.
  apply NoDup_fmap_2_strong.
  - intros p1 p2 H1 H2 [= Heq].
    apply list_elem_of_In, in_map_iff in H1 as (qv1 & <- & H1).
    apply list_elem_of_In, in_map_iff in H2 as (qv2 & <- & H2).
    rewrite Forall_forall in Hgood. apply list_elem_of_In in H1, H2.
    apply join_inj in Heq.
    + apply app_inv_head in Heq. exact Heq.
    + apply Forall_app. split; [exact Hq | apply Hgood, H1].
    + apply Forall_app. split; [exact Hq | apply Hgood, H2].
  - destruct Hch as [Hnd Hok]. apply kids_NoDup; [exact Hnd|].
    eapply Forall_impl; [exact Hok|]. intros kv [_ Hwf]. apply rel_NoDup, Hwf.
Qed.

Lemma dict_update_app {A} (sub : list (key * A)) : forall flat,
  NoDup (dict_keys (flat ++ sub)) -> dict_update flat sub = flat ++ sub.
Proof.
  induction sub as [|[k v] sub IH]; intros flat Hnd.
  - unfold dict_update. simpl. rewrite app_nil_r. reflexivity.
  - unfold dict_update. cbn [fold_left fst snd]. fold (dict_update (dict_set flat k v) sub).
    assert (Hk : dict_get flat k = None).
    { apply dict_get_None. intros Hin. unfold dict_keys in Hnd. rewrite map_app in Hnd.
      apply NoDup_app in Hnd as (_ & Hdis & _).
      apply (Hdis k); [apply list_elem_of_In, Hin | left]. }
    rewrite dict_set_fresh by exact Hk.
    rewrite IH; rewrite <- app_assoc; [reflexivity | exact Hnd].
Qed.

(** *** What flatten_to_dict builds *)

Lemma flatten_dict_unfold (d : dict) prefix ignore_none :
  flatten_to_dict (VDict d) prefix ignore_none = flatten_children prefix ignore_none d [].
Proof.
  cbn [flatten_to_dict]. generalize (@nil (key * value)).
  induction d as [|[k v] d IH]; intros flat; [reflexivity|].
  unfold flatten_children. cbn [foldM fst snd].
  destruct (flatten_step prefix ignore_none (flatten_to_dict v) flat k v) as [flat'|e];
    [|reflexivity].
  cbn [bind]. apply IH.
Qed.

Lemma flatten_list_unfold (l : list value) prefix ignore_none :
  flatten_to_dict (VList l) prefix ignore_none
  = flatten_children prefix ignore_none (enumerate 0 l) [].
Proof.
  cbn [flatten_to_dict]. generalize (@nil (key * value)). generalize 0.
  induction l as [|v l IH]; intros i flat; [reflexivity|].
  unfold flatten_children. cbn [enumerate foldM fst snd].
  destruct (flatten_step prefix ignore_none (flatten_to_dict v) flat (KInt i) v)
    as [flat'|e]; [|reflexivity].
  cbn [bind]. apply IH.
Qed.

Lemma flatten_compound (x : value) prefix ignore_none :
  is_compound_value x = true ->
  flatten_to_dict x prefix ignore_none
  = flatten_children prefix ignore_none (children x) [].
Proof.
  destruct x as [| | | |l|d]; try discriminate; intros _.
  - apply flatten_list_unfold.
  - apply flatten_dict_unfold.
Qed.

Lemma flatten_step_child (q : list string) ignore_none flat k y :
  good_path q ->
  (q = [] -> exists s, k = KStr s) ->
  well_formed y = true ->
  good_segment (unicode k) = true ->
  flattens_under y ->
  NoDup (dict_keys (flat ++ map (enc_under (q ++ [unicode k])) (rel y))) ->
  flatten_step (prefix_of q) ignore_none (flatten_to_dict y) flat k y
  = Ok (flat ++ map (enc_under (q ++ [unicode k])) (rel y)).
Proof.
  intros Hq Htop Hwf Hseg Hy Hnd. unfold flatten_step.
  assert (Hkey : match prefix_of q with
                 | Some p => if key_truthy p then join_prefix p k else k
                 | None => k
                 end = KStr (join "." (q ++ [unicode k]))).
  { destruct q as [|s q].
    - destruct (Htop eq_refl) as [s ->]. reflexivity.
    - cbn [prefix_of key_truthy].
      destruct (String.eqb (join "." (s :: q)) "") eqn:E.
      + apply String.eqb_eq in E. exfalso. revert E.
        apply join_not_empty; [discriminate | exact Hq].
      + cbn [negb]. unfold join_prefix. cbn [unicode].
        rewrite join_snoc by discriminate. reflexivity. }
  rewrite Hkey. clear Hkey.
  destruct (is_compound_value y) eqn:Hc.
  - assert (Hsub : flatten_to_dict y (Some (KStr (join "." (q ++ [unicode k])))) true
                   = Ok (map (enc_under (q ++ [unicode k])) (rel y))).
    { specialize (Hy Hwf Hc (q ++ [unicode k]) true).
      replace (prefix_of (q ++ [unicode k]))
        with (Some (KStr (join "." (q ++ [unicode k])))) in Hy
        by (destruct q; reflexivity).
      apply Hy; [destruct q; discriminate|].
      apply Forall_app. split; [exact Hq | repeat constructor; exact Hseg]. }
    destruct y as [| | | |[|y0 l]|[|kv0 d]]; try discriminate Hc;
      rewrite Hsub; cbn [bind]; rewrite dict_update_app by exact Hnd; reflexivity.
  - destruct (rel_leaf y Hc Hwf) as (v & Hrel & _ & Hscalar & Hv).
    rewrite Hrel in Hnd |- *. cbn [map] in Hnd |- *.
    unfold enc_under in Hnd |- *. cbn [fst snd] in Hnd |- *.
    rewrite app_nil_r in Hnd |- *.
    assert (Hset : forall x : value,
               dict_set flat (KStr (join "." (q ++ [unicode k]))) x
               = flat ++ [(KStr (join "." (q ++ [unicode k])), x)]).
    { intros x. apply dict_set_fresh. apply dict_get_None. intros Hin.
      unfold dict_keys in Hnd. rewrite map_app in Hnd.
      apply NoDup_app in Hnd as (_ & Hdis & _).
      apply (Hdis _ (proj2 (list_elem_of_In _ _) Hin)). left. }
    destruct Hv as [->|[[-> ->]|[-> ->]]].
    + destruct y as [| | | |[|y0 l]|[|kv0 d]]; try discriminate Hc; try contradiction;
        rewrite Hset; reflexivity.
    + cbn iota. rewrite Hset. reflexivity.
    + cbn iota. rewrite Hset. reflexivity.
Qed.

Lemma flatten_children_spec (q : list string) ignore_none :
  good_path q ->
  forall todo done,
    (q = [] -> Forall (fun kv => exists s, fst kv = KStr s) todo) ->
    children_ok (done ++ todo) ->
    Forall (fun kv => flattens_under (snd kv)) todo ->
    flatten_children (prefix_of q) ignore_none todo (map (enc_under q) (kids rel done))
    = Ok (map (enc_under q) (kids rel (done ++ todo))).
Proof.
  intros Hq. induction todo as [|[k y] todo IH]; intros done Htop Hok HP.
  - rewrite app_nil_r. reflexivity.
  - apply Forall_cons in HP as [Hy HP]. cbn [snd] in Hy.
    assert (Hok' : children_ok ((done ++ [(k, y)]) ++ todo))
      by (rewrite <- app_assoc; exact Hok).
    assert (Hkids : kids rel (done ++ [(k, y)])
                    = kids rel done ++ map (below (unicode k)) (rel y)).
    { unfold kids. rewrite flat_map_app. cbn [flat_map fst snd].
      rewrite app_nil_r. reflexivity. }
    assert (Hky : good_segment (unicode k) = true /\ well_formed y = true).
    { destruct Hok as [_ Hall]. apply Forall_app in Hall as [_ Hall].
      apply Forall_cons in Hall as [H _]. exact H. }
    destruct Hky as [Hseg Hwf].
    unfold flatten_children. cbn [foldM fst snd].
    rewrite (flatten_step_child q ignore_none _ k y Hq); try assumption.
    + cbn [bind].
      change (flatten_children (prefix_of q) ignore_none todo
                (map (enc_under q) (kids rel done)
                 ++ map (enc_under (q ++ [unicode k])) (rel y))
              = Ok (map (enc_under q) (kids rel (done ++ (k, y) :: todo)))).
      rewrite <- enc_under_below, <- map_app, <- Hkids.
      rewrite IH; [rewrite <- app_assoc; reflexivity| |exact Hok'|exact HP].
      intros Hnil. specialize (Htop Hnil). apply Forall_cons in Htop as [_ Htop].
      exact Htop.
    + intros Hnil. specialize (Htop Hnil). apply Forall_cons in Htop as [Htop _].
      exact Htop.
    + rewrite <- enc_under_below, <- map_app, <- Hkids.
      apply children_keys_NoDup; [exact Hq|].
      destruct Hok' as [Hnd Hall]. rewrite map_app in Hnd.
      apply NoDup_app in Hnd as (Hnd & _ & _).
      apply Forall_app in Hall as [Hall _]. split; assumption.
Qed.

Lemma flattens_well_formed (x : value) : flattens_under x.
Proof.
  induction x as [| |z|t|l IH|d IH] using value_ind'; try (intros _ Hc; discriminate Hc).
  - intros Hwf Hc q ignore_none Hne Hq.
    rewrite flatten_compound, rel_compound by exact Hc.
    apply (flatten_children_spec q ignore_none Hq (children (VList l)) []).
    + intros ->. congruence.
    + apply children_ok_of_wf, Hwf.
    + apply (children_compound (VList l)). exact IH.
  - intros Hwf Hc q ignore_none Hne Hq.
    rewrite flatten_compound, rel_compound by exact Hc.
    apply (flatten_children_spec q ignore_none Hq (children (VDict d)) []).
    + intros ->. congruence.
    + apply children_ok_of_wf, Hwf.
    + exact IH.
Qed.

(** *** The round trip *)

Lemma str_length_app (a b : string) :
  String.length (a +:+ b) = (String.length a + String.length b)%nat.
Proof.
  induction a as [|x a IH]; [reflexivity|].
  change (S (String.length (a +:+ b)) = S (String.length a + String.length b)).
  rewrite IH. reflexivity.
Qed.

Lemma join_length (q : list string) : (length q <= S (String.length (join "." q)))%nat.
Proof.
  induction q as [|k q IH]; [simpl; lia|].
  destruct q as [|k' q]; [simpl; lia|].
  rewrite join_cons by discriminate. rewrite !str_length_app.
  change (length (k :: k' :: q)) with (S (length (k' :: q))).
  change (String.length ".") with 1%nat. lia.
Qed.

Lemma index_mapping_no_items (x : value) :
  well_formed x = true -> no_items x = true -> index_mapping x = x.
Proof.
  induction x as [| |z|t|l IH|d IH] using value_ind'; try reflexivity.
  - intros _ Hn. destruct l; [reflexivity | discriminate Hn].
  - intros Hwf Hn. rewrite index_mapping_dict. f_equal.
    cbn [well_formed] in Hwf. apply andb_true_iff in Hwf as [_ Hwf].
    cbn [no_items] in Hn.
    induction d as [|[k y] d IHd]; [reflexivity|].
    apply Forall_cons in IH as [Hy IH]. cbn [forallb fst snd] in Hwf, Hn, Hy.
    apply andb_true_iff in Hwf as [Hky Hwf]. apply andb_true_iff in Hky as [Hk Hwy].
    apply andb_true_iff in Hn as [Hny Hn].
    cbn [index_children map fst snd]. fold (index_children d).
    rewrite (Hy Hwy Hny), (IHd IH Hwf Hn).
    destruct k as [i|s]; [discriminate Hk | reflexivity].
Qed.

Lemma expand_flatten_dict (d : dict) :
  well_formed (VDict d) = true ->
  expand_flatten (VDict d) = Ok (index_mapping (VDict d)).
Proof.
  intros Hwf. unfold expand_flatten.
  pose proof (children_ok_of_wf _ Hwf) as Hok. cbn [children] in Hok.
  assert (Hkeys : Forall (fun kv : key * value => exists s, fst kv = KStr s) d).
  { cbn [well_formed] in Hwf. apply andb_true_iff in Hwf as [_ Hall].
    apply Forall_forall. intros [k y] Hin. apply list_elem_of_In in Hin.
    rewrite forallb_forall in Hall. specialize (Hall _ Hin).
    apply andb_true_iff in Hall as [Hk _]. destruct k as [i|s]; [discriminate Hk|].
    exists s. reflexivity. }
  assert (Hflat : flatten_children None true d [] = Ok (map enc (kids rel d))).
  { apply (flatten_children_spec [] true (Forall_nil_2 _) d [] (fun _ => Hkeys) Hok).
    apply Forall_forall. intros kv _. apply flattens_well_formed. }
  rewrite flatten_dict_unfold, Hflat.
  cbn [bind]. unfold expand.
  set (flat := map enc (kids rel d)).
  set (M := list_max (map (fun kv => key_size (fst kv)) flat)).
  cbn [expand_aux]. subst flat.
  rewrite (expand_children M d Hok []); [|reflexivity|].
  - cbn [bind fst snd app]. rewrite index_mapping_dict. reflexivity.
  - pose proof (proj1 (list_max_le _ M) (Nat.le_refl _)) as Hmax. fold M in Hmax.
    apply Forall_forall. intros qv Hin.
    rewrite Forall_forall in Hmax.
    specialize (Hmax (String.length (join "." (fst qv)))).
    pose proof (join_length (fst qv)) as Hlen.
    enough (String.length (join "." (fst qv)) <= M)%nat by lia.
    apply Hmax. apply list_elem_of_In. rewrite map_map.
    apply in_map_iff. exists qv. split; [reflexivity | apply list_elem_of_In, Hin].
Qed.

(** C6 (counterexample).  Three mappings of scalars that the round trip
    does not give back: a key with a dot comes back as a nested mapping, a
    text equal to the reserved token of the empty list comes back as the
    empty list, and an entry whose value is [None] does not come back. *)
Lemma C6_counterexample :
  expand_flatten (VDict [(KStr "a.b", VInt 1)])
  = Ok (VDict [(KStr "a", VDict [(KStr "b", VInt 1)])])
  /\ expand_flatten (VDict [(KStr "a", VStr "[]")]) = Ok (VDict [(KStr "a", VList [])])
  /\ expand_flatten (VDict [(KStr "a", VNone)]) = Ok (VDict []).
Proof. repeat split; vm_compute; reflexivity. Qed.

(** C6 (amended).  For every mapping X built from mappings, lists and
    scalars, in which no value is [None], no text is one of the two
    reserved tokens, and the keys of every mapping are texts that are not
    empty and have no dot, [expand(flatten_to_dict(X))] is X with every
    list that has items read as the mapping from the decimal numerals of
    the positions to the items; it is X itself when no list of X has an
    item, as for [{"a": [], "b": {}, "c": {"d": 1}}]. *)
Theorem C6_expand_flatten_round_trip :
  (forall d,
     well_formed (VDict d) = true ->
     expand_flatten (VDict d) = Ok (index_mapping (VDict d))
     /\ (no_items (VDict d) = true -> expand_flatten (VDict d) = Ok (VDict d)))
  /\ expand_flatten
       (VDict [(KStr "a", VList []); (KStr "b", VDict []);
               (KStr "c", VDict [(KStr "d", VInt 1)])])
     = Ok (VDict [(KStr "a", VList []); (KStr "b", VDict []);
                  (KStr "c", VDict [(KStr "d", VInt 1)])]).
Proof.
  split; [|vm_compute; reflexivity].
  intros d Hwf. split; [apply expand_flatten_dict, Hwf|].
  intros Hn. rewrite expand_flatten_dict by exact Hwf.
  rewrite index_mapping_no_items by assumption. reflexivity.
Qed.

Lemma C6_expand_flatten_round_trip_witness :
  expand_flatten
    (VDict [(KStr "name", VStr "Ada");
            (KStr "tags", VList [VStr "x"; VDict [(KStr "deep", VList [])]])])
  = Ok (VDict [(KStr "name", VStr "Ada");
               (KStr "tags",
                VDict [(KStr "0", VStr "x");
                       (KStr "1", VDict [(KStr "deep", VList [])])])]).
Proof.
  apply (proj1 (proj1 C6_expand_flatten_round_trip
                  [(KStr "name", VStr "Ada");
                   (KStr "tags", VList [VStr "x"; VDict [(KStr "deep", VList [])]])]
                  eq_refl)).
Defined.

(** ** Further properties: the export loop *)

Lemma index_member (l : list key) (x : key) : In x l -> exists i, index l x = Ok i.
Proof.
  induction l as [|y l IH]; simpl; [tauto|].
  destruct (decide (y = x)) as [->|Hne]; [eauto|].
  intros [H|H]; [congruence|]. destruct (IH H) as [i ->]. simpl. eauto.
Qed.

Lemma index_not_member (l : list key) (x : key) :
  ~ In x l -> index l x = Raise (ValueError "is not in list").
Proof.
  induction l as [|y l IH]; simpl; [reflexivity|].
  destruct (decide (y = x)) as [->|Hne]; [tauto|].
  intros H. rewrite IH by tauto. reflexivity.
Qed.

Lemma key_in_spec (x : key) (l : list key) : key_in x l = true <-> In x l.
Proof. unfold key_in. rewrite bool_decide_eq_true. apply list_elem_of_In. Qed.

Lemma mapM_decorate (based_on : list key) (dct : dict) :
  Forall (fun kv => In (fst kv) based_on) dct ->
  mapM (fun el => do i <- sort_dict_key based_on el; Ok (i, el)) dct
  = Ok (map (fun el => (position based_on (fst el), el)) dct).
Proof.
  induction 1 as [|[k v] dct Hk Hd IH]; [reflexivity|].
  cbn [mapM map fst]. rewrite IH. unfold sort_dict_key, position. cbn [fst] in *.
  rewrite (proj2 (key_in_spec k based_on) Hk).
  destruct (index_member _ _ Hk) as [i ->]. reflexivity.
Qed.

Lemma Sorted_map_snd {A} (f : A -> nat) (l : list (nat * A)) :
  Forall (fun x => fst x = f (snd x)) l ->
  Sorted (fun a b => (fst b <? fst a)%nat = false) l ->
  Sorted (fun a b => (f a <= f b)%nat) (map snd l).
Proof.
  intros Hf Hs. induction Hs as [|x l Hs IH Hhd]; [constructor|].
  apply Forall_cons in Hf as [Hx Hf]. cbn [map]. constructor; [apply IH, Hf|].
  destruct Hhd as [|y l Hxy]; cbn [map]; constructor.
  apply Forall_cons in Hf as [Hy _]. apply Nat.ltb_ge in Hxy. lia.
Qed.

(** X1.  When every key of the dictionary is listed in the ordering,
    [sort_dict] succeeds and returns the entries of the dictionary
    rearranged so that the positions of their keys in the ordering
    ascend. *)
Theorem X1_sort_dict_listed_keys :
  forall dct based_on,
    Forall (fun kv => In (fst kv) based_on) dct ->
    exists out,
      sort_dict dct based_on = Ok out
      /\ Permutation out dct
      /\ Sorted (fun a b => (position based_on (fst a) <= position based_on (fst b))%nat) out.
Proof.
  intros dct based_on Hin. unfold sort_dict. rewrite (mapM_decorate _ _ Hin). cbn [bind].
  eexists. split; [reflexivity|]. split.
  - unfold sorted_by. rewrite (Permutation_map snd (sorted_perm _ _)).
    rewrite map_map. cbn [snd]. rewrite map_id. reflexivity.
  - apply (Sorted_map_snd (fun el => position based_on (fst el))).
    + unfold sorted_by. eapply Forall_forall. intros x Hx.
      apply list_elem_of_In in Hx.
      apply (Permutation_in _ (sorted_perm _ _)) in Hx.
      apply in_map_iff in Hx as (el & <- & _). reflexivity.
    + unfold sorted_by. apply sorted_Sorted.
      intros x y H. apply Nat.ltb_lt in H. apply Nat.ltb_ge. lia.
Qed.

Lemma X1_sort_dict_listed_keys_witness :
  exists out,
    sort_dict [(KStr "b", VInt 2); (KStr "a", VInt 1)] [KStr "a"; KStr "b"] = Ok out
    /\ Permutation out [(KStr "b", VInt 2); (KStr "a", VInt 1)]
    /\ Sorted (fun a b => (position [KStr "a"; KStr "b"] (fst a)
                           <= position [KStr "a"; KStr "b"] (fst b))%nat) out.
Proof.
  apply (X1_sort_dict_listed_keys [(KStr "b", VInt 2); (KStr "a", VInt 1)]
           [KStr "a"; KStr "b"]).
  apply List.Forall_cons; [simpl; auto|].
  apply List.Forall_cons; [simpl; auto|].
  apply List.Forall_nil.
Defined.

(** X2.  When some key of the dictionary is not listed in the ordering,
    and the ordering does not hold the integer -1, [sort_dict] raises
    [ValueError]. *)
Theorem X2_sort_dict_unlisted_key :
  forall dct based_on,
    Exists (fun kv => ~ In (fst kv) based_on) dct ->
    ~ In (KInt (-1)) based_on ->
    sort_dict dct based_on = Raise (ValueError "is not in list").
Proof.
  intros dct based_on Hex Hneg. unfold sort_dict.
  enough (H : mapM (fun el => do i <- sort_dict_key based_on el; Ok (i, el)) dct
              = Raise (ValueError "is not in list")) by (rewrite H; reflexivity).
  induction Hex as [[k v] dct Hk|[k v] dct Hex IH]; cbn [mapM fst] in *.
  - unfold sort_dict_key. cbn [fst].
    destruct (key_in k based_on) eqn:E; [apply key_in_spec in E; tauto|].
    rewrite index_not_member by exact Hneg. reflexivity.
  - rewrite IH. destruct (sort_dict_key based_on (k, v)) as [i|e] eqn:E; [reflexivity|].
    unfold sort_dict_key in E. cbn [fst] in E.
    destruct (key_in k based_on) eqn:Ek.
    + apply key_in_spec in Ek. destruct (index_member _ _ Ek) as [i Hi]. congruence.
    + rewrite index_not_member in E by exact Hneg. injection E as <-. reflexivity.
Qed.

Lemma X2_sort_dict_unlisted_key_witness :
  sort_dict [(KStr "a", VInt 1); (KStr "z", VInt 2)] [KStr "a"]
  = Raise (ValueError "is not in list").
Proof.
  apply X2_sort_dict_unlisted_key.
  - apply Exists_cons_tl, Exists_cons_hd. simpl. intros [H|[]]. discriminate H.
  - simpl. intros [H|[]]. discriminate H.
Defined.

(** X3.  When a role with a name that is not empty is requested, the
    schema has options that do not define it, and [raise_error_on_role] is
    set, the export fails with [ValueError], whatever the record and the
    converter. *)
Theorem X3_export_unknown_role_raises :
  forall K cls inst conv ctx o r,
    _options cls = Some o ->
    role ctx = Some r ->
    r <> "" ->
    roles o !! r = None ->
    raise_error_on_role ctx = true ->
    export_loop K cls inst conv ctx = Raise (ValueError "Model has no role").
Proof.
  intros K cls inst conv ctx o r Ho Hr Hne Hundef Hraise.
  unfold export_loop, resolve_role. rewrite Ho, Hr, Hundef, Hraise. cbn [name_truthy].
  apply String.eqb_neq in Hne. rewrite Hne. reflexivity.
Qed.

Lemma X3_export_unknown_role_raises_witness :
  export_loop sample_constants (sample_model 10 ∅ None) [(KStr "a", VStr "Ada")]
    (ExportConverter.call (_to_native_converter sample_constants))
    {| mapping := Mapping [] None; partial := false; strict := false;
       init_values := false; apply_defaults := false;
       role := Some "admin"; raise_error_on_role := true; export_level := None |}
  = Raise (ValueError "Model has no role").
Proof.
  apply (X3_export_unknown_role_raises sample_constants (sample_model 10 ∅ None) _ _ _
           {| roles := ∅; fields_order := None |} "admin").
  - reflexivity.
  - reflexivity.
  - discriminate.
  - reflexivity.
  - reflexivity.
Defined.

(** X4.  A field whose output key no other field shares has no entry in
    the output of the export when the role asks to skip it, and when its
    export level is [DROP]. *)
Theorem X4_export_skipped_field_absent :
  forall K cls inst conv ctx l1 l2 n f g out,
    _fields cls ++ _serializables cls = l1 ++ (n, f) :: l2 ->
    Forall (fun nf => atom_key nf <> atom_key (n, f)) (l1 ++ l2) ->
    resolve_role cls ctx = Ok g ->
    Role.call g n (match dict_get inst (KStr n) with Some v => v | None => Undefined end)
    = true
    \/ Field.get_export_level f ctx = DROP K ->
    export_loop K cls inst conv ctx = Ok out ->
    dict_get out (atom_key (n, f)) = None.
Proof.
  intros K cls inst conv ctx l1 l2 n f g out Hsplit Huniq Hg Hskip Hout.
  destruct (export_loop_field _ _ _ _ _ _ _ _ _ _ _ Hsplit Huniq Hg Hout)
    as (data1 & Hturn & ->).
  unfold export_atom in Hturn. cbn [fst snd] in Hturn.
  destruct (Role.call g n _).
  - injection Hturn as <-. reflexivity.
  - destruct Hskip as [Hskip|Hskip]; [discriminate Hskip|].
    rewrite Hskip, Z.eqb_refl in Hturn. injection Hturn as <-. reflexivity.
Qed.

Lemma X4_export_skipped_field_absent_witness :
  dict_get [(KStr "b", VStr "Lovelace")] (atom_key ("a", text_field 10)) = None.
Proof.
  apply (X4_export_skipped_field_absent sample_constants
           (sample_model 10 {[ "default" := Role.blacklist ["a"] ]} None)
           [(KStr "a", VStr "Ada"); (KStr "b", VStr "Lovelace")]
           (ExportConverter.call (_to_native_converter sample_constants))
           sample_context [] [("b", text_field 10)] "a" (text_field 10)
           (Role.blacklist ["a"])).
  - reflexivity.
  - apply List.Forall_cons; [discriminate | apply List.Forall_nil].
  - vm_compute. reflexivity.
  - left. vm_compute. reflexivity.
  - vm_compute. reflexivity.
Defined.

(** X5.  Every key of the output of the export is the output key (the
    serialized name, or else the name) of a declared field or of a
    serializable. *)
Theorem X5_export_keys_are_field_keys :
  forall K cls inst conv ctx out k,
    export_loop K cls inst conv ctx = Ok out ->
    In k (dict_keys out) ->
    exists nf, In nf (_fields cls ++ _serializables cls) /\ k = atom_key nf.
Proof.
  intros K cls inst conv ctx out k Hout Hk.
  assert (Hout' := Hout). unfold export_loop in Hout'.
  apply bind_Ok_inv in Hout' as (g & Hg & Hout').
  apply bind_Ok_inv in Hout' as (data & Hfold & _).
  pose proof (export_loop_get _ _ _ _ _ _ _ _ k Hg Hfold Hout) as Hget.
  destruct (decide (Exists (fun nf => atom_key nf = k) (_fields cls ++ _serializables cls)))
    as [Hex|Hno].
  - apply Exists_exists in Hex as (nf & Hin & Heq).
    exists nf. split; [apply list_elem_of_In, Hin | congruence].
  - exfalso. apply (proj1 (dict_get_None out k)); [|exact Hk].
    rewrite Hget. apply export_fold_inv in Hfold as [_ Hfold]. rewrite Hfold; [reflexivity|].
    unfold atoms. apply Forall_map. cbn [fst].
    apply Forall_forall. intros nf Hin Heq. apply Hno.
    apply Exists_exists. exists nf. split; [exact Hin | exact Heq].
Qed.

Lemma X5_export_keys_are_field_keys_witness :
  exists nf, In nf (_fields (sample_model 10 ∅ None) ++ _serializables (sample_model 10 ∅ None))
             /\ KStr "a" = atom_key nf.
Proof.
  apply (X5_export_keys_are_field_keys sample_constants (sample_model 10 ∅ None)
           [(KStr "a", VStr "Ada")]
           (ExportConverter.call (_to_native_converter sample_constants))
           sample_context [(KStr "a", VStr "Ada")] (KStr "a")).
  - vm_compute. reflexivity.
  - left. reflexivity.
Defined.

(** ** Further properties: the import loop *)

Lemma import_field_no_data conv ctx data errors n f :
  import_field conv ctx None (data, errors) (n, f)
  = Ok (match dict_get data (KStr n) with
        | Some _ => data
        | None => dict_set data (KStr n) (absent_value ctx f)
        end, errors).
Proof.
  unfold import_field, dict_has, absent_value. cbn [is_Undefined andb].
  destruct (dict_get data (KStr n)); reflexivity.
Qed.

Lemma import_fold_no_data conv ctx (F : list (string * field)) :
  NoDup (map fst F) ->
  forall data errors,
    exists data',
      foldM (import_field conv ctx None) F (data, errors) = Ok (data', errors)
      /\ (forall n f, In (n, f) F ->
            dict_get data' (KStr n)
            = match dict_get data (KStr n) with
              | Some t => Some t
              | None => Some (absent_value ctx f)
              end)
      /\ (forall k, ~ In k (map (fun nf => KStr (fst nf)) F) ->
            dict_get data' k = dict_get data k).
Proof.
  induction F as [|[n f] F IH]; intros Hnd data errors.
  - exists data. repeat split. intros n f [].
  - apply NoDup_cons in Hnd as [Hn Hnd]. rewrite list_elem_of_In in Hn.
    cbn [foldM]. rewrite import_field_no_data. cbn [bind].
    set (data1 := match dict_get data (KStr n) with
                  | Some _ => data
                  | None => dict_set data (KStr n) (absent_value ctx f)
                  end).
    assert (H1 : forall k, k <> KStr n -> dict_get data1 k = dict_get data k).
    { intros k Hk. subst data1. destruct (dict_get data (KStr n)); [reflexivity|].
      apply dict_get_set_ne. congruence. }
    assert (H2 : dict_get data1 (KStr n)
                 = match dict_get data (KStr n) with
                   | Some t => Some t
                   | None => Some (absent_value ctx f)
                   end).
    { subst data1. destruct (dict_get data (KStr n)) eqn:E; [exact E|].
      apply dict_get_set_eq. }
    destruct (IH Hnd data1 errors) as (data' & Hfold & Hget & Hother).
    exists data'. split; [exact Hfold|]. split.
    + intros n' f' [[= <- <-]|Hin].
      * rewrite Hother, H2; [reflexivity|].
        intros Hin. apply in_map_iff in Hin as (nf & [= Heq] & Hin).
        apply Hn. rewrite <- Heq. exact (in_map fst F nf Hin).
      * rewrite (Hget n' f' Hin). rewrite H1; [reflexivity|].
        intros [= ->]. apply Hn. exact (in_map fst F (n, f') Hin).
    + intros k Hk. rewrite Hother.
      * apply H1. intros ->. apply Hk. left. reflexivity.
      * intros Hin. apply Hk. right. exact Hin.
Qed.

(** X6.  With no input ([None]) the import never fails and never consults
    the converter: it returns the trusted data, completed, for every field
    the trusted data do not hold, by the default of the field when
    defaults are applied, by [None] when values are initialised and there
    is still none, and by [Undefined] otherwise. *)
Theorem X6_import_without_data :
  forall cls conv trusted ctx,
    NoDup (map fst (_fields cls)) ->
    let T := match trusted with Some t => t | None => [] end in
    exists data,
      import_loop cls VNone conv trusted ctx = Ok data
      /\ (forall n f, In (n, f) (_fields cls) ->
            dict_get data (KStr n)
            = match dict_get T (KStr n) with
              | Some t => Some t
              | None => Some (absent_value ctx f)
              end)
      /\ (forall k, ~ In k (map (fun nf => KStr (fst nf)) (_fields cls)) ->
            dict_get data k = dict_get T k).
Proof.
  intros cls conv trusted ctx Hnd T. unfold import_loop. cbn [bind]. fold T.
  destruct (import_fold_no_data conv ctx (_fields cls) Hnd T [])
    as (data & Hfold & Hget & Hother).
  exists data. rewrite Hfold. cbn [bind]. repeat split; assumption.
Qed.

Lemma X6_import_without_data_witness :
  exists data,
    import_loop (sample_model 10 ∅ None) VNone import_converter
      (Some [(KStr "a", VStr "kept")]) sample_context = Ok data
    /\ dict_get data (KStr "a") = Some (VStr "kept")
    /\ dict_get data (KStr "b") = Some Undefined.
Proof.
  destruct (X6_import_without_data (sample_model 10 ∅ None) import_converter
              (Some [(KStr "a", VStr "kept")]) sample_context)
    as (data & Hloop & Hget & _).
  - apply (bool_decide_unpack _). vm_compute. exact I.
  - exists data. split; [exact Hloop|]. split.
    + apply (Hget "a" (text_field 10)). left. reflexivity.
    + apply (Hget "b" (text_field 10)). right. left. reflexivity.
Defined.

Lemma rogue_errors_has (ks : list key) (acc : errors_t) k :
  In k ks \/ dict_get acc k <> None ->
  dict_get (fold_left (fun e k => dict_set e k (ErrText "Rogue field")) ks acc) k <> None.
Proof.
  revert acc. induction ks as [|k0 ks IH]; intros acc; simpl; [tauto|].
  intros H. apply IH.
  destruct (decide (k0 = k)) as [->|Hne].
  - right. rewrite dict_get_set_eq. discriminate.
  - rewrite dict_get_set_ne by exact Hne. tauto.
Qed.

(** X7.  In strict mode a key of the input that is not an acceptable input
    name makes the import fail with a [DataError] whose error mapping has
    an entry under that key, provided that every failure of a converter is
    one the loop catches. *)
Theorem X7_import_strict_rogue_key :
  forall cls d conv trusted ctx k,
    let T := match trusted with Some t => t | None => [] end in
    NoDup (map fst (_fields cls)) ->
    (forall nf e, In nf (_fields cls) ->
       field_outcome conv ctx d T nf = Some (Raise e) -> caught e = true) ->
    strict ctx = true ->
    In k (dict_keys d) ->
    ~ In k (all_fields cls ctx) ->
    exists errors partial_data,
      import_loop cls (VDict d) conv trusted ctx = Raise (DataError errors partial_data)
      /\ dict_get errors k <> None.
Proof.
  intros cls d conv trusted ctx k T Hnd Hcaught Hstrict Hk Hrogue.
  unfold import_loop. cbn [bind]. fold T. rewrite Hstrict.
  set (errors0 := fold_left (fun e k => dict_set e k (ErrText "Rogue field"))
                            (rogue_fields cls ctx d) ([] : errors_t)).
  assert (H0 : dict_get errors0 k <> None).
  { apply rogue_errors_has. left. unfold rogue_fields.
    apply list_elem_of_In, list_elem_of_filter. split.
    - apply negb_prop_intro. intros Hin. apply Is_true_eq_true, key_in_spec in Hin. tauto.
    - apply list_elem_of_In, Hk. }
  destruct (import_fold_spec conv ctx d T (_fields cls) Hnd Hcaught T errors0)
    as (data & errors & Hfold & _ & _ & _ & Hmono & _); [reflexivity|].
  rewrite Hfold. cbn [bind]. specialize (Hmono k H0).
  destruct errors as [|e errors']; [contradiction Hmono; reflexivity|].
  eexists _, _. split; [reflexivity | exact Hmono].
Qed.

Lemma X7_import_strict_rogue_key_witness :
  exists errors partial_data,
    import_loop (sample_model 10 ∅ None)
      (VDict [(KStr "unknown_key", VInt 1); (KStr "a", VStr "x")])
      import_converter None
      {| mapping := Mapping [] None; partial := false; strict := true;
         init_values := false; apply_defaults := false;
         role := None; raise_error_on_role := true; export_level := None |}
    = Raise (DataError errors partial_data)
    /\ dict_get errors (KStr "unknown_key") <> None.
Proof.
  apply (X7_import_strict_rogue_key (sample_model 10 ∅ None)
           [(KStr "unknown_key", VInt 1); (KStr "a", VStr "x")]
           import_converter None _ (KStr "unknown_key")).
  - apply (bool_decide_unpack _). vm_compute. exact I.
  - intros nf e [<-|[<-|[]]]; vm_compute; intros [= Heq]; rewrite <- Heq; reflexivity.
  - reflexivity.
  - left. reflexivity.
  - vm_compute. intros [H|[H|[]]]; discriminate H.
Defined.

(** X8.  When the mode is not strict and no converter fails, the import
    succeeds, and the data it returns hold for every field the value it
    was converted to, or what the trusted data held when the field was
    passed over; the other entries of the trusted data are kept. *)
Theorem X8_import_success :
  forall cls d conv trusted ctx,
    let T := match trusted with Some t => t | None => [] end in
    NoDup (map fst (_fields cls)) ->
    strict ctx = false ->
    (forall nf e, In nf (_fields cls) -> field_outcome conv ctx d T nf <> Some (Raise e)) ->
    exists data,
      import_loop cls (VDict d) conv trusted ctx = Ok data
      /\ (forall nf, In nf (_fields cls) ->
            dict_get data (KStr (fst nf))
            = data_after (field_outcome conv ctx d T nf) (dict_get T (KStr (fst nf))))
      /\ (forall k, ~ In k (map (fun nf => KStr (fst nf)) (_fields cls)) ->
            dict_get data k = dict_get T k).
Proof.
  intros cls d conv trusted ctx T Hnd Hstrict Hok.
  unfold import_loop. cbn [bind]. fold T. rewrite Hstrict.
  destruct (import_fold_spec conv ctx d T (_fields cls) Hnd) with (data := T)
    (errors := @nil (key * errval))
    as (data & errors & Hfold & Hget & Hother & _ & _ & Horigin).
  - intros nf e Hin Ho. exfalso. exact (Hok nf e Hin Ho).
  - reflexivity.
  - rewrite Hfold. cbn [bind].
    destruct errors as [|[k x] errors'].
    + exists data. repeat split; assumption.
    + exfalso. destruct (Horigin k x) as [H|(nf & e & Hin & Ho & _)].
      * simpl. destruct (decide (k = k)); congruence.
      * discriminate H.
      * exact (Hok nf e Hin Ho).
Qed.

Lemma X8_import_success_witness :
  exists data,
    import_loop (sample_model 10 ∅ None)
      (VDict [(KStr "a", VStr "x"); (KStr "zzz", VInt 0)])
      import_converter None sample_context = Ok data
    /\ dict_get data (KStr "a") = Some (VStr "x").
Proof.
  destruct (X8_import_success (sample_model 10 ∅ None)
              [(KStr "a", VStr "x"); (KStr "zzz", VInt 0)]
              import_converter None sample_context)
    as (data & Hloop & Hget & _).
  - apply (bool_decide_unpack _). vm_compute. exact I.
  - reflexivity.
  - intros nf e [<-|[<-|[]]]; vm_compute; discriminate.
  - exists data. split; [exact Hloop|].
    apply (Hget ("a", text_field 10)). left. reflexivity.
Defined.

(** ** Further properties: roles *)

Lemma size_list_to_set_pos (names : list string) :
  names <> [] -> (0 < size (list_to_set names : gset string))%nat.
Proof.
  destruct names as [|x l]; [congruence|]. intros _.
  enough (size (list_to_set (x :: l) : gset string) <> 0%nat) by lia.
  apply size_non_empty_iff. intros H.
  assert (Hx : x ∈ (list_to_set (x :: l) : gset string)) by set_solver.
  rewrite H in Hx. set_solver.
Qed.

(** X9.  A wholelist role keeps every field; a whitelist role built from
    at least one name skips exactly the fields whose name is not among
    them; a blacklist role skips exactly the fields whose name is among its
    names. *)
Theorem X9_role_filters :
  forall names n v,
    Role.call (Role.wholelist names) n v = false
    /\ (names <> [] -> (Role.call (Role.whitelist names) n v = true <-> ~ In n names))
    /\ (Role.call (Role.blacklist names) n v = true <-> In n names).
Proof.
  intros names n v. split; [reflexivity|]. split.
  - intros Hne. unfold Role.call, Role.whitelist, Role.init. cbn.
    rewrite (bool_decide_eq_true_2 _ (size_list_to_set_pos names Hne)).
    rewrite negb_true_iff, bool_decide_eq_false, elem_of_list_to_set, list_elem_of_In.
    reflexivity.
  - unfold Role.call, Role.blacklist, Role.init. cbn.
    destruct names as [|x l].
    + cbn. rewrite size_empty. cbn. split; [discriminate | tauto].
    + assert (Hne : x :: l <> []) by discriminate.
      rewrite (bool_decide_eq_true_2 _ (size_list_to_set_pos (x :: l) Hne)).
      rewrite bool_decide_eq_true, elem_of_list_to_set, list_elem_of_In. reflexivity.
Qed.

Lemma X9_role_filters_witness :
  Role.call (Role.whitelist ["a"; "b"]) "c" VNone = true <-> ~ In "c" ["a"; "b"].
Proof.
  apply (proj1 (proj2 (X9_role_filters ["a"; "b"] "c" VNone))). discriminate.
Defined.

(** X10.  Adding to a role names it already has, and taking away names it
    does not have, gives a new role equal to it. *)
Theorem X10_role_union_difference_noop :
  forall st self r other,
    st !! self = Some r ->
    (Forall (fun n => n ∈ Role.fields r) other ->
     exists st' new r',
       Role.__add__ st self other = Some (st', new)
       /\ st' !! new = Some r' /\ Role.__eq__ r' r = true)
    /\ (Forall (fun n => n ∉ Role.fields r) other ->
        exists st' new r',
          Role.__sub__ st self other = Some (st', new)
          /\ st' !! new = Some r' /\ Role.__eq__ r' r = true).
Proof.
  intros st self r other Hr. split; intros Hother.
  - unfold Role.__add__. rewrite Hr. unfold Role._from_iterable.
    rewrite Role_init_fields.
    destruct (Role.alloc st _) as [st' new] eqn:Ha.
    apply Role_alloc_spec in Ha as (Hnew & _ & _).
    eexists st', new, _. split; [reflexivity|]. split; [exact Hnew|].
    apply Role_eq_spec. split; [reflexivity|]. cbn.
    rewrite Forall_forall in Hother. apply set_eq. intros x.
    rewrite elem_of_union, elem_of_list_to_set. split; [|tauto].
    intros [H|H]; [exact H | apply Hother, H].
  - unfold Role.__sub__. rewrite Hr. unfold Role._from_iterable.
    rewrite Role_init_fields.
    destruct (Role.alloc st _) as [st' new] eqn:Ha.
    apply Role_alloc_spec in Ha as (Hnew & _ & _).
    eexists st', new, _. split; [reflexivity|]. split; [exact Hnew|].
    apply Role_eq_spec. split; [reflexivity|]. cbn.
    rewrite Forall_forall in Hother. apply set_eq. intros x.
    rewrite elem_of_difference, elem_of_list_to_set. split; [tauto|].
    intros H. split; [exact H|]. intros Hx. exact (Hother x Hx H).
Qed.

Lemma X10_role_union_difference_noop_witness :
  exists st' new r',
    Role.__add__ [Role.whitelist ["a"; "b"]] 0 ["a"] = Some (st', new)
    /\ st' !! new = Some r' /\ Role.__eq__ r' (Role.whitelist ["a"; "b"]) = true.
Proof.
  apply (proj1 (X10_role_union_difference_noop [Role.whitelist ["a"; "b"]] 0%nat
                  (Role.whitelist ["a"; "b"]) ["a"] eq_refl)).
  apply List.Forall_cons; [|apply List.Forall_nil].
  apply (bool_decide_unpack _). vm_compute. exact I.
Defined.

(** X11.  As a set, a role iterates over each of its names once, holds
    exactly the names it iterates over, and has as many names as it
    iterates over. *)
Theorem X11_role_set_protocol :
  forall r n,
    NoDup (Role.__iter__ r)
    /\ (Role.__contains__ r n = true <-> In n (Role.__iter__ r))
    /\ Role.__len__ r = length (Role.__iter__ r).
Proof.
  intros r n. unfold Role.__iter__, Role.__contains__, Role.__len__. split; [|split].
  - apply NoDup_elements.
  - rewrite bool_decide_eq_true, <- list_elem_of_In, elem_of_elements. reflexivity.
  - reflexivity.
Qed.

(** ** Further properties: converters and compound types *)

(** X12.  The converters of [to_native] and [to_primitive] export every
    field in their own format.  The converter of [to_dict] exports in the
    native format every field whose class does not derive from
    [ModelType], and a field whose class does in the other format: the
    primitive one, when the two formats are 0 and 1. *)
Theorem X12_export_converter_formats :
  forall K f v ctx,
    ExportConverter.call (_to_native_converter K) f v ctx
    = Field.export f v (NATIVE K) ctx
    /\ ExportConverter.call (_to_primitive_converter K) f v ctx
       = Field.export f v (PRIMITIVE K) ctx
    /\ (~ In "ModelType" (Field.typeclass_mro f) ->
        ExportConverter.call (_to_dict_converter K) f v ctx
        = Field.export f v (NATIVE K) ctx)
    /\ (In "ModelType" (Field.typeclass_mro f) -> NATIVE K = 0 -> PRIMITIVE K = 1 ->
        ExportConverter.call (_to_dict_converter K) f v ctx
        = Field.export f v (PRIMITIVE K) ctx).
Proof.
  intros K f v ctx. split; [reflexivity|]. split; [reflexivity|].
  unfold ExportConverter.call, _to_dict_converter, ExportConverter.init. cbn.
  rewrite orb_false_r. split.
  - intros Hno. rewrite bool_decide_eq_false_2; [reflexivity|].
    rewrite list_elem_of_In. exact Hno.
  - intros Hin Hn Hp. rewrite bool_decide_eq_true_2 by (apply list_elem_of_In, Hin).
    rewrite Hn, Hp. reflexivity.
Qed.

Lemma X12_export_converter_formats_witness :
  ExportConverter.call (_to_dict_converter sample_constants) nested_field (VInt 1)
    sample_context
  = Field.export nested_field (VInt 1) (PRIMITIVE sample_constants) sample_context.
Proof.
  apply (proj2 (proj2 (proj2 (X12_export_converter_formats sample_constants nested_field
                                (VInt 1) sample_context)))).
  - left. reflexivity.
  - reflexivity.
  - reflexivity.
Defined.

(** X13.  [check_length] accepts a list exactly when its length is not
    below the configured minimum and not above the configured maximum, and
    fails with a validation error otherwise. *)
Theorem X13_check_length_bounds :
  forall self l,
    let n := Z.of_nat (length l) in
    let within :=
      (forall mn, ListType.min_size self = Some mn -> mn <= n)
      /\ (forall mx, ListType.max_size self = Some mx -> n <= mx) in
    (ListType.check_length self l = Ok tt <-> within)
    /\ (~ within -> exists msg, ListType.check_length self l = Raise (ValidationError msg)).
Proof.
  intros self l n within. subst within. unfold ListType.check_length. fold n.
  destruct (ListType.min_size self) as [mn|], (ListType.max_size self) as [mx|]; cbn [bind].
  - destruct (Z.ltb_spec n mn); cbn [bind]; [|destruct (Z.ltb_spec mx n)].
    + split; [split; [discriminate|] | intros _; eauto].
      intros [H1 _]. specialize (H1 mn eq_refl). lia.
    + split; [split; [discriminate|] | intros _; eauto].
      intros [_ H2]. specialize (H2 mx eq_refl). lia.
    + split; [split; [intros _|reflexivity] | intros Hno; exfalso; apply Hno];
        split; intros ? [= <-]; lia.
  - destruct (Z.ltb_spec n mn); cbn [bind].
    + split; [split; [discriminate|] | intros _; eauto].
      intros [H1 _]. specialize (H1 mn eq_refl). lia.
    + split; [split; [intros _|reflexivity] | intros Hno; exfalso; apply Hno];
        (split; [intros ? [= <-]; lia | discriminate]).
  - destruct (Z.ltb_spec mx n).
    + split; [split; [discriminate|] | intros _; eauto].
      intros [_ H2]. specialize (H2 mx eq_refl). lia.
    + split; [split; [intros _|reflexivity] | intros Hno; exfalso; apply Hno];
        (split; [discriminate | intros ? [= <-]; lia]).
  - split; [split; [intros _|reflexivity] | intros Hno; exfalso; apply Hno];
      (split; discriminate).
Qed.

Lemma X13_check_length_bounds_witness :
  exists msg,
    ListType.check_length
      {| ListType.field := text_field 10; ListType.min_size := Some 2;
         ListType.max_size := Some 3 |}
      [VInt 1]
    = Raise (ValidationError msg).
Proof.
  apply (proj2 (X13_check_length_bounds
                  {| ListType.field := text_field 10; ListType.min_size := Some 2;
                     ListType.max_size := Some 3 |} [VInt 1])).
  intros [H _]. specialize (H 2 eq_refl). simpl in H. lia.
Defined.

Lemma list_convert_items_spec conv self ctx (items : list value) :
  (forall item e, In item items ->
     conv (ListType.field self) item ctx = Raise e -> is_BaseError e = true) ->
  forall j data errors,
    exists errors',
      ListType.convert_items conv self ctx items j data errors
      = Ok (data ++ converted_items conv (ListType.field self) ctx items, errors')
      /\ (forall (i : nat) item, items !! i = Some item ->
            dict_get errors' (KInt (j + Z.of_nat i))
            = match item_error conv (ListType.field self) ctx item with
              | Some x => Some x
              | None => dict_get errors (KInt (j + Z.of_nat i))
              end)
      /\ (forall k, (forall i : nat, (i < length items)%nat -> k <> KInt (j + Z.of_nat i)) ->
            dict_get errors' k = dict_get errors k).
Proof.
  induction items as [|x items IH]; intros Hbase j data errors.
  - exists errors. cbn. rewrite app_nil_r. repeat split. intros i item H. discriminate H.
  - assert (Hbase' : forall item e, In item items ->
              conv (ListType.field self) item ctx = Raise e -> is_BaseError e = true).
    { intros item e Hin. apply Hbase. right. exact Hin. }
    cbn [ListType.convert_items converted_items].
    destruct (conv (ListType.field self) x ctx) as [v|e] eqn:Ex.
    + destruct (IH Hbase' (j + 1) (data ++ [v]) errors) as (errors' & Hrun & Hget & Hother).
      exists errors'. rewrite Hrun, <- app_assoc. split; [reflexivity|]. split.
      * intros [|i] item Hi.
        -- injection Hi as <-. unfold item_error. rewrite Ex.
           apply Hother. intros i _ [= H]. lia.
        -- replace (j + Z.of_nat (S i)) with (j + 1 + Z.of_nat i) by lia.
           apply Hget, Hi.
      * intros k Hk. apply Hother. intros i Hi.
        replace (j + 1 + Z.of_nat i) with (j + Z.of_nat (S i)) by lia.
        apply Hk. simpl. lia.
    + rewrite (Hbase x e (or_introl eq_refl) Ex).
      destruct (IH Hbase' (j + 1) data (dict_set errors (KInt j) (ErrExc e)))
        as (errors' & Hrun & Hget & Hother).
      exists errors'. rewrite Hrun. split; [reflexivity|]. split.
      * intros [|i] item Hi.
        -- injection Hi as <-. unfold item_error. rewrite Ex.
           rewrite Hother by (intros i _ [= H]; lia).
           replace (j + Z.of_nat 0) with j by lia. apply dict_get_set_eq.
        -- replace (j + Z.of_nat (S i)) with (j + 1 + Z.of_nat i) by lia.
           rewrite (Hget i item Hi). destruct (item_error _ _ _ item); [reflexivity|].
           apply dict_get_set_ne. intros [= H]. lia.
      * intros k Hk. rewrite Hother.
        -- apply dict_get_set_ne. intros <-. apply (Hk 0%nat); [simpl; lia|].
           f_equal. lia.
        -- intros i Hi. replace (j + 1 + Z.of_nat i) with (j + Z.of_nat (S i)) by lia.
           apply Hk. simpl. lia.
Qed.

(** X14.  [ListType.convert] converts every item with the field converter,
    going on after an item that fails.  When no item fails it returns the
    converted items in order; when some item fails it raises a
    [CompoundError] whose mapping holds, under the position of every item
    that failed, the error of that item, and nothing under the position of
    an item that was converted. *)
Theorem X14_list_convert_items :
  forall conv self val val' ctx items,
    ListType._coerce val = Ok val' ->
    iterate val' = Ok items ->
    (forall item e, In item items ->
       conv (ListType.field self) item ctx = Raise e -> is_BaseError e = true) ->
    (Forall (fun item => item_error conv (ListType.field self) ctx item = None) items ->
     ListType.convert conv self val ctx
     = Ok (converted_items conv (ListType.field self) ctx items)
     /\ length (converted_items conv (ListType.field self) ctx items) = length items)
    /\ (Exists (fun item => item_error conv (ListType.field self) ctx item <> None) items ->
        exists errors,
          ListType.convert conv self val ctx = Raise (CompoundError errors)
          /\ forall (i : nat) item, items !! i = Some item ->
               dict_get errors (KInt (Z.of_nat i))
               = item_error conv (ListType.field self) ctx item).
Proof.
  intros conv self val val' ctx items Hco Hit Hbase.
  destruct (list_convert_items_spec conv self ctx items Hbase 0 [] [])
    as (errors & Hrun & Hget & _).
  unfold ListType.convert. rewrite Hco. cbn [bind]. rewrite Hit. cbn [bind].
  rewrite Hrun. cbn [bind app fst snd].
  assert (Hget' : forall (i : nat) item, items !! i = Some item ->
            dict_get errors (KInt (Z.of_nat i))
            = item_error conv (ListType.field self) ctx item).
  { intros i item Hi. specialize (Hget i item Hi).
    replace (0 + Z.of_nat i) with (Z.of_nat i) in Hget by lia. rewrite Hget.
    destruct (item_error _ _ _ item); reflexivity. }
  split.
  - intros Hall. destruct errors as [|[k x] errors'].
    + split; [reflexivity|]. clear Hrun Hget Hget' Hit.
      induction Hall as [|x items Hx Hall IH]; [reflexivity|].
      cbn [converted_items]. unfold item_error in Hx.
      destruct (conv (ListType.field self) x ctx); [|discriminate Hx].
      cbn [length]. f_equal. apply IH. intros item e Hin. apply Hbase. right. exact Hin.
    + exfalso.
      destruct (list_convert_items_spec conv self ctx items Hbase 0 [] [])
        as (errors2 & Hrun2 & Hget2 & Hother2).
      rewrite Hrun in Hrun2. injection Hrun2 as <-.
      assert (Hk : dict_get ((k, x) :: errors') k = Some x)
        by (simpl; destruct (decide (k = k)); congruence).
      destruct k as [z|s].
      * destruct (decide (0 <= z < Z.of_nat (length items))) as [Hz|Hz].
        -- assert (Hi : (Z.to_nat z < length items)%nat) by lia.
           destruct (lookup_lt_is_Some_2 items _ Hi) as [item Hitem].
           pose proof (Hget' _ item Hitem) as Hgi.
           replace (Z.of_nat (Z.to_nat z)) with z in Hgi by lia.
           rewrite Hgi in Hk. rewrite Forall_forall in Hall.
           rewrite (Hall item (list_elem_of_lookup_2 _ _ _ Hitem)) in Hk. discriminate Hk.
        -- rewrite Hother2 in Hk; [discriminate Hk|].
           intros i Hi [= ->]. lia.
      * rewrite Hother2 in Hk; [discriminate Hk|]. intros i Hi. discriminate.
  - intros Hex. destruct errors as [|kx errors'].
    + exfalso. apply Exists_exists in Hex as (item & Hin & Hne).
      apply list_elem_of_lookup_1 in Hin as [i Hi].
      rewrite <- (Hget' i item Hi) in Hne. apply Hne. reflexivity.
    + eexists. split; [reflexivity | exact Hget'].
Qed.

Lemma X14_list_convert_items_witness :
  ListType.convert import_converter
    {| ListType.field := text_field 10; ListType.min_size := None;
       ListType.max_size := None |}
    (RSequence [VStr "a"; VStr "b"]) sample_context
  = Ok (converted_items import_converter (text_field 10) sample_context [VStr "a"; VStr "b"]).
Proof.
  apply (proj1 (proj1 (X14_list_convert_items import_converter
                         {| ListType.field := text_field 10; ListType.min_size := None;
                            ListType.max_size := None |}
                         (RSequence [VStr "a"; VStr "b"]) (RSequence [VStr "a"; VStr "b"])
                         sample_context [VStr "a"; VStr "b"] eq_refl eq_refl
                         ltac:(intros item e [<-|[<-|[]]]; discriminate))
                  ltac:(repeat constructor))).
Defined.

Lemma list_export_items_spec K self format ctx level (items shaped : list value) :
  Forall2 (fun v s => Field.export (ListType.field self) v format ctx = Ok s) items shaped ->
  (Field.is_compound (ListType.field self) = true -> Forall sized shaped) ->
  forall data,
    ListType.export_items K self format ctx level items data
    = Ok (data ++ List.filter (kept_on_export K level (Field.is_compound (ListType.field self)))
                    shaped).
Proof.
  intros H2. induction H2 as [|v s items shaped Hv H2 IH]; intros Hsized data.
  - cbn. rewrite app_nil_r. reflexivity.
  - cbn [ListType.export_items List.filter]. rewrite Hv. cbn [bind].
    assert (Hskip :
      match s with
      | VNone => Ok (level <=? NOT_NONE K)
      | _ =>
          if Field.is_compound (ListType.field self)
          then do n <- len s; Ok (if (n =? 0)%nat then level <=? NONEMPTY K else false)
          else Ok false
      end = Ok (negb (kept_on_export K level (Field.is_compound (ListType.field self)) s))).
    { unfold kept_on_export. destruct (Field.is_compound (ListType.field self)) eqn:Hc.
      - specialize (Hsized eq_refl). apply Forall_cons in Hsized as [[->|[n Hn]] _].
        + rewrite negb_involutive. reflexivity.
        + destruct s; try (rewrite negb_involutive; reflexivity);
            rewrite Hn; cbn [bind]; destruct n; cbn; rewrite ?negb_involutive; reflexivity.
      - destruct s; try reflexivity. rewrite negb_involutive. reflexivity. }
    rewrite Hskip. cbn [bind].
    assert (Hsized' : Field.is_compound (ListType.field self) = true -> Forall sized shaped).
    { intros Hc. specialize (Hsized Hc). apply Forall_cons in Hsized as [_ H]. exact H. }
    rewrite (IH Hsized').
    destruct (kept_on_export K level _ s); cbn [negb]; [rewrite <- app_assoc|]; reflexivity.
Qed.

(** X15.  [ListType.export] returns the empty list when the export level
    of the inner field is [DROP]; otherwise, when every item can be
    exported (and, for a compound inner field, has a length), it returns
    the exported items in order, without those that are [None] at a level
    not above [NOT_NONE] and, for a compound inner field, without the
    empty ones at a level not above [NONEMPTY].  At a level not above
    [NOT_NONE] no item of the result is [None]. *)
Theorem X15_list_export :
  forall K self items format ctx,
    let level := Field.get_export_level (ListType.field self) ctx in
    let compound := Field.is_compound (ListType.field self) in
    (level = DROP K -> ListType.export K self items format ctx = Ok [])
    /\ (forall shaped,
          level <> DROP K ->
          Forall2 (fun v s => Field.export (ListType.field self) v format ctx = Ok s)
                  items shaped ->
          (compound = true -> Forall sized shaped) ->
          ListType.export K self items format ctx
          = Ok (List.filter (kept_on_export K level compound) shaped)
          /\ (level <= NOT_NONE K ->
              ~ In VNone (List.filter (kept_on_export K level compound) shaped))).
Proof.
  intros K self items format ctx level compound. subst level compound.
  unfold ListType.export. split.
  - intros ->. rewrite Z.eqb_refl. reflexivity.
  - intros shaped Hne H2 Hsized. apply Z.eqb_neq in Hne. rewrite Hne. split.
    + rewrite (list_export_items_spec K self format ctx _ items shaped H2 Hsized).
      reflexivity.
    + intros Hle Hin. apply filter_In in Hin as [_ Hkept]. cbn in Hkept.
      apply Z.leb_le in Hle. rewrite Hle in Hkept. discriminate Hkept.
Qed.

Lemma X15_list_export_witness :
  ListType.export sample_constants
    {| ListType.field := text_field 2; ListType.min_size := None;
       ListType.max_size := None |}
    [VStr "a"; VNone; VStr ""] 1 sample_context
  = Ok (List.filter (kept_on_export sample_constants 2 false) [VStr "a"; VNone; VStr ""]).
Proof.
  apply (proj2 (X15_list_export sample_constants
                  {| ListType.field := text_field 2; ListType.min_size := None;
                     ListType.max_size := None |}
                  [VStr "a"; VNone; VStr ""] 1 sample_context)
           [VStr "a"; VNone; VStr ""]).
  - discriminate.
  - repeat constructor.
  - discriminate.
Defined.

(** X16.  Without a claim function, the class that [find_model] chooses is
    one of the candidates: either one whose hook claims the input, or,
    when no hook claims it, the first candidate without a hook. *)
Theorem X16_find_model_among_candidates :
  forall self data c,
    PolyModelType.claim_function self = None ->
    PolyModelType.find_model self data = Ok c ->
    In c (PolyModelType.candidates self)
    /\ (claims data c = true
        \/ (List.filter (claims data) (PolyModelType.candidates self) = []
            /\ List.find no_hook (PolyModelType.candidates self) = Some c)).
Proof.
  intros self data c Hclaim. unfold PolyModelType.find_model.
  rewrite Hclaim, scan_candidates. cbn [app].
  destruct (List.filter (claims data) (PolyModelType.candidates self))
    as [|c1 [|c2 l]] eqn:Hm.
  - destruct (List.find no_hook (PolyModelType.candidates self)) as [f|] eqn:Hf;
      cbn [bind]; [|discriminate].
    intros [= <-]. split; [|right; split; reflexivity].
    apply find_some in Hf as [Hin _]. exact Hin.
  - cbn [bind]. intros [= <-].
    assert (Hin : In c1 (List.filter (claims data) (PolyModelType.candidates self)))
      by (rewrite Hm; left; reflexivity).
    apply filter_In in Hin as [Hin Hc]. split; [exact Hin | left; exact Hc].
  - cbn [bind]. discriminate.
Qed.

Lemma X16_find_model_among_candidates_witness :
  In Dog (PolyModelType.candidates pets)
  /\ (claims [(KStr "bark", VStr "woof")] Dog = true
      \/ (List.filter (claims [(KStr "bark", VStr "woof")]) (PolyModelType.candidates pets) = []
          /\ List.find no_hook (PolyModelType.candidates pets) = Some Dog)).
Proof.
  apply (X16_find_model_among_candidates pets [(KStr "bark", VStr "woof")] Dog);
    reflexivity.
Defined.

(** X17.  [PolyModelType.convert] returns an instance of an allowed model
    as it is; on an input that is not [None], not an allowed instance and
    not a [dict], it fails with a conversion error when the field has at
    least one model class; on a [dict] it returns the construction of the
    class that [find_model] chooses, and fails as [find_model] fails. *)
Theorem X17_poly_convert_cases :
  forall self val,
    (PolyModelType.is_allowed_model self val = true ->
     PolyModelType.convert self val = Ok (PolyModelType.CSame val))
    /\ (val <> RNone ->
        PolyModelType.is_allowed_model self val = false ->
        isinstance_dict val = false ->
        PolyModelType.model_classes self <> [] ->
        exists msg, PolyModelType.convert self val = Raise (ConversionError msg))
    /\ (forall has_reversed d,
          val = RMapping true has_reversed d ->
          PolyModelType.convert self val
          = match PolyModelType.find_model self d with
            | Ok c => Ok (PolyModelType.CNew c d)
            | Raise e => Raise e
            end).
Proof.
  intros self val. split; [|split].
  - intros Ha. destruct val; try discriminate Ha.
    unfold PolyModelType.convert. rewrite Ha. reflexivity.
  - intros Hnone Ha Hd Hcls. unfold PolyModelType.convert.
    destruct (PolyModelType.model_classes self) as [|c [|c' l]] eqn:Hm; [congruence| |].
    + destruct val as [| | | |[|] ? ?| |]; try congruence; try discriminate Hd;
        rewrite ?Ha; cbn; eexists; reflexivity.
    + destruct val as [| | | |[|] ? ?| |]; try congruence; try discriminate Hd;
        rewrite ?Ha; cbn; eexists; reflexivity.
  - intros has_reversed d ->. unfold PolyModelType.convert.
    cbn [PolyModelType.is_allowed_model].
    destruct (PolyModelType.find_model self d); reflexivity.
Qed.

Lemma X17_poly_convert_cases_witness :
  exists msg, PolyModelType.convert pets (RText "woof") = Raise (ConversionError msg).
Proof.
  apply (proj1 (proj2 (X17_poly_convert_cases pets (RText "woof"))));
    try reflexivity; discriminate.
Defined.

Lemma dict_convert_items_spec conv self ctx (items : dict) :
  NoDup (dict_keys items) ->
  (forall k v e, In (k, v) items ->
     conv (DictType.field self) v ctx = Raise e -> is_BaseError e = true) ->
  forall data errors,
    exists data' errors',
      DictType.convert_items conv self ctx items data errors = Ok (data', errors')
      /\ (forall k v, In (k, v) items ->
            dict_get errors' k
            = match item_error conv (DictType.field self) ctx v with
              | Some x => Some x
              | None => dict_get errors k
              end)
      /\ (forall k, ~ In k (dict_keys items) -> dict_get errors' k = dict_get errors k)
      /\ (forall kk, (forall k v, In (k, v) items -> DictType.coerce_key self k <> kk) ->
            dict_get data' kk = dict_get data kk)
      /\ (forall k v v', In (k, v) items ->
            conv (DictType.field self) v ctx = Ok v' ->
            (forall k2 v2, In (k2, v2) items ->
               DictType.coerce_key self k2 = DictType.coerce_key self k -> k2 = k) ->
            dict_get data' (DictType.coerce_key self k) = Some v').
Proof.
  induction items as [|[k0 v0] items IH]; intros Hnd Hbase data errors.
  - exists data, errors. cbn. repeat split; intros; tauto.
  - cbn [dict_keys map fst] in Hnd. apply NoDup_cons in Hnd as [Hk0 Hnd].
    rewrite list_elem_of_In in Hk0.
    assert (Hbase' : forall k v e, In (k, v) items ->
              conv (DictType.field self) v ctx = Raise e -> is_BaseError e = true).
    { intros k v e Hin. apply (Hbase k v e). right. exact Hin. }
    assert (Hfresh : forall k v, In (k, v) items -> k <> k0).
    { intros k v Hin ->. apply Hk0. apply (in_map fst) in Hin. exact Hin. }
    cbn [DictType.convert_items].
    destruct (conv (DictType.field self) v0 ctx) as [v0'|e] eqn:E0.
    + destruct (IH Hnd Hbase' (dict_set data (DictType.coerce_key self k0) v0') errors)
        as (data' & errors' & Hrun & Herr & Herr_other & Hdata_other & Hdata).
      exists data', errors'. split; [exact Hrun|]. split; [|split; [|split]].
      * intros k v [[= <- <-]|Hin]; [|apply Herr, Hin].
        unfold item_error. rewrite E0. apply Herr_other, Hk0.
      * intros k Hk. apply Herr_other. intros Hin. apply Hk. right. exact Hin.
      * intros kk Hkk. rewrite Hdata_other.
        -- apply dict_get_set_ne. apply (Hkk k0 v0). left. reflexivity.
        -- intros k v Hin. apply (Hkk k v). right. exact Hin.
      * intros k v v' [[= <- <-]|Hin] Hv Hinj.
        -- rewrite Hdata_other.
           ++ rewrite dict_get_set_eq. congruence.
           ++ intros k v Hin Heq. apply (Hfresh k v Hin).
              apply (Hinj k v); [right; exact Hin | exact Heq].
        -- apply (Hdata k v v' Hin Hv). intros k2 v2 Hin2. apply (Hinj k2 v2).
           right. exact Hin2.
    + rewrite (Hbase k0 v0 e (or_introl eq_refl) E0).
      destruct (IH Hnd Hbase' data (dict_set errors k0 (ErrExc e)))
        as (data' & errors' & Hrun & Herr & Herr_other & Hdata_other & Hdata).
      exists data', errors'. split; [exact Hrun|]. split; [|split; [|split]].
      * intros k v [[= <- <-]|Hin].
        -- unfold item_error. rewrite E0. rewrite Herr_other by exact Hk0.
           apply dict_get_set_eq.
        -- rewrite (Herr k v Hin). destruct (item_error _ _ _ v); [reflexivity|].
           apply dict_get_set_ne. intros <-. exact (Hfresh k0 v Hin eq_refl).
      * intros k Hk. rewrite Herr_other.
        -- apply dict_get_set_ne. intros <-. apply Hk. left. reflexivity.
        -- intros Hin. apply Hk. right. exact Hin.
      * intros kk Hkk. apply Hdata_other. intros k v Hin. apply (Hkk k v). right. exact Hin.
      * intros k v v' [[= <- <-]|Hin] Hv Hinj; [congruence|].
        apply (Hdata k v v' Hin Hv). intros k2 v2 Hin2. apply (Hinj k2 v2).
        right. exact Hin2.
Qed.

(** X18.  [DictType.convert] refuses what is not a [dict] with a
    conversion error.  On a [dict] it converts every value, going on after
    a value that fails: when no value fails the result holds each
    converted value under the coerced key of its entry (for a key whose
    coerced key no other key of the input shares); when some value fails
    it raises a [CompoundError] whose mapping holds, under the key of every
    entry, the error of its value when it failed and nothing when it was
    converted. *)
Theorem X18_dict_convert :
  forall conv self ctx,
    (forall val, isinstance_dict val = false ->
       exists msg, DictType.convert conv self val ctx = Raise (ConversionError msg))
    /\ (forall has_reversed m,
          NoDup (dict_keys m) ->
          (forall k v e, In (k, v) m ->
             conv (DictType.field self) v ctx = Raise e -> is_BaseError e = true) ->
          (Forall (fun kv => item_error conv (DictType.field self) ctx (snd kv) = None) m ->
           exists data,
             DictType.convert conv self (RMapping true has_reversed m) ctx = Ok data
             /\ forall k v v', In (k, v) m ->
                  conv (DictType.field self) v ctx = Ok v' ->
                  (forall k2 v2, In (k2, v2) m ->
                     DictType.coerce_key self k2 = DictType.coerce_key self k -> k2 = k) ->
                  dict_get data (DictType.coerce_key self k) = Some v')
          /\ (Exists (fun kv => item_error conv (DictType.field self) ctx (snd kv) <> None) m ->
              exists errors,
                DictType.convert conv self (RMapping true has_reversed m) ctx
                = Raise (CompoundError errors)
                /\ forall k v, In (k, v) m ->
                     dict_get errors k = item_error conv (DictType.field self) ctx v)).
Proof.
  intros conv self ctx. split.
  - intros val Hd. unfold DictType.convert.
    destruct val as [| | | |[|] ? ?| |]; try discriminate Hd; eexists; reflexivity.
  - intros has_reversed m Hnd Hbase.
    destruct (dict_convert_items_spec conv self ctx m Hnd Hbase [] [])
      as (data & errors & Hrun & Herr & Herr_other & _ & Hdata).
    unfold DictType.convert. rewrite Hrun. cbn [bind fst snd].
    assert (Herr' : forall k v, In (k, v) m ->
              dict_get errors k = item_error conv (DictType.field self) ctx v).
    { intros k v Hin. rewrite (Herr k v Hin).
      destruct (item_error _ _ _ v); reflexivity. }
    split.
    + intros Hall. destruct errors as [|[k x] errors'].
      * exists data. split; [reflexivity | exact Hdata].
      * exfalso.
        assert (Hk : dict_get ((k, x) :: errors') k = Some x)
          by (simpl; destruct (decide (k = k)); congruence).
        destruct (dict_get m k) as [v|] eqn:Ev.
        -- apply dict_get_Some_In in Ev. rewrite (Herr' k v Ev) in Hk.
           rewrite Forall_forall in Hall.
           pose proof (Hall (k, v) (proj2 (list_elem_of_In _ _) Ev)) as Hv. cbn [snd] in Hv.
           rewrite Hv in Hk. discriminate Hk.
        -- apply dict_get_None in Ev. rewrite (Herr_other k Ev) in Hk. discriminate Hk.
    + intros Hex. destruct errors as [|kx errors'].
      * exfalso. apply Exists_exists in Hex as ([k v] & Hin & Hne).
        apply list_elem_of_In in Hin. cbn [snd] in Hne.
        rewrite <- (Herr' k v Hin) in Hne. apply Hne. reflexivity.
      * eexists. split; [reflexivity | exact Herr'].
Qed.

Lemma X18_dict_convert_witness :
  exists msg,
    DictType.convert import_converter
      {| DictType.field := text_field 10; DictType.coerce_key := fun k => KStr (unicode k) |}
      (RList [VStr "a"]) sample_context
    = Raise (ConversionError msg).
Proof.
  apply (proj1 (X18_dict_convert import_converter
                  {| DictType.field := text_field 10;
                     DictType.coerce_key := fun k => KStr (unicode k) |}
                  sample_context)).
  reflexivity.
Defined.

(** ** Further properties: flatten and expand *)

Lemma Forall_dict_set {A} (Q : A -> Prop) (d : list (key * A)) k v :
  Forall (fun kv => Q (snd kv)) d -> Q v -> Forall (fun kv => Q (snd kv)) (dict_set d k v).
Proof.
  intros Hd Hv. induction Hd as [|[k0 v0] d H0 Hd IH]; simpl.
  - repeat constructor. exact Hv.
  - destruct (decide (k0 = k)); constructor; assumption.
Qed.

Lemma Forall_dict_update {A} (Q : A -> Prop) (sub : list (key * A)) : forall d,
  Forall (fun kv => Q (snd kv)) d -> Forall (fun kv => Q (snd kv)) sub ->
  Forall (fun kv => Q (snd kv)) (dict_update d sub).
Proof.
  induction sub as [|[k v] sub IH]; intros d Hd Hsub; [exact Hd|].
  apply Forall_cons in Hsub as [Hv Hsub]. unfold dict_update. cbn [fold_left fst snd].
  apply IH; [apply Forall_dict_set; assumption | exact Hsub].
Qed.

Lemma dict_update_NoDup {A} (sub : list (key * A)) : forall d,
  NoDup (dict_keys d) -> NoDup (dict_keys (dict_update d sub)).
Proof.
  induction sub as [|[k v] sub IH]; intros d Hd; [exact Hd|].
  unfold dict_update. cbn [fold_left fst snd]. apply IH, dict_set_NoDup, Hd.
Qed.

Lemma flat_ok_weaken flat ignore_none : flat_ok true flat -> flat_ok ignore_none flat.
Proof.
  intros [Hnd Hall]. split; [exact Hnd|].
  eapply Forall_impl; [exact Hall|]. intros kv [Hs Hn]. split; [exact Hs|].
  intros _. apply Hn. reflexivity.
Qed.

Lemma flatten_step_ok prefix ignore_none recur flat k v flat' :
  (forall p sub, recur p true = Ok sub -> flat_ok true sub) ->
  flat_ok ignore_none flat ->
  flatten_step prefix ignore_none recur flat k v = Ok flat' ->
  flat_ok ignore_none flat'.
Proof.
  intros Hrec [Hnd Hall] Hstep. unfold flatten_step in Hstep.
  set (k' := match prefix with
             | Some p => if key_truthy p then join_prefix p k else k
             | None => k
             end) in *.
  assert (Hset : forall x : value, scalar x -> none_allowed ignore_none x ->
                   flat_ok ignore_none (dict_set flat k' x)).
  { intros x Hx Hn. split; [apply dict_set_NoDup, Hnd|].
    apply (Forall_dict_set (fun v => scalar v /\ none_allowed ignore_none v));
      [exact Hall | split; assumption]. }
  assert (Hupd : forall sub, flat_ok true sub -> flat_ok ignore_none (dict_update flat sub)).
  { intros sub Hsub. apply (flat_ok_weaken _ ignore_none) in Hsub as [_ Hsub].
    split; [apply dict_update_NoDup, Hnd|].
    apply (Forall_dict_update (fun v => scalar v /\ none_allowed ignore_none v));
      assumption. }
  destruct v as [| |z|s|[|y l]|[|kv d]]; cbn iota in Hstep.
  - injection Hstep as <-. apply Hset; [exact I | discriminate].
  - destruct ignore_none; injection Hstep as <-; [split; assumption|].
    apply Hset; [exact I | discriminate].
  - injection Hstep as <-. apply Hset; [exact I | discriminate].
  - injection Hstep as <-. apply Hset; [exact I | discriminate].
  - injection Hstep as <-. apply Hset; [exact I | discriminate].
  - apply bind_Ok_inv in Hstep as (sub & Hsub & Hstep). injection Hstep as <-.
    apply Hupd. exact (Hrec _ _ Hsub).
  - injection Hstep as <-. apply Hset; [exact I | discriminate].
  - apply bind_Ok_inv in Hstep as (sub & Hsub & Hstep). injection Hstep as <-.
    apply Hupd. exact (Hrec _ _ Hsub).
Qed.

Lemma flatten_children_ok prefix ignore_none (ch : list (key * value)) :
  Forall (fun kv => forall p sub,
            flatten_to_dict (snd kv) p true = Ok sub -> flat_ok true sub) ch ->
  forall flat flat',
    flat_ok ignore_none flat ->
    flatten_children prefix ignore_none ch flat = Ok flat' ->
    flat_ok ignore_none flat'.
Proof.
  induction 1 as [|[k v] ch Hv Hch IH]; intros flat flat' Hflat Hrun.
  - injection Hrun as <-. exact Hflat.
  - unfold flatten_children in Hrun. cbn [foldM fst snd] in Hrun.
    apply bind_Ok_inv in Hrun as (flat1 & Hstep & Hrun).
    apply (IH flat1 flat'); [|exact Hrun].
    eapply flatten_step_ok; [|exact Hflat|exact Hstep]. exact Hv.
Qed.

Lemma flat_ok_nil ignore_none : flat_ok ignore_none [].
Proof. split; [apply NoDup_nil; exact I | constructor]. Qed.

Lemma flatten_ok (x : value) : forall prefix ignore_none flat,
  flatten_to_dict x prefix ignore_none = Ok flat -> flat_ok ignore_none flat.
Proof.
  induction x as [| |z|s|l IH|d IH] using value_ind'; intros prefix ignore_none flat;
    try discriminate.
  - (* a text: its characters *)
    cbn [flatten_to_dict].
    set (recur := fun (_ : option key) (_ : bool) => Ok (@nil (key * value))).
    assert (Hrec : forall p sub, recur p true = Ok sub -> flat_ok true sub).
    { intros p sub [= <-]. apply flat_ok_nil. }
    clearbody recur. generalize 0. generalize (flat_ok_nil ignore_none).
    generalize (@nil (key * value)).
    induction (Role.iter_str s) as [|c cs IHc]; intros acc Hacc i Hrun.
    + injection Hrun as <-. exact Hacc.
    + apply bind_Ok_inv in Hrun as (acc1 & Hstep & Hrun).
      apply (IHc acc1) in Hrun; [exact Hrun|].
      eapply flatten_step_ok; [exact Hrec|exact Hacc|exact Hstep].
  - rewrite flatten_list_unfold. apply flatten_children_ok; [|apply flat_ok_nil].
    apply (children_compound (VList l)
             (fun y => forall p sub, flatten_to_dict y p true = Ok sub -> flat_ok true sub)).
    eapply Forall_impl; [exact IH|]. intros y Hy p sub. apply Hy.
  - rewrite flatten_dict_unfold. apply flatten_children_ok; [|apply flat_ok_nil].
    eapply Forall_impl; [exact IH|]. intros kv Hy p sub. apply Hy.
Qed.

(** X19.  What [flatten_to_dict] returns is flat: its keys are distinct,
    none of its values is a list or a dictionary, and none is [None] when
    [ignore_none] is set. *)
Theorem X19_flatten_is_flat :
  forall x prefix ignore_none flat,
    flatten_to_dict x prefix ignore_none = Ok flat ->
    NoDup (dict_keys flat)
    /\ Forall (fun kv => scalar (snd kv)) flat
    /\ (ignore_none = true -> Forall (fun kv => snd kv <> VNone) flat).
Proof.
  intros x prefix ignore_none flat H. apply flatten_ok in H as [Hnd Hall].
  split; [exact Hnd|]. split.
  - eapply Forall_impl; [exact Hall|]. intros kv [Hs _]. exact Hs.
  - intros Hig. eapply Forall_impl; [exact Hall|]. intros kv [_ Hn]. apply Hn, Hig.
Qed.

Lemma X19_flatten_is_flat_witness :
  NoDup (dict_keys [(KStr "a.0", VInt 1); (KStr "b", VStr "{}")])
  /\ Forall (fun kv => scalar (snd kv)) [(KStr "a.0", VInt 1); (KStr "b", VStr "{}")]
  /\ (true = true ->
      Forall (fun kv => snd kv <> VNone) [(KStr "a.0", VInt 1); (KStr "b", VStr "{}")]).
Proof.
  apply (X19_flatten_is_flat
           (VDict [(KStr "a", VList [VInt 1; VNone]); (KStr "b", VDict [])]) None true).
  vm_compute. reflexivity.
Defined.

Lemma flatten_step_ignore_none prefix ignore_none recur flat k v :
  v <> VNone ->
  flatten_step prefix ignore_none recur flat k v = flatten_step prefix true recur flat k v.
Proof.
  intros Hv. unfold flatten_step.
  destruct v as [| |z|s|[|y l]|[|kv d]]; try reflexivity. contradiction.
Qed.

(** X20.  [ignore_none] only tells on the values of the top level: when
    none of them is [None], [flatten_to_dict] gives the same result
    whatever [ignore_none] is, so a [None] nested deeper is left out even
    with [ignore_none=False]. *)
Theorem X20_ignore_none_top_level_only :
  forall x prefix ignore_none,
    Forall (fun kv => snd kv <> VNone) (children x) ->
    flatten_to_dict x prefix ignore_none = flatten_to_dict x prefix true.
Proof.
  intros x prefix ignore_none Hch.
  assert (Hfold : forall ch, Forall (fun kv : key * value => snd kv <> VNone) ch ->
            forall flat, flatten_children prefix ignore_none ch flat
                         = flatten_children prefix true ch flat).
  { induction 1 as [|[k v] ch Hv _ IH]; intros flat; [reflexivity|].
    unfold flatten_children in *. cbn [foldM fst snd].
    rewrite (flatten_step_ignore_none prefix ignore_none) by exact Hv.
    destruct (flatten_step prefix true (flatten_to_dict v) flat k v) as [flat'|e];
      [|reflexivity].
    cbn [bind]. apply IH. }
  destruct x as [| |z|s|l|d]; try reflexivity.
  - rewrite !flatten_list_unfold. apply Hfold, Hch.
  - rewrite !flatten_dict_unfold. apply Hfold, Hch.
Qed.

Lemma X20_ignore_none_top_level_only_witness :
  flatten_to_dict (VDict [(KStr "a", VDict [(KStr "b", VNone); (KStr "c", VInt 1)])])
    None false
  = flatten_to_dict (VDict [(KStr "a", VDict [(KStr "b", VNone); (KStr "c", VInt 1)])])
      None true.
Proof.
  apply X20_ignore_none_top_level_only. repeat constructor. discriminate.
Defined.

Lemma dict_keys_map_snd {A B} (f : A -> B) (d : list (key * A)) :
  dict_keys (map (fun kv => (fst kv, f (snd kv))) d) = dict_keys d.
Proof. unfold dict_keys. rewrite map_map. reflexivity. Qed.

Lemma expand_leaves recur ctx (todo : dict) : forall done : dict,
  NoDup (dict_keys (done ++ todo)) ->
  Forall (fun kv => undotted (fst kv)) todo ->
  foldM (expand_step recur) todo (map (fun kv => (fst kv, decode (snd kv))) done, ctx)
  = Ok (map (fun kv => (fst kv, decode (snd kv))) (done ++ todo), ctx).
Proof.
  induction todo as [|[k v] todo IH]; intros done Hnd Hall.
  - rewrite app_nil_r. reflexivity.
  - apply Forall_cons in Hall as [(s & Hk & Hs) Hall]. cbn [fst] in Hk. subst k.
    cbn [foldM].
    assert (Hfresh : dict_get (map (fun kv => (fst kv, decode (snd kv))) done) (KStr s)
                     = None).
    { apply dict_get_None. rewrite dict_keys_map_snd. intros Hin.
      unfold dict_keys in Hnd. rewrite map_app in Hnd.
      apply NoDup_app in Hnd as (_ & Hdis & _).
      apply (Hdis (KStr s)); [apply list_elem_of_In, Hin | left]. }
    rewrite (expand_step_leaf recur _ ctx s v Hs Hfresh). cbn [bind].
    rewrite (dict_set_fresh _ _ _ Hfresh).
    replace (done ++ (KStr s, v) :: todo) with ((done ++ [(KStr s, v)]) ++ todo) in *
      by (rewrite <- app_assoc; reflexivity).
    rewrite <- (IH (done ++ [(KStr s, v)]) Hnd Hall).
    rewrite map_app. reflexivity.
Qed.

(** X21.  On a dictionary whose keys are distinct texts without a dot,
    [expand] keeps the keys and their order, and only turns the two markers
    of an empty dictionary and of an empty list back into them, whatever
    [expanded_data] is. *)
Theorem X21_expand_undotted_keys :
  forall data expanded_data,
    NoDup (dict_keys data) ->
    Forall (fun kv => undotted (fst kv)) data ->
    expand data expanded_data = Ok (map (fun kv => (fst kv, decode (snd kv))) data).
Proof.
  intros data expanded_data Hnd Hall. unfold expand. cbn [expand_aux].
  rewrite (expand_leaves _ _ data [] Hnd Hall). reflexivity.
Qed.

Lemma X21_expand_undotted_keys_witness :
  expand [(KStr "a", VStr "{}"); (KStr "b", VInt 1); (KStr "c", VStr "[]")] None
  = Ok (map (fun kv => (fst kv, decode (snd kv)))
          [(KStr "a", VStr "{}"); (KStr "b", VInt 1); (KStr "c", VStr "[]")]).
Proof.
  apply X21_expand_undotted_keys.
  - apply (bool_decide_unpack _). vm_compute. exact I.
  - repeat constructor; eexists; (split; [reflexivity | vm_compute; reflexivity]).
Defined.

Lemma split_dot_head (s h t : string) : split_dot s = Some (h, t) -> no_dot h.
Proof.
  unfold no_dot. revert h t. induction s as [|c s IH]; simpl; intros h t; [discriminate|].
  destruct (Ascii.eqb c ".") eqn:Hc.
  - intros [= <- _]. reflexivity.
  - destruct (split_dot s) as [[h' t']|]; [|discriminate].
    intros [= <- _]. simpl. rewrite Hc, (IH h' t' eq_refl). reflexivity.
Qed.

Lemma expand_step_keys recur ed ctx kv ed' ctx' :
  expand_step recur (ed, ctx) kv = Ok (ed', ctx') ->
  is_text (fst kv)
  /\ (Forall undotted (dict_keys ed) -> Forall undotted (dict_keys ed')).
Proof.
  intros H. destruct kv as [[z|s] v]; [discriminate H|].
  split; [exists s; reflexivity|]. intros Hed.
  assert (Hset : forall h (x : value), no_dot h ->
            Forall undotted (dict_keys (dict_set ed (KStr h) x))).
  { intros h x Hh. apply List.Forall_forall. intros k Hin.
    apply dict_keys_set_In in Hin as [->|Hin]; [exists h; split; [reflexivity|exact Hh]|].
    exact (proj1 (List.Forall_forall _ _) Hed k Hin). }
  assert (Hset2 : forall h (x y : value), no_dot h ->
            Forall undotted (dict_keys (dict_set (dict_set ed (KStr h) x) (KStr h) y))).
  { intros h x y Hh. rewrite dict_set_set. apply Hset, Hh. }
  unfold expand_step in H. destruct (split_dot s) as [[h rem]|] eqn:Hs.
  - apply split_dot_head in Hs. unfold setdefault in H. destruct ctx as [c|].
    + destruct (dict_get c (KStr h)) as [[| | | |[|y l]|d0]|]; cbn in H;
        try discriminate H;
        apply bind_Ok_inv in H as (r & _ & H); injection H as <- _; exact Hed.
    + destruct (dict_get ed (KStr h)) as [[| | | |[|y l]|d0]|]; cbn in H;
        try discriminate H;
        apply bind_Ok_inv in H as (r & _ & H); injection H as <- _;
        first [apply Hset2, Hs | apply Hset, Hs].
  - assert (Hstore : forall x : value,
              @Ok exn _ (dict_set ed (KStr s) x, ctx) = Ok (ed', ctx') ->
              Forall undotted (dict_keys ed')).
    { intros x [= <- _]. apply Hset, Hs. }
    destruct v as [| |z|tok|l|d]; try exact (Hstore _ H).
    destruct (String.eqb tok EMPTY_DICT).
    { destruct (dict_has ed (KStr s)); [injection H as <- _; exact Hed | exact (Hstore _ H)]. }
    destruct (String.eqb tok EMPTY_LIST).
    { destruct (dict_has ed (KStr s)); [injection H as <- _; exact Hed | exact (Hstore _ H)]. }
    exact (Hstore _ H).
Qed.

Lemma expand_fold_keys recur (data : dict) : forall ed ctx ed' ctx',
  foldM (expand_step recur) data (ed, ctx) = Ok (ed', ctx') ->
  Forall undotted (dict_keys ed) ->
  Forall (fun kv => is_text (fst kv)) data /\ Forall undotted (dict_keys ed').
Proof.
  induction data as [|kv data IH]; intros ed ctx ed' ctx' H Hed.
  - injection H as <- _. split; [constructor | exact Hed].
  - cbn [foldM] in H. apply bind_Ok_inv in H as ([ed1 ctx1] & Hstep & H).
    apply expand_step_keys in Hstep as [Hk Hed1].
    destruct (IH _ _ _ _ H (Hed1 Hed)) as [Hall Hout].
    split; [constructor; assumption | exact Hout].
Qed.

(** X22.  When [expand] returns, every key of its input is a text (a key
    of another type makes it raise), and every key of the dictionary it
    returns is a text without a dot. *)
Theorem X22_expand_keys :
  forall data expanded_data out,
    expand data expanded_data = Ok out ->
    Forall (fun kv => is_text (fst kv)) data
    /\ Forall undotted (dict_keys out).
Proof.
  intros data expanded_data out H. unfold expand in H.
  apply bind_Ok_inv in H as ([ed e] & H & Hout). injection Hout as <-.
  cbn [expand_aux] in H. apply bind_Ok_inv in H as ([ed1 ctx1] & H & Hst).
  injection Hst as <- _.
  apply (expand_fold_keys _ data [] _ ed1 ctx1 H). constructor.
Qed.

Lemma X22_expand_keys_witness :
  Forall (fun kv => is_text (fst kv)) [(KStr "a.b", VInt 1); (KStr "a.c.d", VInt 2)]
  /\ Forall undotted
       (dict_keys [(KStr "a", VDict [(KStr "b", VInt 1);
                                     (KStr "c", VDict [(KStr "d", VInt 2)])])]).
Proof.
  apply (X22_expand_keys [(KStr "a.b", VInt 1); (KStr "a.c.d", VInt 2)] None).
  vm_compute. reflexivity.
Defined.

(** ** Further properties: the export of a dictionary field *)

Lemma dict_export_items_spec K self format ctx level (items shaped : dict) :
  Forall2 (fun kv ks =>
             fst ks = fst kv
             /\ Field.export (DictType.field self) (snd kv) format ctx = Ok (snd ks))
          items shaped ->
  (Field.is_compound (DictType.field self) = true ->
   Forall (fun ks => sized (snd ks)) shaped) ->
  forall data,
    NoDup (dict_keys data ++ dict_keys items) ->
    DictType.export_items K self format ctx level items data
    = Ok (data ++ List.filter
                    (fun ks => kept_on_export K level
                                 (Field.is_compound (DictType.field self)) (snd ks))
                    shaped).
Proof.
  intros H2. induction H2 as [|[k v] [k' s] items shaped [Hk Hv] H2 IH];
    intros Hsized data Hnd.
  - cbn. rewrite app_nil_r. reflexivity.
  - cbn [fst snd] in Hk, Hv. subst k'.
    cbn [DictType.export_items List.filter snd]. rewrite Hv. cbn [bind].
    assert (Hskip :
      match s with
      | VNone => Ok (level <=? NOT_NONE K)
      | _ =>
          if Field.is_compound (DictType.field self)
          then do n <- len s; Ok (if (n =? 0)%nat then level <=? NONEMPTY K else false)
          else Ok false
      end = Ok (negb (kept_on_export K level (Field.is_compound (DictType.field self)) s))).
    { unfold kept_on_export. destruct (Field.is_compound (DictType.field self)) eqn:Hc.
      - specialize (Hsized eq_refl). apply Forall_cons in Hsized as [Hs _].
        cbn [snd] in Hs. destruct Hs as [->|[n Hn]].
        + rewrite negb_involutive. reflexivity.
        + destruct s; try (rewrite negb_involutive; reflexivity);
            rewrite Hn; cbn [bind]; destruct n; cbn; rewrite ?negb_involutive; reflexivity.
      - destruct s; try reflexivity. rewrite negb_involutive. reflexivity. }
    rewrite Hskip. cbn [bind].
    assert (Hsized' : Field.is_compound (DictType.field self) = true ->
                      Forall (fun ks => sized (snd ks)) shaped).
    { intros Hc. specialize (Hsized Hc). apply Forall_cons in Hsized as [_ H]. exact H. }
    cbn [dict_keys map fst] in Hnd.
    assert (Hfresh : dict_get data k = None).
    { apply dict_get_None. intros Hin. apply NoDup_app in Hnd as (_ & Hdis & _).
      apply (Hdis k); [apply list_elem_of_In, Hin | left]. }
    destruct (kept_on_export K level _ s); cbn [negb].
    + rewrite (dict_set_fresh _ _ _ Hfresh), (IH Hsized').
      * rewrite <- app_assoc. reflexivity.
      * unfold dict_keys. rewrite map_app, <- app_assoc. exact Hnd.
    + apply (IH Hsized'). apply NoDup_app in Hnd as (Hd & Hdis & Hi).
      apply NoDup_app. split; [exact Hd|]. split.
      * intros x Hx Hin. apply (Hdis x Hx). right. exact Hin.
      * apply NoDup_cons in Hi as [_ Hi]. exact Hi.
Qed.

(** X23.  [DictType.export] returns the empty dictionary when the export
    level of the inner field is [DROP]; otherwise, on a dictionary with
    distinct keys whose values can all be exported (and, for a compound
    inner field, have a length), it returns the exported values under
    their own keys, in order, without those that are [None] at a level not
    above [NOT_NONE] and, for a compound inner field, without the empty
    ones at a level not above [NONEMPTY]. *)
Theorem X23_dict_export :
  forall K self items format ctx,
    let level := Field.get_export_level (DictType.field self) ctx in
    let compound := Field.is_compound (DictType.field self) in
    (level = DROP K -> DictType.export K self items format ctx = Ok [])
    /\ (forall shaped,
          level <> DROP K ->
          NoDup (dict_keys items) ->
          Forall2 (fun kv ks =>
                     fst ks = fst kv
                     /\ Field.export (DictType.field self) (snd kv) format ctx
                        = Ok (snd ks))
                  items shaped ->
          (compound = true -> Forall (fun ks => sized (snd ks)) shaped) ->
          DictType.export K self items format ctx
          = Ok (List.filter (fun ks => kept_on_export K level compound (snd ks)) shaped)).
Proof.
  intros K self items format ctx level compound. subst level compound.
  unfold DictType.export. split.
  - intros ->. rewrite Z.eqb_refl. reflexivity.
  - intros shaped Hne Hnd H2 Hsized. apply Z.eqb_neq in Hne. rewrite Hne.
    rewrite (dict_export_items_spec K self format ctx _ items shaped H2 Hsized);
      [reflexivity | exact Hnd].
Qed.

Lemma X23_dict_export_witness :
  DictType.export sample_constants
    {| DictType.field := text_field 2; DictType.coerce_key := fun k => k |}
    [(KStr "a", VStr "x"); (KStr "b", VNone)] 1 sample_context
  = Ok (List.filter (fun ks => kept_on_export sample_constants 2 false (snd ks))
          [(KStr "a", VStr "x"); (KStr "b", VNone)]).
Proof.
  apply (proj2 (X23_dict_export sample_constants
                  {| DictType.field := text_field 2; DictType.coerce_key := fun k => k |}
                  [(KStr "a", VStr "x"); (KStr "b", VNone)] 1 sample_context)
           [(KStr "a", VStr "x"); (KStr "b", VNone)]).
  - discriminate.
  - apply (bool_decide_unpack _). vm_compute. exact I.
  - repeat constructor.
  - discriminate.
Defined.
